(** * homebridge-solaredge-accfactory: a shallow embedding

    The development follows the platform source, whose current revision is
    [src/unnamed/part_000] (class version 2025.06.15).  The helper
    [makeHomeKitName] is taken from [src/src/index.js], the only place where
    its body is present (the current revision calls it through the
    [HomeKitDevice] class, which is a separate module).

    Conventions of the embedding:
    - a JavaScript string is the list of its code points ([list N]);
    - a JavaScript number is a binary64 float where the result of rounded
      arithmetic is what a statement is about ([Binary64.scaleValue]); it
      is an exact rational ([Q]) where a number is only carried along,
      compared or multiplied by a unit factor, and an integer ([Z]) for
      counters and millisecond delays;
    - an [undefined] or missing property is [None];
    - objects that the code mutates through a reference (the power-flow
      readings) live in an explicit heap, so that aliasing and
      [structuredClone] are visible in the model. *)

From Stdlib Require Import Floats ZArith QArith Qminmax List Lia Lqa String Ascii.
From Equations Require Import Equations.
From stdpp Require Import base gmap list sorting.

Set Default Proof Using "Type".

Local Open Scope Z_scope.

(** ** JavaScript strings *)

Abbreviation jsstring := (list N).

(** [str] turns a literal into the list of its code points (ASCII only). *)
Definition str (s : string) : jsstring :=
  map N_of_ascii (list_ascii_of_string s).

(** [String.prototype.toUpperCase], restricted to the ASCII letters: the code
    points 97..122 are moved to 65..90, every other code point is kept.  This
    is what the engine does on strings whose letters are ASCII, the only ones
    the monitoring API uses for units, node names and serial numbers. *)
Definition upper_code (c : N) : N :=
  if ((97 <=? c) && (c <=? 122))%N then (c - 32)%N else c.

Definition toUpperCase (s : jsstring) : jsstring := map upper_code s.

(** [s.replace(/-/g, '.')] *)
Definition replace_dash_dot (s : jsstring) : jsstring :=
  map (fun c => if (c =? 45)%N then 46%N else c) s.

(** ** Name sanitization ([makeHomeKitName], src/src/index.js) *)

(** The Unicode general-category tables behind [\p{L}], [\p{N}] and [\p{Z}]
    belong to the JavaScript engine; the embedding takes them as a record of
    predicates on code points. *)
Record UnicodeTables := {
  is_L : N -> bool;
  is_N : N -> bool;
  is_Z : N -> bool
}.

(** A table for the ASCII range, used to run the model on examples. *)
Definition ascii_tables : UnicodeTables := {|
  is_L := fun c => ((65 <=? c) && (c <=? 90) || (97 <=? c) && (c <=? 122))%N;
  is_N := fun c => ((48 <=? c) && (c <=? 57))%N;
  is_Z := fun c => (c =? 32)%N
|}.

Section Sanitize.
Variable uc : UnicodeTables.

(** The class [[\p{L}\p{N}\p{Z}’.,-]]. *)
Definition name_char (c : N) : bool :=
  is_L uc c || is_N uc c || is_Z uc c
  || (c =? 8217)%N || (c =? 46)%N || (c =? 44)%N || (c =? 45)%N.

(** The class [[\p{L}\p{N}]]. *)
Definition letter_or_number (c : N) : bool := is_L uc c || is_N uc c.

(** [.replace(/[^\p{L}\p{N}\p{Z}’.,-]/gu, '')] *)
Definition strip_invalid (s : jsstring) : jsstring :=
  List.filter name_char s.

(** [.replace(/^[^\p{L}\p{N}]*/gu, '')] : drop the leading run. *)
Fixpoint trim_start (s : jsstring) : jsstring :=
  match s with
  | [] => []
  | c :: r => if letter_or_number c then s else trim_start r
  end.

(** [.replace(/[^\p{L}\p{N}]+$/gu, '')] : drop the trailing run. *)
Fixpoint trim_end (s : jsstring) : jsstring :=
  match s with
  | [] => []
  | c :: r =>
      match trim_end r with
      | [] => if letter_or_number c then [c] else []
      | r' => c :: r'
      end
  end.

Definition makeHomeKitName (nameToMakeValid : jsstring) : jsstring :=
  trim_end (trim_start (strip_invalid nameToMakeValid)).

(** A string that is empty or begins with a letter or a number. *)
Definition starts_clean (s : jsstring) : Prop :=
  match s with [] => True | c :: _ => letter_or_number c = true end.
End Sanitize.

(** ** Range scaling ([scaleValue], src/unnamed/part_000) *)

(** The function as the program runs it, on binary64 numbers: every
    operation rounds to the nearest double. *)
Module Binary64.
(** [Math.min] and [Math.max] of two numbers: [NaN] when either is [NaN],
    and [-0] counts as less than [+0]. *)
Definition Math_min (a b : float) : float :=
  if is_nan a || is_nan b then nan
  else if (a <? b)%float then a
  else if (b <? a)%float then b
  else if get_sign a then a else b.

Definition Math_max (a b : float) : float :=
  if is_nan a || is_nan b then nan
  else if (b <? a)%float then a
  else if (a <? b)%float then b
  else if get_sign a then b else a.

Definition scaleValue (value sourceMin sourceMax targetMin targetMax : float) : float :=
  if (sourceMax =? sourceMin)%float then targetMin
  else
    let value := Math_max sourceMin (Math_min sourceMax value) in
    (((value - sourceMin) * (targetMax - targetMin)) / (sourceMax - sourceMin)
     + targetMin)%float.

(** The double that the literal [5.27] denotes, a peak power in kW. *)
Definition peak_5_27 : float := 0x1.5147ae147ae14p+2%float.

(** The double next above 100, printed [100.00000000000001]. *)
Definition above_100 : float := 0x1.9000000000001p+6%float.
End Binary64.

(** The same formula on exact rationals.  It stands for the code where only
    the order of results matters, which rounding to the nearest double
    keeps; equalities and bounds of the result are stated on
    [Binary64.scaleValue]. *)
Definition scaleValue (value sourceMin sourceMax targetMin targetMax : Q) : Q :=
  if Qeq_bool sourceMax sourceMin then targetMin
  else
    let value := Qmax sourceMin (Qmin sourceMax value) in
    ((value - sourceMin) * (targetMax - targetMin)) / (sourceMax - sourceMin)
    + targetMin.

(** ** Authorisation retry loop ([reconnectLoop], src/unnamed/part_000) *)

Record Connection := {
  authorised : bool;
  apiKey : jsstring
}.

(** [#connect]: one authorisation call.  [fetched] tells whether
    [fetchWrapper] and [response.json()] both resolved; the method catches
    every error itself and records the outcome in [authorised]. *)
Definition connect (fetched : bool) (c : Connection) : Connection :=
  {| authorised := fetched; apiKey := apiKey c |}.

(** The closure of one [reconnectLoop]: the connection it watches and its
    private [reconnectDelay]. *)
Record ReconnectState := {
  conn : Connection;
  reconnectDelay : Z
}.

(** [let reconnectDelay = 15000] with the connection as the constructor
    creates it. *)
Definition reconnect_init (key : jsstring) : ReconnectState :=
  {| conn := {| authorised := false; apiKey := key |}; reconnectDelay := 15000 |}.

(** One run of [reconnectLoop].  The second component is the delay handed to
    [setTimeout(reconnectLoop, reconnectDelay)], the third tells whether this
    run made an authorisation attempt.  The call of [#subscribeREST] that
    follows [#connect] touches neither the connection nor the delay; it is
    modelled on its own below. *)
Definition reconnectLoop (fetched : bool) (s : ReconnectState)
  : ReconnectState * Z * bool :=
  if negb (authorised (conn s)) then
    let c := connect fetched (conn s) in
    let d := if authorised c then 15000 else Z.min (reconnectDelay s * 2) 60000 in
    ({| conn := c; reconnectDelay := d |}, d, true)
  else
    ({| conn := conn s; reconnectDelay := 15000 |}, 15000, false).

(** The loop driven by the outcomes of successive authorisation calls; the
    result lists the delay scheduled by every run. *)
Fixpoint reconnect_run (outcomes : list bool) (s : ReconnectState) : list Z :=
  match outcomes with
  | [] => []
  | o :: rest =>
      let '(s', d, _) := reconnectLoop o s in
      d :: reconnect_run rest s'
  end.

(** The state reached after the given outcomes. *)
Definition reconnect_state (outcomes : list bool) (s : ReconnectState) : ReconnectState :=
  foldl (fun st o => (reconnectLoop o st).1.1) s outcomes.

(** The sequence of the specification: 15000, 30000, 60000, 60000, ... *)
Definition spec_backoff (k : nat) : Z := Z.min (15000 * 2 ^ Z.of_nat k) 60000.

(** ** HTTP wrapper ([fetchWrapper], src/unnamed/part_000) *)

Inductive Method := GET | POST | OtherMethod.

Record Options := {
  timeout : option Z;
  retry : option Z;
  _retryCount : option Z;
  signal : option Z;
  method : option Method;
  body : option jsstring
}.

Record Response := {
  ok : bool;
  status : Z
}.

(** What one call of the global [fetch] does. *)
Inductive FetchOutcome :=
| Rejects
| Resolves (r : Response).

Inductive FetchResult :=
| ReturnsUndefined
| Returns (r : Response)
| ThrowsFetchFailed (attempts : Z)
| ThrowsHttpStatus (code : Z).

Inductive FetchEvent :=
| CallFetch (url : jsstring) (o : Options)
| Sleep (ms : Z).

(** The guard at the top of [fetchWrapper] for a [url] that is a string and
    [options] that are an object, which is how every call in this program
    passes them; the two [typeof] tests are then false.  [guard] below is
    the whole condition, on arguments of any type. *)
Definition invalid_call (m : Method) (url : jsstring) : bool :=
  match m with
  | OtherMethod => true
  | _ => match url with [] => true | _ => false end
  end.

(** The retry budget the call works with: [options.retry], or 1 when it is
    not a number or is below 1. *)
Definition budget (o : Options) : Z :=
  match retry o with
  | Some r => if r <? 1 then 1 else r
  | None => 1
  end.

(** The assignments made to [options] before [fetch] is called. *)
Definition prepare (m : Method) (data : option jsstring) (o : Options) : Options :=
  {| timeout := timeout o;
     retry := Some (budget o);
     _retryCount := Some (default 0 (_retryCount o));
     signal := match timeout o with
               | Some t => if 0 <? t then Some t else signal o
               | None => signal o
               end;
     method := Some m;
     body := match m, data with
             | POST, Some d => Some d
             | _, _ => body o
             end |}.

(** [options.retry--; options._retryCount++] *)
Definition consume_retry (o : Options) : Options :=
  {| timeout := timeout o;
     retry := Some (default 1 (retry o) - 1);
     _retryCount := Some (default 0 (_retryCount o) + 1);
     signal := signal o;
     method := method o;
     body := body o |}.

(** [500 * 2 ** (options._retryCount - 1)] *)
Definition backoff_delay (o : Options) : Z :=
  500 * 2 ^ (default 0 (_retryCount o) - 1).

(** [net k] is the outcome of the [k]-th call of [fetch]; [k] counts the calls
    made so far.  The result carries the calls and the sleeps in order. *)
Equations? fetchWrapper (net : nat -> FetchOutcome) (k : nat) (m : Method)
    (url : jsstring) (options : Options) (data : option jsstring)
  : FetchResult * list FetchEvent by wf (Z.to_nat (budget options)) lt :=
fetchWrapper net k m url options data with invalid_call m url := {
  | true := (ReturnsUndefined, []);
  | false with net k := {
    | Rejects with Z_lt_dec 1 (budget options) := {
      | left _ :=
          let o := consume_retry (prepare m data options) in
          let '(res, tr) := fetchWrapper net (S k) m url o data in
          (res, CallFetch url (prepare m data options) :: Sleep (backoff_delay o) :: tr);
      | right _ :=
          (ThrowsFetchFailed (default 0 (_retryCount (prepare m data options)) + 1),
           [CallFetch url (prepare m data options)]) };
    | Resolves r with ok r := {
      | true := (Returns r, [CallFetch url (prepare m data options)]);
      | false with Z_lt_dec 1 (budget options) := {
        | left _ :=
            let o := consume_retry (prepare m data options) in
            let '(res, tr) := fetchWrapper net (S k) m url o data in
            (res, CallFetch url (prepare m data options) :: Sleep (backoff_delay o) :: tr);
        | right _ :=
            (ThrowsHttpStatus (status r), [CallFetch url (prepare m data options)]) } } } }.
Proof.
  all: unfold consume_retry, prepare, budget in *; simpl.
  all: destruct (retry options) as [r0|]; simpl in *; [|lia].
  all: destruct (Z.ltb_spec r0 1); [lia|]; simpl.
  all: destruct (Z.ltb_spec (r0 - 1) 1); lia.
Qed.

(** The arguments as a caller may pass them: JavaScript takes a value of any
    type for [url] and for [options]. *)
Inductive UrlArg :=
| UrlString (url : jsstring)
| UrlOther.

Inductive OptionsArg :=
| OptionsObject (o : Options)
| OptionsNull
| OptionsOther.

(** [(method !== 'get' && method !== 'post') || typeof url !== 'string' ||
    url === '' || typeof options !== 'object'].  [typeof null] is
    ['object'], so [null] is not caught here. *)
Definition guard (m : Method) (url : UrlArg) (options : OptionsArg) : bool :=
  match m with GET | POST => false | OtherMethod => true end
  || match url with UrlString _ => false | UrlOther => true end
  || match url with UrlString [] => true | _ => false end
  || match options with OptionsOther => true | _ => false end.

Inductive CallResult :=
| RejectsTypeError
| Settles (r : FetchResult).

(** A call of [fetchWrapper] with arguments of any type.  With [null] for
    [options] the call gets past the guard and past [options?.timeout], and
    [options.retry] throws. *)
Definition fetchWrapper_call (net : nat -> FetchOutcome) (k : nat) (m : Method)
    (url : UrlArg) (options : OptionsArg) (data : option jsstring)
  : CallResult * list FetchEvent :=
  if guard m url options then (Settles ReturnsUndefined, [])
  else
    match url, options with
    | UrlString u, OptionsObject o =>
        let '(r, tr) := fetchWrapper net k m u o data in (Settles r, tr)
    | _, _ => (RejectsTypeError, [])
    end.

(** The calls of [fetch] in a trace, and the sleeps between them. *)
Definition attempts (tr : list FetchEvent) : nat :=
  length (List.filter (fun e => match e with CallFetch _ _ => true | _ => false end) tr).

Definition delays (tr : list FetchEvent) : list Z :=
  omap (fun e => match e with Sleep ms => Some ms | _ => None end) tr.

(** An attempt fails when [fetch] rejects or the response has [ok === false]. *)
Definition failed (o : FetchOutcome) : bool :=
  match o with
  | Rejects => true
  | Resolves r => negb (ok r)
  end.

(** The shape of a trace: which steps are calls of [fetch] and which are
    sleeps. *)
Inductive Step :=
| Attempt
| Wait (ms : Z).

Definition steps (tr : list FetchEvent) : list Step :=
  map (fun e => match e with CallFetch _ _ => Attempt | Sleep ms => Wait ms end) tr.

(** [a] attempts, the [i]-th of them (counted from 1) followed, when it is not
    the last, by a sleep of [500 * 2 ^ (c + i - 1)] milliseconds; [c] is the
    value of [_retryCount] at the first attempt. *)
Definition backoff_schedule (c : Z) (a : nat) : list Step :=
  flat_map (fun i => [Attempt; Wait (500 * 2 ^ (c + Z.of_nat i))]) (seq 0 (a - 1))
  ++ [Attempt].

(** What the result of a call says about its last attempt, the [j]-th call of
    [fetch], when the call started with retry count [c] and made [a]
    attempts out of a budget of [b]. *)
Definition result_matches (net : nat -> FetchOutcome) (j : nat) (c : Z) (a b : nat)
    (res : FetchResult) : Prop :=
  match res with
  | ReturnsUndefined => False
  | Returns r => net j = Resolves r /\ ok r = true
  | ThrowsFetchFailed n => net j = Rejects /\ a = b /\ n = c + Z.of_nat a
  | ThrowsHttpStatus code =>
      a = b /\ exists r, net j = Resolves r /\ ok r = false /\ status r = code
  end.

(** A fetch that rejects, then answers 503, then answers 200. *)
Definition flaky_net (k : nat) : FetchOutcome :=
  match k with
  | O => Rejects
  | S O => Resolves {| ok := false; status := 503 |}
  | _ => Resolves {| ok := true; status := 200 |}
  end.

Definition three_tries : Options :=
  {| timeout := Some 30000; retry := Some 3; _retryCount := None;
     signal := None; method := None; body := None |}.

(** ** Data model *)

(** A flow node of a power-flow reading ([GRID], [PV], [LOAD]). *)
Module Node.
Record t := {
  currentPower : option Q;
  status : jsstring
}.
End Node.

(** A directed edge [{from, to}] of the [connections] list. *)
Module Edge.
Record t := {
  from : jsstring;
  to : jsstring
}.
End Edge.

(** [siteCurrentPowerFlow] *)
Module Flow.
Record t := {
  unit : option jsstring;
  GRID : option Node.t;
  PV : option Node.t;
  LOAD : option Node.t;
  connections : option (list Edge.t)
}.
End Flow.

Module Inverter.
Record t := {
  SN : jsstring;
  name : jsstring;
  cpuVersion : jsstring;
  model : jsstring;
  manufacturer : jsstring
}.
End Inverter.

(** [Inventory]; [inverters] is [None] when the property is not an array. *)
Module Inventory.
Record t := {
  inverters : option (list Inverter.t)
}.
End Inventory.

(** An element of [sites.site]; [city] is [None] when [location.city] is not
    a string. *)
Module Site.
Record t := {
  id : Z;
  name : jsstring;
  peakPower : Q;
  installationDate : jsstring;
  city : option jsstring
}.
End Site.

(** Power-flow readings are objects reached through references.  A reading
    and its flow nodes make one cell of the store: the program never keeps a
    reference to a node on its own, and [structuredClone] copies the whole
    tree. *)
Abbreviation loc := positive.
Abbreviation heap := (gmap loc Flow.t).

(** An entry of [#rawData]. *)
Module Snapshot.
Record t := {
  connection : jsstring;
  site : Site.t;
  inventory : option Inventory.t;
  powerflow : option loc
}.
End Snapshot.

(** The record built by [#processData] for one inverter. *)
Module Device.
Record t := {
  excluded : bool;
  serialNumber : jsstring;
  softwareVersion : jsstring;
  model : jsstring;
  manufacturer : jsstring;
  siteid : Z;
  installationDate : jsstring;
  description : jsstring;
  peakPower : Q;
  powerflow : option loc;
  online : bool;
  eveHistory : bool
}.
End Device.

(** An entry of [#trackedDevices] ([timers] is always [undefined]). *)
Module Tracked.
Record t := {
  uuid : jsstring;
  exclude : bool
}.
End Tracked.

(** The part of the configuration that [#processData] reads:
    [config.options.eveHistory] and [config.devices[serial].eveHistory]. *)
Record Config := {
  options_eveHistory : bool;
  devices_eveHistory : gmap jsstring bool
}.

(** The private state of the platform object. *)
Record Platform := {
  store : heap;
  connections : gmap jsstring Connection;
  rawData : gmap Z Snapshot.t;
  trackedDevices : gmap jsstring Tracked.t;
  cachedAccessories : list jsstring
}.

(** ** JavaScript objects used as ordered maps *)

(** [obj[k] = v] on an object with string keys: an existing key keeps its
    place, a new key goes last (the enumeration order of keys that are not
    canonical array indices). *)
Fixpoint obj_set {V} (k : jsstring) (v : V) (o : list (jsstring * V)) : list (jsstring * V) :=
  match o with
  | [] => [(k, v)]
  | (k', v') :: r => if decide (k = k') then (k, v) :: r else (k', v') :: obj_set k v r
  end.

Fixpoint obj_get {V} (k : jsstring) (o : list (jsstring * V)) : option V :=
  match o with
  | [] => None
  | (k', v') :: r => if decide (k = k') then Some v' else obj_get k r
  end.

Definition obj_values {V} (o : list (jsstring * V)) : list V := map snd o.

(** [Object.values] of an object keyed by site ids: integer keys are visited
    in ascending order. *)
Definition key_le {V} (a b : Z * V) : Prop := a.1 <= b.1.

#[global] Instance key_le_dec {V} (a b : Z * V) : Decision (key_le a b) :=
  Z_le_dec a.1 b.1.

Definition Object_values {V} (o : gmap Z V) : list V :=
  map snd (merge_sort key_le (map_to_list o)).

(** ** Normalization ([#processData], src/unnamed/part_000) *)

(** [structuredClone(data.powerflow)]: a fresh object with the same
    contents. *)
Definition structuredClone (h : heap) (src : option loc) : option loc * heap :=
  match src with
  | None => (None, h)
  | Some l =>
      match h !! l with
      | None => (None, h)
      | Some pf => let l' := fresh (dom h) in (Some l', <[l' := pf]> h)
      end
  end.

(** The multiplier chosen from [powerflow?.unit]. *)
Definition unitMultiplier (unit : option jsstring) : Q :=
  match unit with
  | Some u =>
      let unit := toUpperCase u in
      if decide (unit = str "MW") then 1000000%Q
      else if decide (unit = str "W") then 1%Q
      else 1000%Q
  | None => 1000%Q
  end.

(** [powerflow?.unit], a string or nothing. *)
Definition read_unit (h : heap) (powerflow : option loc) : option jsstring :=
  match powerflow with
  | Some l => match h !! l with Some pf => Flow.unit pf | None => None end
  | None => None
  end.

Inductive FlowKey := KGRID | KPV | KLOAD.

Definition flow_get (key : FlowKey) (pf : Flow.t) : option Node.t :=
  match key with
  | KGRID => Flow.GRID pf
  | KPV => Flow.PV pf
  | KLOAD => Flow.LOAD pf
  end.

Definition flow_set (key : FlowKey) (n : Node.t) (pf : Flow.t) : Flow.t :=
  match key with
  | KGRID => {| Flow.unit := Flow.unit pf; Flow.GRID := Some n; Flow.PV := Flow.PV pf;
                Flow.LOAD := Flow.LOAD pf; Flow.connections := Flow.connections pf |}
  | KPV => {| Flow.unit := Flow.unit pf; Flow.GRID := Flow.GRID pf; Flow.PV := Some n;
              Flow.LOAD := Flow.LOAD pf; Flow.connections := Flow.connections pf |}
  | KLOAD => {| Flow.unit := Flow.unit pf; Flow.GRID := Flow.GRID pf; Flow.PV := Flow.PV pf;
                Flow.LOAD := Some n; Flow.connections := Flow.connections pf |}
  end.

(** [if (powerflow?.[key]?.currentPower !== undefined)
       powerflow[key].currentPower *= unitMultiplier] *)
Definition scale_key (unitMultiplier : Q) (powerflow : option loc) (h : heap)
    (key : FlowKey) : heap :=
  match powerflow with
  | None => h
  | Some l =>
      match h !! l with
      | None => h
      | Some pf =>
          match flow_get key pf with
          | None => h
          | Some nd =>
              match Node.currentPower nd with
              | None => h
              | Some p =>
                  <[l := flow_set key {| Node.currentPower := Some (p * unitMultiplier)%Q;
                                         Node.status := Node.status nd |} pf]> h
              end
          end
      end
  end.

Section Normalizer.
Variable uc : UnicodeTables.
Variable config : Config.

(** The object literal assigned to [devices[serial]]. *)
Definition derive_device (data : Snapshot.t) (unitMultiplier : Q)
    (powerflow : option loc) (inverter : Inverter.t) : Device.t :=
  let serial := toUpperCase (Inverter.SN inverter) in
  let location := default [] (Site.city (Snapshot.site data)) in
  let description :=
    if decide (Inverter.name inverter = []) then location else Inverter.name inverter in
  {| Device.excluded := false;
     Device.serialNumber := serial;
     Device.softwareVersion := replace_dash_dot (Inverter.cpuVersion inverter);
     Device.model := Inverter.model inverter;
     Device.manufacturer := Inverter.manufacturer inverter;
     Device.siteid := Site.id (Snapshot.site data);
     Device.installationDate := Site.installationDate (Snapshot.site data);
     Device.description :=
       makeHomeKitName uc
         (if decide (location = []) then description
          else description ++ str " - " ++ location);
     Device.peakPower := (Site.peakPower (Snapshot.site data) * unitMultiplier)%Q;
     Device.powerflow := powerflow;
     Device.online := true;
     Device.eveHistory :=
       options_eveHistory config
       || bool_decide (devices_eveHistory config !! serial = Some true) |}.

(** The body of [Object.values(this.#rawData).forEach((data) => ...)]. *)
Definition process_site (acc : heap * list (jsstring * Device.t)) (data : Snapshot.t)
  : heap * list (jsstring * Device.t) :=
  let '(h, devices) := acc in
  let '(powerflow, h) := structuredClone h (Snapshot.powerflow data) in
  let m := unitMultiplier (read_unit h powerflow) in
  let h := foldl (scale_key m powerflow) h [KGRID; KPV; KLOAD] in
  let devices :=
    match Snapshot.inventory data ≫= Inventory.inverters with
    | Some inverters =>
        foldl (fun ds inverter =>
                 obj_set (toUpperCase (Inverter.SN inverter))
                   (derive_device data m powerflow inverter) ds)
              devices inverters
    | None => devices
    end in
  (h, devices).

(** [#processData]: the device mapping, and the platform afterwards. *)
Definition processData (st : Platform) : list (jsstring * Device.t) * Platform :=
  let '(h, devices) := foldl process_site (store st, []) (Object_values (rawData st)) in
  (devices,
   {| store := h; connections := connections st; rawData := rawData st;
      trackedDevices := trackedDevices st; cachedAccessories := cachedAccessories st |}).
End Normalizer.

(** The reading a record must carry: [currentPower] of every flow node that
    has one, multiplied once. *)
Definition scale_node (m : Q) (n : option Node.t) : option Node.t :=
  match n with
  | Some nd =>
      Some {| Node.currentPower := (fun p => (p * m)%Q) <$> Node.currentPower nd;
              Node.status := Node.status nd |}
  | None => None
  end.

Definition scale_flow (m : Q) (pf : Flow.t) : Flow.t :=
  {| Flow.unit := Flow.unit pf;
     Flow.GRID := scale_node m (Flow.GRID pf);
     Flow.PV := scale_node m (Flow.PV pf);
     Flow.LOAD := scale_node m (Flow.LOAD pf);
     Flow.connections := Flow.connections pf |}.

(** One key of the reading scaled, as a function of the reading. *)
Definition scale_flow_key (m : Q) (key : FlowKey) (pf : Flow.t) : Flow.t :=
  match flow_get key pf with
  | Some nd =>
      match Node.currentPower nd with
      | Some p =>
          flow_set key {| Node.currentPower := Some (p * m)%Q;
                          Node.status := Node.status nd |} pf
      | None => pf
      end
  | None => pf
  end.

(** How the multiplier [m] and the reading [pw] put into the records of one
    site relate to the site's raw reading: [h] is the store before
    normalization and [h'] the store after it. *)
Definition normalized (h h' : heap) (data : Snapshot.t) (m : Q) (pw : option loc) : Prop :=
  match Snapshot.powerflow data with
  | None => pw = None /\ m = 1000%Q
  | Some l0 =>
      match h !! l0 with
      | None => True
      | Some pf =>
          m = unitMultiplier (Flow.unit pf)
          /\ exists l', pw = Some l' /\ h !! l' = None /\ h' !! l' = Some (scale_flow m pf)
      end
  end.

(** Every reading referred to by the cache is in the store. *)
Definition reading_present (h : heap) (data : Snapshot.t) : Prop :=
  match Snapshot.powerflow data with
  | Some l0 => is_Some (h !! l0)
  | None => True
  end.

#[global] Instance reading_present_dec h data : Decision (reading_present h data).
Proof. unfold reading_present. destruct (Snapshot.powerflow data); apply _. Defined.

Definition well_formed (st : Platform) : Prop :=
  map_Forall (fun _ data => reading_present (store st) data) (rawData st).

(** ** The earlier revision of [#processData] (src/src/index.js)

    Two places where the earlier revision differs from the current one:
    how the description is put together, and where the unit multiplier is
    applied. *)

Module Legacy.
(** [var unitMultplier = 1000] followed by the three tests on
    [data.powerflow.unit.toUpperCase()]. *)
Definition unitMultplier (unit : jsstring) : Q :=
  let u := toUpperCase unit in
  let m := 1000%Q in
  let m := if decide (u = str "KW") then 1000%Q else m in
  let m := if decide (u = str "MW") then 1000000%Q else m in
  if decide (u = str "W") then 1%Q else m.

(** [if (data.powerflow.KEY.hasOwnProperty('currentPower') === true)
       data.powerflow.KEY.currentPower = data.powerflow.KEY.currentPower * unitMultplier],
    on the cached reading itself; [None] stands for a [TypeError]. *)
Definition scale_in_place (m : Q) (l : loc) (key : FlowKey) (h : heap) : option heap :=
  pf ← h !! l;
  nd ← flow_get key pf;
  Some (match Node.currentPower nd with
        | Some p =>
            <[l := flow_set key {| Node.currentPower := Some (p * m)%Q;
                                   Node.status := Node.status nd |} pf]> h
        | None => h
        end).

(** The "fix up power values" block, which sits inside the loop over the
    inverters. *)
Definition fix_up_power_values (l : loc) (h : heap) : option heap :=
  pf ← h !! l;
  u ← Flow.unit pf;
  h ← scale_in_place (unitMultplier u) l KGRID h;
  h ← scale_in_place (unitMultplier u) l KPV h;
  scale_in_place (unitMultplier u) l KLOAD h.

(** The store after the inverters of one cached site have been processed. *)
Definition process_inverters (data : Snapshot.t) (h : heap) : option heap :=
  l ← Snapshot.powerflow data;
  inverters ← Snapshot.inventory data ≫= Inventory.inverters;
  foldl (fun oh _ => oh ≫= fix_up_power_values l) (Some h) inverters.

(** [let description = inverter.name; let location = ...;
     if (description === '') { description = location; location = ''; }
     makeHomeKitName(location === '' ? description : description + ' - ' + location)] *)
Definition description (uc : UnicodeTables) (data : Snapshot.t) (inverter : Inverter.t)
  : jsstring :=
  let description := Inverter.name inverter in
  let location := default [] (Site.city (Snapshot.site data)) in
  let '(description, location) :=
    if decide (description = []) then (location, []) else (description, location) in
  makeHomeKitName uc
    (if decide (location = []) then description
     else description ++ str " - " ++ location).
End Legacy.

(** ** A sample installation *)

Definition sample_flow : Flow.t :=
  {| Flow.unit := Some (str "kW");
     Flow.GRID := Some {| Node.currentPower := Some 1.5%Q; Node.status := str "Active" |};
     Flow.PV := Some {| Node.currentPower := Some 3.5%Q; Node.status := str "Active" |};
     Flow.LOAD := Some {| Node.currentPower := Some 2%Q; Node.status := str "Active" |};
     Flow.connections :=
       Some [ {| Edge.from := str "PV"; Edge.to := str "Load" |};
              {| Edge.from := str "LOAD"; Edge.to := str "Grid" |} ] |}.

Definition sample_site : Site.t :=
  {| Site.id := 42; Site.name := str "Home"; Site.peakPower := 5%Q;
     Site.installationDate := str "2020-01-01"; Site.city := Some (str "Perth") |}.

Definition sample_inverter : Inverter.t :=
  {| Inverter.SN := str "7e12abcd-34"; Inverter.name := str "Roof";
     Inverter.cpuVersion := str "4-15-123456"; Inverter.model := str "SE5000H";
     Inverter.manufacturer := str "SolarEdge" |}.

(** An inverter whose name is the empty string. *)
Definition nameless_inverter : Inverter.t :=
  {| Inverter.SN := str "7f00beef-01"; Inverter.name := [];
     Inverter.cpuVersion := str "4-15-123456"; Inverter.model := str "SE5000H";
     Inverter.manufacturer := str "SolarEdge" |}.

Definition sample_snapshot (inverters : list Inverter.t) : Snapshot.t :=
  {| Snapshot.connection := str "c0ffee";
     Snapshot.site := sample_site;
     Snapshot.inventory := Some {| Inventory.inverters := Some inverters |};
     Snapshot.powerflow := Some 1%positive |}.

Definition sample_config : Config :=
  {| options_eveHistory := true; devices_eveHistory := ∅ |}.

Definition sample_platform (inverters : list Inverter.t) : Platform :=
  {| store := {[ 1%positive := sample_flow ]};
     connections := {[ str "c0ffee" := {| authorised := true; apiKey := str "key" |} ]};
     rawData := {[ 42 := sample_snapshot inverters ]};
     trackedDevices := ∅;
     cachedAccessories := [] |}.

(** ** Loops with effects *)

(** [l.forEach(f)] or [for (const a of l) f(a)] for a body that changes the
    state and does things to the outside: the state is threaded through and
    the events are collected in order. *)
Definition for_each {S A E} (f : S -> A -> S * list E) (s : S) (l : list A)
  : S * list E :=
  foldl (fun acc a => let '(s', e) := f acc.1 a in (s', acc.2 ++ e)) (s, []) l.

(** The same loop inside a [try]: the body also tells whether it threw, and
    the turn that throws is the last one.  The state it left and the events
    it produced before throwing stay. *)
Fixpoint for_each_until {S A E} (f : S -> A -> S * list E * bool) (s : S) (l : list A)
  : S * list E :=
  match l with
  | [] => (s, [])
  | a :: rest =>
      let '(s1, e1, thrown) := f s a in
      if thrown then (s1, e1)
      else let '(s2, e2) := for_each_until f s1 rest in (s2, e1 ++ e2)
  end.

(** ** Device registry ([#processPostSubscribe], src/unnamed/part_000) *)

(** What the platform does to the outside world, and its writes to the cache. *)
Inductive Event :=
| LogWarn (description : jsstring)
| UnregisterPlatformAccessories (uuid : jsstring)
| NewSolarInverter (deviceData : Device.t)
| EmitUpdate (uuid : jsstring) (deviceData : Device.t)
| WriteRawData (siteid : Z).

Definition with_trackedDevices (st : Platform) (t : gmap jsstring Tracked.t) : Platform :=
  {| store := store st; connections := connections st; rawData := rawData st;
     trackedDevices := t; cachedAccessories := cachedAccessories st |}.

Section Registry.
Variable uc : UnicodeTables.
Variable config : Config.

(** [HomeKitDevice.generateUUID(PLUGIN_NAME, api, serialNumber)] and the
    [uuid] of the object built by [new SolarInverter(...)] come from the
    [HomeKitDevice] class, a separate module: they are parameters here. *)
Variable generateUUID : jsstring -> jsstring.
Variable device_uuid : Device.t -> jsstring.

(** The body of [Object.values(...).forEach((deviceData) => ...)]. *)
Definition register_device (st : Platform) (deviceData : Device.t)
  : Platform * list Event :=
  let serial := Device.serialNumber deviceData in
  let '(tracked, ev1) :=
    if bool_decide (trackedDevices st !! serial = None) && Device.excluded deviceData then
      let uuid := generateUUID serial in
      (<[serial := {| Tracked.uuid := uuid; Tracked.exclude := true |}]> (trackedDevices st),
       LogWarn (Device.description deviceData)
       :: (if bool_decide (uuid ∈ cachedAccessories st)
           then [UnregisterPlatformAccessories uuid] else []))
    else (trackedDevices st, []) in
  let '(tracked, ev2) :=
    if bool_decide (tracked !! serial = None) && negb (Device.excluded deviceData) then
      (<[serial := {| Tracked.uuid := device_uuid deviceData; Tracked.exclude := false |}]>
         tracked,
       [NewSolarInverter deviceData])
    else (tracked, []) in
  let ev3 :=
    if negb (Device.excluded deviceData) then
      match tracked !! serial with
      | Some t =>
          if bool_decide (Tracked.uuid t = []) then []
          else [EmitUpdate (Tracked.uuid t) deviceData]
      | None => []
      end
    else [] in
  (with_trackedDevices st tracked, ev1 ++ ev2 ++ ev3).

(** The loop over the records of one normalization result. *)
Definition register_devices (st : Platform) (records : list Device.t)
  : Platform * list Event :=
  for_each register_device st records.

Definition processPostSubscribe (st : Platform) : Platform * list Event :=
  let '(devices, st) := processData uc config st in
  register_devices st (obj_values devices).

(** Several cycles in a row, each with its own normalization result. *)
Definition register_cycles (st : Platform) (cycles : list (list Device.t))
  : Platform * list Event :=
  for_each register_devices st cycles.

(** ** Runs of the registry that are cut short

    [#processPostSubscribe] has no [try] of its own: when something inside
    it throws (a listener of the update event, the constructor of the
    accessory, [#processData] on an inventory entry without [SN]), the
    exception leaves it in the middle of its work.  Whatever the cause, the
    run has then done the first few of the things the complete run does, in
    the same order. *)

(** The things one run does: calls to the outside and writes to
    [#trackedDevices]. *)
Inductive Action :=
| Call (e : Event)
| Track (serial : jsstring) (t : Tracked.t).

Definition perform (st : Platform) (a : Action) : Platform * list Event :=
  match a with
  | Call e => (st, [e])
  | Track serial t => (with_trackedDevices st (<[serial := t]> (trackedDevices st)), [])
  end.

(** The body of the [forEach] once more, as the actions it performs from
    the state [st], in order. *)
Definition register_actions (st : Platform) (deviceData : Device.t) : list Action :=
  let serial := Device.serialNumber deviceData in
  let '(tracked, a1) :=
    if bool_decide (trackedDevices st !! serial = None) && Device.excluded deviceData then
      let uuid := generateUUID serial in
      let t := {| Tracked.uuid := uuid; Tracked.exclude := true |} in
      (<[serial := t]> (trackedDevices st),
       [Call (LogWarn (Device.description deviceData)); Track serial t]
       ++ (if bool_decide (uuid ∈ cachedAccessories st)
           then [Call (UnregisterPlatformAccessories uuid)] else []))
    else (trackedDevices st, []) in
  let '(tracked, a2) :=
    if bool_decide (tracked !! serial = None) && negb (Device.excluded deviceData) then
      let t := {| Tracked.uuid := device_uuid deviceData; Tracked.exclude := false |} in
      (<[serial := t]> tracked, [Call (NewSolarInverter deviceData); Track serial t])
    else (tracked, []) in
  let a3 :=
    if negb (Device.excluded deviceData) then
      match tracked !! serial with
      | Some t =>
          if bool_decide (Tracked.uuid t = []) then []
          else [Call (EmitUpdate (Tracked.uuid t) deviceData)]
      | None => []
      end
    else [] in
  a1 ++ a2 ++ a3.

(** The loop over the records when an exception ends it after [n] actions:
    the actions before it were performed, the one it happened in and all
    later ones were not. *)
Fixpoint register_devices_cut (n : nat) (st : Platform) (records : list Device.t)
  : Platform * list Event :=
  match records with
  | [] => (st, [])
  | deviceData :: rest =>
      let actions := register_actions st deviceData in
      if decide (length actions <= n)%nat then
        let '(st1, ev1) := for_each perform st actions in
        let '(st2, ev2) := register_devices_cut (n - length actions) st1 rest in
        (st2, ev1 ++ ev2)
      else for_each perform st (take n actions)
  end.

(** [#processPostSubscribe] as its caller sees it.  [interrupt] is [None]
    for a run that returns, and [Some n] for a run that throws after [n]
    actions, or after all of them when there are fewer ([Some 0] also stands
    for an exception in [#processData], before any action).  The boolean
    tells whether the run threw. *)
Definition processPostSubscribe_cut (interrupt : option nat) (st : Platform)
  : Platform * list Event * bool :=
  match interrupt with
  | None => (processPostSubscribe st, false)
  | Some n =>
      let '(devices, st) := processData uc config st in
      (register_devices_cut n st (obj_values devices), true)
  end.

(** ** Aggregation cycle ([#subscribeREST], src/unnamed/part_000) *)

(** What [response.json()] resolved to: [null], off which reading a property
    throws a [TypeError], or any other value, off which it gives the
    property or [undefined]. *)
Inductive Json (A : Type) :=
| JsonNull
| JsonValue (a : A).
#[global] Arguments JsonNull {A}.
#[global] Arguments JsonValue {A} a.

(** The decoded bodies of the two endpoints, when they are not [null]: what
    reading [.Inventory] or [.siteCurrentPowerFlow] off them yields. *)
Record InventoryPayload := {
  payload_Inventory : option Inventory.t
}.

Record PowerFlowPayload := {
  payload_siteCurrentPowerFlow : option Flow.t
}.

(** [tempObject] once [Promise.all] has settled: a key is present exactly
    when [fetchWrapper] and [response.json()] resolved for its url.  The two
    requests write different keys, so the order in which they settle does not
    show in the result. *)
Record TempObject := {
  inventory_json : option (Json InventoryPayload);
  currentPowerFlow_json : option (Json PowerFlowPayload)
}.

(** [Object.keys(tempObject).length] *)
Definition keys_length (tempObject : TempObject) : nat :=
  (match inventory_json tempObject with Some _ => 1 | None => 0 end
   + match currentPowerFlow_json tempObject with Some _ => 1 | None => 0 end)%nat.

(** [FETCHURLS.length] *)
Definition FETCHURLS_length : nat := 2.

(** A freshly decoded reading becomes a new object of the store. *)
Definition alloc_reading (h : heap) (v : option Flow.t) : option loc * heap :=
  match v with
  | Some pf => let l := fresh (dom h) in (Some l, <[l := pf]> h)
  | None => (None, h)
  end.

(** What one turn of [for (const site of data.sites.site)] meets: the site,
    what its two requests left in [tempObject], and how the call of
    [#processPostSubscribe] ends should the turn get that far. *)
Record Turn := {
  turn_site : Site.t;
  turn_temp : TempObject;
  turn_interrupt : option nat
}.

(** The body of the loop.  The object literal reads [.Inventory] and
    [.siteCurrentPowerFlow] before anything is assigned, so a [null] body
    throws with the cache untouched; an exception in
    [#processPostSubscribe] comes after the cache was written.  The boolean
    tells whether the turn threw. *)
Definition fetch_site (uuid : jsstring) (st : Platform) (turn : Turn)
  : Platform * list Event * bool :=
  let site := turn_site turn in
  let tempObject := turn_temp turn in
  if decide (keys_length tempObject = FETCHURLS_length) then
    match inventory_json tempObject, currentPowerFlow_json tempObject with
    | Some (JsonValue inventory), Some (JsonValue flow) =>
        let '(powerflow, h) :=
          alloc_reading (store st) (payload_siteCurrentPowerFlow flow) in
        let st :=
          {| store := h;
             connections := connections st;
             rawData :=
               <[Site.id site :=
                   {| Snapshot.connection := uuid;
                      Snapshot.site := site;
                      Snapshot.inventory := payload_Inventory inventory;
                      Snapshot.powerflow := powerflow |}]> (rawData st);
             trackedDevices := trackedDevices st;
             cachedAccessories := cachedAccessories st |} in
        let '(st, evs, thrown) :=
          processPostSubscribe_cut (turn_interrupt turn) st in
        (st, WriteRawData (Site.id site) :: evs, thrown)
    | Some _, Some _ => (st, [], true)
    | _, _ => (st, [], false)
    end
  else (st, [], false).

(** [#subscribeREST(uuid)].  [sites] is what the site list request gave:
    [None] when it threw, [Some None] when [data.sites.site] is not an
    array, and otherwise the turns of the loop over the sites.  The one
    [try] around all of it swallows an exception thrown inside the loop too,
    which ends the loop.  The boolean tells whether the method scheduled
    itself again. *)
Definition subscribeREST (uuid : jsstring)
    (sites : option (option (list Turn))) (st : Platform)
  : Platform * list Event * bool :=
  match connections st !! uuid with
  | Some c =>
      if authorised c then
        match sites with
        | Some (Some l) => (for_each_until (fetch_site uuid) st l, true)
        | _ => ((st, []), true)
        end
      else ((st, []), false)
  | None => ((st, []), false)
  end.
End Registry.

(** Both fetches of a site succeeded. *)
Definition both_succeeded (t : TempObject) : Prop :=
  is_Some (inventory_json t) /\ is_Some (currentPowerFlow_json t).

(** The records that led to [new SolarInverter(...)]. *)
Definition instantiated (evs : list Event) : list Device.t :=
  omap (fun e => match e with NewSolarInverter d => Some d | _ => None end) evs.

(** The first record with the given serial number. *)
Definition first_observation (serial : jsstring) (records : list Device.t)
  : option Device.t :=
  List.find (fun d => bool_decide (Device.serialNumber d = serial)) records.

(** A record as the registry may receive it, excluded or not. *)
Definition sample_record (excluded : bool) : Device.t :=
  {| Device.excluded := excluded;
     Device.serialNumber := str "7E12ABCD-34";
     Device.softwareVersion := str "4.15.123456";
     Device.model := str "SE5000H";
     Device.manufacturer := str "SolarEdge";
     Device.siteid := 42;
     Device.installationDate := str "2020-01-01";
     Device.description := str "Roof - Perth";
     Device.peakPower := 5000%Q;
     Device.powerflow := None;
     Device.online := true;
     Device.eveHistory := true |}.

Definition sample_generateUUID (serial : jsstring) : jsstring :=
  str "uuid-" ++ serial.

Definition sample_device_uuid (d : Device.t) : jsstring :=
  str "uuid-" ++ Device.serialNumber d.

(** Both decoded bodies are something else than [null]. *)
Definition decodes (t : TempObject) : bool :=
  match inventory_json t, currentPowerFlow_json t with
  | Some (JsonValue _), Some (JsonValue _) => true
  | _, _ => false
  end.

(** The turn throws: it gets past the test on the number of keys and then
    meets a [null] body, or a run of [#processPostSubscribe] that throws. *)
Definition throws (x : Turn) : bool :=
  bool_decide (both_succeeded (turn_temp x))
  && (negb (decodes (turn_temp x)) || bool_decide (is_Some (turn_interrupt x))).

(** The turns the loop gets to: all up to and including the first one that
    throws. *)
Fixpoint reached (l : list Turn) : list Turn :=
  match l with
  | [] => []
  | x :: rest => x :: (if throws x then [] else reached rest)
  end.

(** The turn writes the cache entry of the site [sid]: it is for that site
    and both decoded bodies are there and not [null]. *)
Definition writes (sid : Z) (x : Turn) : Prop :=
  Site.id (turn_site x) = sid /\ decodes (turn_temp x) = true.

#[global] Instance writes_dec sid x : Decision (writes sid x).
Proof. unfold writes. apply _. Defined.

(** The turn is for the site [sid] and both of its fetches succeeded. *)
Definition commits (sid : Z) (x : Turn) : Prop :=
  Site.id (turn_site x) = sid /\ both_succeeded (turn_temp x).

#[global] Instance commits_dec sid x : Decision (commits sid x).
Proof. unfold commits, both_succeeded. apply _. Defined.

(** The reference [pw] stored in a snapshot stands for the decoded reading
    [payload]. *)
Definition holds_reading (h : heap) (pw : option loc) (payload : option Flow.t) : Prop :=
  match payload with
  | Some v => exists l, pw = Some l /\ h !! l = Some v
  | None => pw = None
  end.

(** A site list for the sample installation: the first site answers both
    requests, the second one only the inventory request. *)
Definition second_site : Site.t :=
  {| Site.id := 43; Site.name := str "Shed"; Site.peakPower := 3%Q;
     Site.installationDate := str "2021-06-01"; Site.city := None |}.

Definition sample_fetches : list Turn :=
  [ {| turn_site := sample_site;
       turn_temp :=
         {| inventory_json :=
              Some (JsonValue
                      {| payload_Inventory :=
                           Some {| Inventory.inverters := Some [sample_inverter] |} |});
            currentPowerFlow_json :=
              Some (JsonValue {| payload_siteCurrentPowerFlow := Some sample_flow |}) |};
       turn_interrupt := None |};
    {| turn_site := second_site;
       turn_temp :=
         {| inventory_json :=
              Some (JsonValue
                      {| payload_Inventory :=
                           Some {| Inventory.inverters := Some [nameless_inverter] |} |});
            currentPowerFlow_json := None |};
       turn_interrupt := None |} ].

(** The update event of the sample site's inverter meets a listener that
    throws, after the accessory was built and tracked; the second site comes
    after it with both requests answered. *)
Definition interrupted_fetches : list Turn :=
  [ {| turn_site := sample_site;
       turn_temp :=
         {| inventory_json :=
              Some (JsonValue
                      {| payload_Inventory :=
                           Some {| Inventory.inverters := Some [sample_inverter] |} |});
            currentPowerFlow_json :=
              Some (JsonValue {| payload_siteCurrentPowerFlow := Some sample_flow |}) |};
       turn_interrupt := Some 2%nat |};
    {| turn_site := second_site;
       turn_temp :=
         {| inventory_json :=
              Some (JsonValue
                      {| payload_Inventory :=
                           Some {| Inventory.inverters := Some [nameless_inverter] |} |});
            currentPowerFlow_json :=
              Some (JsonValue {| payload_siteCurrentPowerFlow := Some sample_flow |}) |};
       turn_interrupt := None |} ].

(** The inventory request of the second site is answered with the body
    [null]; the sample site comes after it in the list. *)
Definition null_body_fetches : list Turn :=
  [ {| turn_site := second_site;
       turn_temp :=
         {| inventory_json := Some JsonNull;
            currentPowerFlow_json :=
              Some (JsonValue {| payload_siteCurrentPowerFlow := Some sample_flow |}) |};
       turn_interrupt := None |} ]
  ++ sample_fetches.

(** ** Accessory update ([updateDevice], src/unnamed/part_000) *)

Inductive ChargingState := NOT_CHARGING | CHARGING.

Inductive StatusLowBattery := BATTERY_LEVEL_NORMAL | BATTERY_LEVEL_LOW.

(** The calls made on the services of the accessory, in order:
    [updateCharacteristic] on the outlet ([On], [OutletInUse]), on the battery
    ([BatteryLevel], [ChargingState], [StatusLowBattery]) and on the light
    sensor, and the calls of the history service.  A number that is [NaN] or
    [undefined] is [None].  [AddHistory] leaves out the time stamp and the
    constant volts and amps; [UpdateEveHome] carries the value the method
    first copies into the accessory's own [deviceData]. *)
Inductive Update :=
| UpdateOn (v : bool)
| UpdateOutletInUse (v : bool)
| UpdateBatteryLevel (v : option Q)
| UpdateChargingState (v : ChargingState)
| UpdateStatusLowBattery (v : StatusLowBattery)
| UpdateCurrentAmbientLightLevel (v : option Q)
| AddHistory (status : Z) (watts : option Q)
| UpdateEveHome (watts : option Q).

Inductive Completion := Normal | TypeError.

(** The fields of a [SolarInverter] that [updateDevice] looks at: which
    services are set up, which functions the history service offers, and
    [this.deviceData.eveHistory]. *)
Record SolarInverter := {
  outletService : bool;
  batteryService : bool;
  lightService : bool;
  historyService_addHistory : bool;
  historyService_updateEveHome : bool;
  deviceData_eveHistory : bool
}.

(** [flow.from.toUpperCase() === 'LOAD' && flow.to.toUpperCase() === 'GRID'] *)
Definition exporting (flow : Edge.t) : bool :=
  bool_decide (toUpperCase (Edge.from flow) = str "LOAD")
  && bool_decide (toUpperCase (Edge.to flow) = str "GRID").

(** [flow.from.toUpperCase() === 'GRID' && flow.to.toUpperCase() === 'LOAD'] *)
Definition importing (flow : Edge.t) : bool :=
  bool_decide (toUpperCase (Edge.from flow) = str "GRID")
  && bool_decide (toUpperCase (Edge.to flow) = str "LOAD").

(** The body of [deviceData.powerflow.connections.forEach((flow) => ...)]. *)
Definition flow_updates (flow : Edge.t) : list Update :=
  (if exporting flow
   then [UpdateChargingState CHARGING; UpdateStatusLowBattery BATTERY_LEVEL_NORMAL]
   else [])
  ++ (if importing flow
      then [UpdateChargingState NOT_CHARGING; UpdateStatusLowBattery BATTERY_LEVEL_LOW]
      else []).

(** The reading a reference stands for. *)
Definition deref (h : heap) (pw : option loc) : option Flow.t :=
  match pw with
  | Some l => h !! l
  | None => None
  end.

Definition updateDevice (h : heap) (self : SolarInverter) (deviceData : Device.t)
  : list Update * Completion :=
  if negb (outletService self) || negb (batteryService self) then ([], Normal)
  else
    match deref h (Device.powerflow deviceData) with
    | None => ([], TypeError)
    | Some powerflow =>
        match Flow.PV powerflow with
        | None => ([], TypeError)
        | Some pv =>
            let currentPower := Node.currentPower pv in
            let generating :=
              match currentPower with
              | Some p => negb (Qeq_bool p 0)
              | None => true
              end
              || bool_decide (toUpperCase (Node.status pv) = str "ACTIVE") in
            let batteryLevel :=
              match currentPower with
              | Some p => Some (scaleValue p 0 (Device.peakPower deviceData) 0 100)
              | None => if Qeq_bool (Device.peakPower deviceData) 0 then Some 0%Q else None
              end in
            let battery :=
              [UpdateOn generating; UpdateOutletInUse generating;
               UpdateBatteryLevel batteryLevel; UpdateChargingState NOT_CHARGING]
              ++ flat_map flow_updates (default [] (Flow.connections powerflow)) in
            if negb (lightService self) then (battery, TypeError)
            else
              let light :=
                [UpdateCurrentAmbientLightLevel
                   (match currentPower with
                    | Some p => Some (if Qlt_le_dec p 0.0001 then 0.0001%Q else p)
                    | None => None
                    end)] in
              let history :=
                if historyService_addHistory self
                then [AddHistory (if generating then 1 else 0) currentPower]
                else [] in
              let eve :=
                if deviceData_eveHistory self && historyService_updateEveHome self
                then [UpdateEveHome currentPower]
                else [] in
              (battery ++ light ++ history ++ eve, Normal)
        end
    end.

(** The values written to [ChargingState] and to [StatusLowBattery], in
    order; the last one is the value the characteristic ends with. *)
Definition charging_writes (evs : list Update) : list ChargingState :=
  omap (fun e => match e with UpdateChargingState v => Some v | _ => None end) evs.

Definition low_battery_writes (evs : list Update) : list StatusLowBattery :=
  omap (fun e => match e with UpdateStatusLowBattery v => Some v | _ => None end) evs.

(** A fully set up accessory, and a record for the sample reading. *)
Definition sample_accessory : SolarInverter :=
  {| outletService := true; batteryService := true; lightService := true;
     historyService_addHistory := true; historyService_updateEveHome := true;
     deviceData_eveHistory := true |}.

Definition sample_update : Device.t :=
  {| Device.excluded := false;
     Device.serialNumber := str "7E12ABCD-34";
     Device.softwareVersion := str "4.15.123456";
     Device.model := str "SE5000H";
     Device.manufacturer := str "SolarEdge";
     Device.siteid := 42;
     Device.installationDate := str "2020-01-01";
     Device.description := str "Roof - Perth";
     Device.peakPower := 5000%Q;
     Device.powerflow := Some 1%positive;
     Device.online := true;
     Device.eveHistory := true |}.

(** A string that is empty or ends with a letter or a number. *)
Definition ends_clean (uc : UnicodeTables) (s : jsstring) : Prop :=
  match last s with
  | Some c => letter_or_number uc c = true
  | None => True
  end.

(** The sleeps of a schedule, and the time a trace spends sleeping. *)
Definition waits (st : list Step) : list Z :=
  omap (fun s => match s with Wait ms => Some ms | Attempt => None end) st.

Definition total_sleep (tr : list FetchEvent) : Z := foldr Z.add 0 (delays tr).

(** What every call of [fetch] made on behalf of one call of [fetchWrapper]
    is given: the url, the method, and an options object whose [retry] and
    [_retryCount] add up to [total]. *)
Definition call_invariant (url : jsstring) (m : Method) (total : Z) (e : FetchEvent)
  : Prop :=
  match e with
  | CallFetch url' o' =>
      url' = url /\ method o' = Some m
      /\ exists r c, retry o' = Some r /\ _retryCount o' = Some c
                     /\ 1 <= r /\ r + c = total
  | Sleep _ => True
  end.

(** An options object left behind by an earlier call: two retries used. *)
Definition reused_options : Options :=
  {| timeout := None; retry := Some 2; _retryCount := Some 2;
     signal := None; method := Some GET; body := None |}.

(** Which runs of the loop made an authorisation attempt. *)
Fixpoint reconnect_attempts (outcomes : list bool) (s : ReconnectState) : list bool :=
  match outcomes with
  | [] => []
  | o :: rest =>
      let '(s', _, attempted) := reconnectLoop o s in
      attempted :: reconnect_attempts rest s'
  end.

(** What holds of every entry [devices[serial] = record] that normalization
    produces. *)
Definition record_invariant (entry : jsstring * Device.t) : Prop :=
  Device.serialNumber entry.2 = entry.1
  /\ toUpperCase entry.1 = entry.1
  /\ Device.excluded entry.2 = false
  /\ Device.online entry.2 = true
  /\ 45%N ∉ Device.softwareVersion entry.2.

(** An update event is addressed to the identity the registry holds for the
    record's serial number, and the record is not excluded. *)
Definition update_addressed (tracked : gmap jsstring Tracked.t) (e : Event) : Prop :=
  match e with
  | EmitUpdate uuid d =>
      Device.excluded d = false /\ uuid <> []
      /\ exists t, tracked !! Device.serialNumber d = Some t /\ Tracked.uuid t = uuid
  | _ => True
  end.

(** The events by which the registry announces an exclusion. *)
Definition announces_exclusion (e : Event) : bool :=
  match e with
  | LogWarn _ | UnregisterPlatformAccessories _ => true
  | _ => false
  end.


(** The sample platform after it has seen the excluded sample record. *)
Definition tracking_platform : Platform :=
  (register_devices sample_generateUUID sample_device_uuid (sample_platform [])
     [sample_record true]).1.

(** The site ids written to the cache, in order. *)
Definition written (evs : list Event) : list Z :=
  omap (fun e => match e with WriteRawData sid => Some sid | _ => None end) evs.

(** Several aggregation cycles in a row, each for a connection and with what
    its requests gave. *)
Definition subscribe_cycles (uc : UnicodeTables) (config : Config)
    (generateUUID : jsstring -> jsstring) (device_uuid : Device.t -> jsstring)
    (st : Platform)
    (cycles : list (jsstring * option (option (list Turn))))
  : Platform * list Event :=
  for_each
    (fun st c => (subscribeREST uc config generateUUID device_uuid c.1 c.2 st).1)
    st cycles.

(** Every cache entry is stored under the id of its own site. *)
Definition keyed_by_site_id (st : Platform) : Prop :=
  map_Forall (fun sid data => Site.id (Snapshot.site data) = sid) (rawData st).

(** Nothing that the platform knew in [st] is lost in [st']: cached sites
    and tracked serial numbers stay, connections and the accessory cache are
    the same. *)
Definition never_forgets (st st' : Platform) : Prop :=
  dom (rawData st) ⊆ dom (rawData st')
  /\ trackedDevices st ⊆ trackedDevices st'
  /\ connections st' = connections st
  /\ cachedAccessories st' = cachedAccessories st.


(** A site for which the power flow request failed. *)
Definition failed_fetches : list Turn :=
  [ {| turn_site := second_site;
       turn_temp :=
         {| inventory_json :=
              Some (JsonValue
                      {| payload_Inventory :=
                           Some {| Inventory.inverters := Some [nameless_inverter] |} |});
            currentPowerFlow_json := None |};
       turn_interrupt := None |} ].

(** The platform as its constructor leaves it, with one connection that has
    been authorised: nothing cached, nothing tracked. *)
Definition fresh_platform : Platform :=
  {| store := ∅;
     connections := {[ str "c0ffee" := {| authorised := true; apiKey := str "key" |} ]};
     rawData := ∅;
     trackedDevices := ∅;
     cachedAccessories := [] |}.

(** * Properties *)

(** ** Sanitization *)

Section SanitizeFacts.
Variable uc : UnicodeTables.

Lemma strip_invalid_all s : Forall (fun c => name_char uc c = true) (strip_invalid uc s).
Proof.
  unfold strip_invalid. apply List.Forall_forall. intros c Hc.
  apply List.filter_In in Hc. tauto.
Qed.

Lemma strip_invalid_id s :
  Forall (fun c => name_char uc c = true) s -> strip_invalid uc s = s.
Proof.
  unfold strip_invalid. induction 1 as [|c r Hc _ IH]; simpl; [done|].
  by rewrite Hc, IH.
Qed.

Lemma trim_start_Forall (P : N -> Prop) s : Forall P s -> Forall P (trim_start uc s).
Proof.
  induction 1 as [|c r Hc Hr IH]; simpl; [constructor|].
  destruct (letter_or_number uc c); [by constructor | done].
Qed.

Lemma trim_end_Forall (P : N -> Prop) s : Forall P s -> Forall P (trim_end uc s).
Proof.
  induction 1 as [|c r Hc Hr IH]; simpl; [constructor|].
  destruct (trim_end uc r) as [|c' r'].
  - destruct (letter_or_number uc c); by repeat constructor.
  - by constructor.
Qed.

Lemma trim_start_clean s : starts_clean uc (trim_start uc s).
Proof.
  induction s as [|c r IH]; simpl; [done|].
  destruct (letter_or_number uc c) eqn:E; [exact E | exact IH].
Qed.

Lemma trim_start_id s : starts_clean uc s -> trim_start uc s = s.
Proof. destruct s as [|c r]; simpl; [done|]. by intros ->. Qed.

Lemma trim_end_clean s : starts_clean uc s -> starts_clean uc (trim_end uc s).
Proof.
  destruct s as [|c r]; simpl; [done|]. intros Hc.
  destruct (trim_end uc r); [by rewrite Hc | done].
Qed.

Lemma trim_end_idem s : trim_end uc (trim_end uc s) = trim_end uc s.
Proof.
  induction s as [|c r IH]; simpl; [done|].
  destruct (trim_end uc r) as [|c' r'] eqn:E.
  - destruct (letter_or_number uc c) eqn:Ec; simpl; [by rewrite Ec | done].
  - change (trim_end uc (c :: c' :: r')) with
      (match trim_end uc (c' :: r') with
       | [] => if letter_or_number uc c then [c] else []
       | x => c :: x end).
    by rewrite IH.
Qed.
End SanitizeFacts.

(** C9: [makeHomeKitName] is idempotent: sanitizing a sanitized name changes
    nothing, whatever the Unicode tables of the engine are. *)
Theorem makeHomeKitName_idempotent (uc : UnicodeTables) (s : jsstring) :
  makeHomeKitName uc (makeHomeKitName uc s) = makeHomeKitName uc s.
Proof.
  unfold makeHomeKitName.
  set (t := trim_end uc (trim_start uc (strip_invalid uc s))).
  assert (Hall : Forall (fun c => name_char uc c = true) t).
  { apply trim_end_Forall, trim_start_Forall, strip_invalid_all. }
  assert (Hclean : starts_clean uc t).
  { apply trim_end_clean, trim_start_clean. }
  rewrite (strip_invalid_id uc t Hall), (trim_start_id uc t Hclean).
  apply trim_end_idem.
Qed.

Example makeHomeKitName_sample :
  makeHomeKitName ascii_tables (str "  [Roof] Inverter #1 - Perth! ") = str "Roof Inverter 1 - Perth".
Proof. reflexivity. Qed.

(** ** Range scaling *)

(** Comparison of binary64 numbers, from its specification. *)
Lemma SFcompare_antisym (a b : spec_float) :
  SFcompare b a = option_map CompOpp (SFcompare a b).
Proof.
  destruct a as [sa|sa| |sa ma ea], b as [sb|sb| |sb mb eb]; cbn;
    try (by repeat match goal with s : bool |- _ => destruct s end).
  destruct sa, sb; cbn; try done.
  all: rewrite (Z.compare_antisym ea eb); destruct (ea ?= eb)%Z; cbn; try done.
  all: by rewrite ?CompOpp_involutive, ?Pos.compare_cont_antisym.
Qed.

Lemma SFcompare_refl (a : spec_float) :
  a <> S754_nan -> SFcompare a a = Some Eq.
Proof.
  destruct a as [s|s| |s m e]; cbn; try done; intros _.
  - by destruct s.
  - destruct s; rewrite Z.compare_refl, Pos.compare_cont_refl; done.
Qed.

Lemma SFcompare_defined (a b : spec_float) :
  a <> S754_nan -> b <> S754_nan -> is_Some (SFcompare a b).
Proof. destruct a, b; cbn; try done; intros _ _; by eexists. Qed.

Lemma SFcompare_Some (a b : spec_float) (c : comparison) :
  SFcompare a b = Some c -> a <> S754_nan /\ b <> S754_nan.
Proof. destruct a, b; cbn; try done; intros _; by split. Qed.

Lemma is_nan_false (x : float) :
  is_nan x = false <-> Prim2SF x <> S754_nan.
Proof.
  unfold is_nan. rewrite FloatAxioms.eqb_spec. unfold SFeqb. split.
  - intros H E. rewrite E in H. done.
  - intros H. by rewrite SFcompare_refl.
Qed.

Lemma leb_not_nan (a b : float) :
  (a <=? b)%float = true -> is_nan a = false /\ is_nan b = false.
Proof.
  rewrite FloatAxioms.leb_spec, !is_nan_false. unfold SFleb. intros H.
  destruct (SFcompare (Prim2SF a) (Prim2SF b)) as [c|] eqn:E; [|done].
  by apply (SFcompare_Some _ _ c).
Qed.

Lemma leb_refl (a : float) : is_nan a = false -> (a <=? a)%float = true.
Proof.
  rewrite FloatAxioms.leb_spec, is_nan_false. unfold SFleb. intros H.
  by rewrite SFcompare_refl.
Qed.

Lemma ltb_leb (a b : float) : (a <? b)%float = true -> (a <=? b)%float = true.
Proof.
  rewrite FloatAxioms.ltb_spec, FloatAxioms.leb_spec. unfold SFltb, SFleb.
  by destruct (SFcompare _ _) as [[]|].
Qed.

Lemma not_ltb_leb (a b : float) :
  is_nan a = false -> is_nan b = false ->
  (a <? b)%float = false -> (b <=? a)%float = true.
Proof.
  rewrite FloatAxioms.ltb_spec, FloatAxioms.leb_spec, !is_nan_false.
  unfold SFltb, SFleb. intros Ha Hb.
  rewrite (SFcompare_antisym (Prim2SF a) (Prim2SF b)).
  destruct (SFcompare_defined (Prim2SF a) (Prim2SF b) Ha Hb) as [c ->].
  by destruct c.
Qed.

(** [Math.min] and [Math.max] of two numbers return one of them, below
    (above) both. *)
Lemma Math_min_spec (a b : float) :
  is_nan a = false -> is_nan b = false ->
  (Binary64.Math_min a b = a \/ Binary64.Math_min a b = b)
  /\ (Binary64.Math_min a b <=? a)%float = true
  /\ (Binary64.Math_min a b <=? b)%float = true.
Proof.
  intros Ha Hb. unfold Binary64.Math_min. rewrite Ha, Hb. cbn [orb].
  destruct (a <? b)%float eqn:E1.
  { split; [by left|]. split; [by apply leb_refl | by apply ltb_leb]. }
  destruct (b <? a)%float eqn:E2.
  { split; [by right|]. split; [by apply ltb_leb | by apply leb_refl]. }
  pose proof (not_ltb_leb a b Ha Hb E1). pose proof (not_ltb_leb b a Hb Ha E2).
  destruct (get_sign a).
  - split; [by left|]. split; [by apply leb_refl | done].
  - split; [by right|]. split; [done | by apply leb_refl].
Qed.

Lemma Math_max_spec (a b : float) :
  is_nan a = false -> is_nan b = false ->
  (Binary64.Math_max a b = a \/ Binary64.Math_max a b = b)
  /\ (a <=? Binary64.Math_max a b)%float = true
  /\ (b <=? Binary64.Math_max a b)%float = true.
Proof.
  intros Ha Hb. unfold Binary64.Math_max. rewrite Ha, Hb. cbn [orb].
  destruct (b <? a)%float eqn:E1.
  { split; [by left|]. split; [by apply leb_refl | by apply ltb_leb]. }
  destruct (a <? b)%float eqn:E2.
  { split; [by right|]. split; [by apply ltb_leb | by apply leb_refl]. }
  pose proof (not_ltb_leb a b Ha Hb E2). pose proof (not_ltb_leb b a Hb Ha E1).
  destruct (get_sign a).
  - split; [by right|]. split; [done | by apply leb_refl].
  - split; [by left|]. split; [by apply leb_refl | done].
Qed.

(** C10: [scaleValue] on binary64 numbers.  For an ordered source range and
    a value that is not [NaN], the value is first clamped into the source
    range; when the source range has width zero the result is [targetMin]
    and nothing is divided; otherwise the result is the affine formula on
    the clamped value, every operation rounded.  No bound on the result is
    stated: rounding can carry it out of the target range. *)
Theorem scaleValue_clamps (value sourceMin sourceMax targetMin targetMax : float) :
  (sourceMin <=? sourceMax)%float = true ->
  is_nan value = false ->
  let clamped := Binary64.Math_max sourceMin (Binary64.Math_min sourceMax value) in
  ((sourceMin <=? clamped)%float = true /\ (clamped <=? sourceMax)%float = true)
  /\ ((sourceMax =? sourceMin)%float = true ->
      Binary64.scaleValue value sourceMin sourceMax targetMin targetMax = targetMin)
  /\ ((sourceMax =? sourceMin)%float = false ->
      Binary64.scaleValue value sourceMin sourceMax targetMin targetMax
      = ((clamped - sourceMin) * (targetMax - targetMin) / (sourceMax - sourceMin)
         + targetMin)%float).
Proof.
  intros Hr Hv clamped. split; [|split].
  - destruct (leb_not_nan sourceMin sourceMax Hr) as [Hlo Hhi].
    destruct (Math_min_spec sourceMax value Hhi Hv) as (Hm & Hm1 & _).
    assert (Hmn : is_nan (Binary64.Math_min sourceMax value) = false)
      by by destruct Hm as [-> | ->].
    destruct (Math_max_spec sourceMin _ Hlo Hmn) as (Hc & Hc1 & _).
    split; [done|]. subst clamped. by destruct Hc as [-> | ->].
  - intros E. unfold Binary64.scaleValue. by rewrite E.
  - intros E. unfold Binary64.scaleValue. by rewrite E.
Qed.

(** A reading of 3000 against a peak power of 5.27: the value is clamped to
    the peak, and the result is the rounded formula on it. *)
Lemma scaleValue_clamps_witness :
  ((0 <=? Binary64.peak_5_27)%float = true /\ is_nan 3000 = false)
  /\ Binary64.Math_max 0 (Binary64.Math_min Binary64.peak_5_27 3000)
     = Binary64.peak_5_27
  /\ Binary64.scaleValue 3000 0 Binary64.peak_5_27 0 100
     = ((Binary64.peak_5_27 - 0) * (100 - 0) / (Binary64.peak_5_27 - 0) + 0)%float.
Proof.
  split; [by vm_compute|]. split; [by vm_compute|].
  destruct (scaleValue_clamps 3000 0 Binary64.peak_5_27 0 100) as (_ & _ & H);
    [by vm_compute | by vm_compute |].
  rewrite H by by vm_compute. by vm_compute.
Defined.

(** The claim as it stands fails: with the ranges ordered, [0 <= 5.27] and
    [0 <= 100], the result for a reading at or above the peak is the double
    next above 100, outside the target range.  This is the battery level
    that [updateDevice] computes for a record with peak power 5.27 and a PV
    power at or above it. *)
Lemma scaleValue_exceeds_target :
  (0 <=? Binary64.peak_5_27)%float = true
  /\ (0 <=? 100)%float = true
  /\ Binary64.scaleValue 3000 0 Binary64.peak_5_27 0 100 = Binary64.above_100
  /\ (Binary64.scaleValue 3000 0 Binary64.peak_5_27 0 100 <=? 100)%float = false.
Proof. by vm_compute. Qed.

Example scaleValue_sample : Binary64.scaleValue 3500 0 5000 0 100 = 70%float.
Proof. by vm_compute. Qed.

Example scaleValue_clamps_above : Binary64.scaleValue 6000 0 5000 0 100 = 100%float.
Proof. by vm_compute. Qed.

Example scaleValue_zero_peak : Binary64.scaleValue 3500 0 0 0 100 = 0%float.
Proof. by vm_compute. Qed.

Example scaleValue_undefined : is_nan (Binary64.scaleValue nan 0 5000 0 100) = true.
Proof. by vm_compute. Qed.

(** Nor is the result always at or above [targetMin]: when the width of the
    target range overflows, a value at the lower end of the source range
    gives [0 * Infinity], which is [NaN]. *)
Example scaleValue_overflow :
  (- 0x1p+1023 <=? 0x1p+1023)%float = true
  /\ is_nan (Binary64.scaleValue 0 0 1 (- 0x1p+1023) 0x1p+1023) = true.
Proof. by vm_compute. Qed.

(** ** Authorisation backoff *)

Lemma spec_backoff_succ (k : nat) :
  spec_backoff (S k) = Z.min (spec_backoff k * 2) 60000.
Proof.
  unfold spec_backoff. rewrite Nat2Z.inj_succ, Z.pow_succ_r by lia.
  assert (0 < 2 ^ Z.of_nat k) by (apply Z.pow_pos_nonneg; lia). lia.
Qed.

Lemma reconnect_run_failures (n k : nat) (s : ReconnectState) :
  authorised (conn s) = false ->
  reconnectDelay s = spec_backoff k ->
  reconnect_run (repeat false n) s
  = map (fun i => spec_backoff (S (k + i))) (seq 0 n).
Proof.
  revert k s. induction n as [|n IH]; intros k s Ha Hd; [done|].
  simpl. unfold reconnectLoop. rewrite Ha. simpl.
  rewrite <- seq_shift, List.map_map.
  f_equal.
  - by rewrite Nat.add_0_r, spec_backoff_succ, Hd.
  - rewrite (IH (S k)); simpl; [|done|by rewrite spec_backoff_succ, Hd].
    apply List.map_ext. intros i. by rewrite Nat.add_succ_r.
Qed.

Lemma reconnect_run_app (l1 l2 : list bool) (s : ReconnectState) :
  reconnect_run (l1 ++ l2) s
  = reconnect_run l1 s ++ reconnect_run l2 (reconnect_state l1 s).
Proof.
  revert s. induction l1 as [|o l1 IH]; intros s; [done|].
  cbn [app reconnect_run]. unfold reconnect_state. cbn [foldl].
  destruct (reconnectLoop o s) as [[s' d] b] eqn:E.
  rewrite IH. done.
Qed.

(** C2 (as amended): the first authorisation attempt is made at once; after
    the k-th consecutive failure the next attempt is scheduled
    [min (15000 * 2^k) 60000] ms later, that is 30000, 60000, 60000, ...; a
    run that finds or makes the connection authorised schedules 15000 ms and
    puts [reconnectDelay] back to 15000. *)
Theorem reconnect_backoff (key : jsstring) (n : nat) (outcomes : list bool) :
  reconnect_run (repeat false n) (reconnect_init key)
  = map (fun i => Z.min (15000 * 2 ^ Z.of_nat (S i)) 60000) (seq 0 n)
  /\ last (reconnect_run (outcomes ++ [true]) (reconnect_init key)) = Some 15000
  /\ reconnectDelay (reconnect_state (outcomes ++ [true]) (reconnect_init key)) = 15000.
Proof.
  split; [|split].
  - by rewrite (reconnect_run_failures n 0).
  - rewrite reconnect_run_app. simpl.
    set (s := reconnect_state outcomes (reconnect_init key)).
    unfold reconnectLoop. destruct (authorised (conn s)); simpl; by rewrite last_snoc.
  - unfold reconnect_state. rewrite foldl_app. simpl.
    set (s := foldl _ _ outcomes).
    unfold reconnectLoop. by destruct (authorised (conn s)).
Qed.

(** C2 as stated fails on the code: the delays after four consecutive
    failures are 30000, 60000, 60000, 60000 and not 15000, 30000, 60000,
    60000. *)
Lemma reconnect_backoff_not_from_15000 :
  reconnect_run (repeat false 4) (reconnect_init (str "key"))
  = [30000; 60000; 60000; 60000]
  /\ map spec_backoff (seq 0 4) = [15000; 30000; 60000; 60000]
  /\ reconnect_run (repeat false 4) (reconnect_init (str "key"))
     <> map spec_backoff (seq 0 4).
Proof. repeat split. discriminate. Qed.

(** ** Retry schedule of [fetchWrapper] *)

Lemma backoff_schedule_step (c : Z) (a : nat) :
  (1 <= a)%nat ->
  Attempt :: Wait (500 * 2 ^ c) :: backoff_schedule (c + 1) a
  = backoff_schedule c (S a).
Proof.
  intros Ha. unfold backoff_schedule.
  replace (S a - 1)%nat with (S (a - 1)) by lia.
  cbn [seq flat_map app]. rewrite Z.add_0_r. do 2 f_equal.
  rewrite <- seq_shift. f_equal.
  generalize (seq 0 (a - 1)). intros l.
  induction l as [|i l IHl]; [done|].
  cbn [map flat_map app]. rewrite IHl.
  by replace (c + 1 + Z.of_nat i) with (c + Z.of_nat (S i)) by lia.
Qed.

Lemma fetchWrapper_schedule (b : nat) :
  forall net k m url o data,
    invalid_call m url = false ->
    Z.to_nat (budget o) = b ->
    let c := default 0 (_retryCount o) in
    exists a : nat,
      (1 <= a <= b)%nat
      /\ steps (fetchWrapper net k m url o data).2 = backoff_schedule c a
      /\ (forall i, (i < a - 1)%nat -> failed (net (k + i)%nat) = true)
      /\ ((a < b)%nat -> failed (net (k + (a - 1))%nat) = false)
      /\ result_matches net (k + (a - 1))%nat c a b (fetchWrapper net k m url o data).1.
Proof.
  induction b as [|b IH]; intros net k m url o data Hv Hb c.
  { unfold budget in Hb. destruct (retry o) as [r|]; [|lia].
    destruct (Z.ltb_spec r 1); lia. }
  assert (Hstop : forall res ev,
    failed (net k) = (match res with Returns _ => false | _ => true end) ->
    (match res with Returns _ => True | _ => ~ 1 < budget o end) ->
    result_matches net k c 1 (S b) res ->
    exists a : nat,
      (1 <= a <= S b)%nat
      /\ steps (res, [CallFetch url ev]).2 = backoff_schedule c a
      /\ (forall i, (i < a - 1)%nat -> failed (net (k + i)%nat) = true)
      /\ ((a < S b)%nat -> failed (net (k + (a - 1))%nat) = false)
      /\ result_matches net (k + (a - 1))%nat c a (S b) (res, [CallFetch url ev]).1).
  { intros res ev Hf Hbud Hres. exists 1%nat. simpl. rewrite Nat.add_0_r.
    repeat split; try lia; try done.
    intros Hlt. destruct res; try done; lia. }
  assert (Hgo : 1 < budget o ->
    failed (net k) = true ->
    exists a : nat,
      (1 <= a <= S b)%nat
      /\ steps (let '(res, tr) :=
                  fetchWrapper net (S k) m url (consume_retry (prepare m data o)) data in
                (res, CallFetch url (prepare m data o)
                      :: Sleep (backoff_delay (consume_retry (prepare m data o))) :: tr)).2
         = backoff_schedule c a
      /\ (forall i, (i < a - 1)%nat -> failed (net (k + i)%nat) = true)
      /\ ((a < S b)%nat -> failed (net (k + (a - 1))%nat) = false)
      /\ result_matches net (k + (a - 1))%nat c a (S b)
           (let '(res, tr) :=
              fetchWrapper net (S k) m url (consume_retry (prepare m data o)) data in
            (res, CallFetch url (prepare m data o)
                  :: Sleep (backoff_delay (consume_retry (prepare m data o))) :: tr)).1).
  { intros Hbud Hfail.
    set (o' := consume_retry (prepare m data o)).
    assert (Hb' : Z.to_nat (budget o') = b).
    { unfold o', consume_retry, prepare, budget in *; simpl.
      destruct (retry o) as [r|]; simpl in *; [|lia].
      destruct (Z.ltb_spec r 1); [lia|]; simpl.
      destruct (Z.ltb_spec (r - 1) 1); lia. }
    assert (Hc' : default 0 (_retryCount o') = c + 1) by done.
    assert (Hd : backoff_delay o' = 500 * 2 ^ c).
    { unfold backoff_delay. rewrite Hc'. by replace (c + 1 - 1) with c by lia. }
    destruct (IH net (S k) m url o' data Hv Hb') as (a & Ha & Hst & Hfl & Hlast & Hres).
    rewrite Hc' in Hst, Hres.
    destruct (fetchWrapper net (S k) m url o' data) as [res tr]. simpl in *.
    exists (S a). replace (S a - 1)%nat with a by lia.
    replace (k + a)%nat with (S (k + (a - 1)))%nat by lia.
    repeat split; try lia.
    - rewrite Hd, Hst. apply backoff_schedule_step. lia.
    - intros [|i] Hi; [by rewrite Nat.add_0_r|].
      replace (k + S i)%nat with (S k + i)%nat by lia. apply Hfl. lia.
    - intros Hlt. apply Hlast. lia.
    - destruct res; simpl in *; try done.
      + destruct Hres as (? & ? & ?). repeat split; try done; lia.
      + destruct Hres as (? & ?). split; [lia | done]. }
  simp fetchWrapper. rewrite Hv. simpl.
  destruct (net k) as [|r] eqn:Enet; simpl.
  - destruct (Z_lt_dec 1 (budget o)) as [Hlt|Hge]; simpl.
    + by apply Hgo.
    + apply (Hstop (ThrowsFetchFailed (default 0 (_retryCount (prepare m data o)) + 1))
               (prepare m data o)); [done | done |].
      simpl. repeat split; try done. lia.
  - destruct (ok r) eqn:Eok; simpl.
    + apply (Hstop (Returns r) (prepare m data o)); [by simpl; rewrite Eok | done | done].
    + destruct (Z_lt_dec 1 (budget o)) as [Hlt|Hge]; simpl.
      * apply Hgo; [done | by simpl; rewrite Eok].
      * apply (Hstop (ThrowsHttpStatus (status r)) (prepare m data o));
          [by simpl; rewrite Eok | done |].
        simpl. split; [lia | by exists r].
Qed.

Lemma backoff_schedule_lookup (a : nat) :
  forall (c : Z) (i : nat),
    (i < a - 1)%nat ->
    backoff_schedule c a !! (2 * i)%nat = Some Attempt
    /\ backoff_schedule c a !! (2 * i + 1)%nat = Some (Wait (500 * 2 ^ (c + Z.of_nat i))).
Proof.
  induction a as [|a IH]; intros c i Hi; [lia|].
  destruct a as [|a]; [lia|].
  rewrite <- (backoff_schedule_step c (S a)) by lia.
  destruct i as [|i].
  - simpl. by rewrite Z.add_0_r.
  - replace (2 * S i)%nat with (S (S (2 * i))) by lia.
    replace (S (S (2 * i)) + 1)%nat with (S (S (2 * i + 1))) by lia.
    destruct (IH (c + 1) i) as [H1 H2]; [lia|].
    split; [exact H1|]. etrans; [exact H2|].
    by replace (c + 1 + Z.of_nat i) with (c + Z.of_nat (S i)) by lia.
Qed.

(** C5: a call of [fetchWrapper] with a fresh options object (one that has
    not been through a retry yet) and retry budget [maxRetries >= 1], the
    value of [options.retry], makes between 1 and [maxRetries] attempts; it
    goes on to the next attempt exactly while attempts fail (by rejection or
    by a response that is not ok) and budget is left, and it sleeps
    [500 * 2^(attempt-1)] ms between attempt number [attempt] and the next
    one.  The result is the first successful response, or the error of the
    last attempt once the budget is used up. *)
Theorem fetchWrapper_backoff (net : nat -> FetchOutcome) (m : Method)
    (url : jsstring) (o : Options) (data : option jsstring) (maxRetries : Z) :
  invalid_call m url = false ->
  retry o = Some maxRetries ->
  1 <= maxRetries ->
  _retryCount o = None ->
  exists a : nat,
    (1 <= a)%nat /\ Z.of_nat a <= maxRetries
    /\ attempts (fetchWrapper net 0 m url o data).2 = a
    /\ steps (fetchWrapper net 0 m url o data).2 = backoff_schedule 0 a
    /\ (forall attempt : nat, (1 <= attempt < a)%nat ->
          failed (net (attempt - 1)%nat) = true
          /\ steps (fetchWrapper net 0 m url o data).2 !! (2 * attempt - 1)%nat
             = Some (Wait (500 * 2 ^ (Z.of_nat attempt - 1))))
    /\ (Z.of_nat a < maxRetries -> failed (net (a - 1)%nat) = false)
    /\ result_matches net (a - 1)%nat 0 a (Z.to_nat maxRetries)
         (fetchWrapper net 0 m url o data).1.
Proof.
  intros Hv Hr Hn Hc.
  assert (Hb : budget o = maxRetries).
  { unfold budget. rewrite Hr. destruct (Z.ltb_spec maxRetries 1); lia. }
  destruct (fetchWrapper_schedule (Z.to_nat maxRetries) net 0%nat m url o data Hv)
    as (a & Ha & Hst & Hfl & Hlast & Hres); [by rewrite Hb|].
  rewrite Hc in Hst, Hres. simpl in Hst, Hres, Hfl, Hlast.
  exists a. repeat split; try lia; try done.
  - unfold attempts. rewrite <- (length_map (fun e => match e with
      CallFetch _ _ => Attempt | Sleep ms => Wait ms end)).
    clear -Hst Ha. unfold steps in Hst.
    set (tr := (fetchWrapper net 0 m url o data).2) in *. clearbody tr.
    assert (Hlen : forall l, length (List.filter (fun s => match s with Attempt => true | _ => false end) (map (fun e => match e with
      CallFetch _ _ => Attempt | Sleep ms => Wait ms end) l))
      = length (map (fun e : FetchEvent => match e with
      CallFetch _ _ => Attempt | Sleep ms => Wait ms end) (List.filter (fun e => match e with CallFetch _ _ => true | _ => false end) l))).
    { induction l as [|[] l IHl]; simpl; [done| |done]. by rewrite IHl. }
    rewrite <- Hlen, Hst. destruct Ha as [Ha _]. clear -Ha.
    destruct a as [|a]; [lia|]. clear Ha. generalize 0.
    induction a as [|a IHa]; intros c; [done|].
    rewrite <- backoff_schedule_step by lia. simpl. f_equal. apply IHa.
  - apply Hfl. lia.
  - rewrite Hst. destruct (backoff_schedule_lookup a 0 (attempt - 1)) as [_ H2]; [lia|].
    replace (2 * attempt - 1)%nat with (2 * (attempt - 1) + 1)%nat by lia.
    rewrite H2. do 4 f_equal. lia.
  - intros Hlt. apply Hlast. lia.
Qed.

Lemma fetchWrapper_backoff_witness :
  exists a : nat,
    (1 <= a)%nat /\ Z.of_nat a <= 3
    /\ attempts (fetchWrapper flaky_net 0 GET (str "https://x") three_tries None).2 = a
    /\ steps (fetchWrapper flaky_net 0 GET (str "https://x") three_tries None).2
       = backoff_schedule 0 a
    /\ (forall attempt : nat, (1 <= attempt < a)%nat ->
          failed (flaky_net (attempt - 1)%nat) = true
          /\ steps (fetchWrapper flaky_net 0 GET (str "https://x") three_tries None).2
               !! (2 * attempt - 1)%nat
             = Some (Wait (500 * 2 ^ (Z.of_nat attempt - 1))))
    /\ (Z.of_nat a < 3 -> failed (flaky_net (a - 1)%nat) = false)
    /\ result_matches flaky_net (a - 1)%nat 0 a (Z.to_nat 3)
         (fetchWrapper flaky_net 0 GET (str "https://x") three_tries None).1.
Proof.
  apply (fetchWrapper_backoff flaky_net GET (str "https://x") three_tries None 3);
    [reflexivity | reflexivity | lia | reflexivity].
Defined.

Example fetchWrapper_sample :
  steps (fetchWrapper flaky_net 0 GET (str "https://x") three_tries None).2
  = [Attempt; Wait 500; Attempt; Wait 1000; Attempt]
  /\ (fetchWrapper flaky_net 0 GET (str "https://x") three_tries None).1
     = Returns {| ok := true; status := 200 |}.
Proof. by simp fetchWrapper. Qed.

(** The options the platform passes, [{ timeout: 30000 }], leave the budget
    at 1: one attempt and no sleep. *)
Example fetchWrapper_single_attempt :
  fetchWrapper (fun _ => Rejects) 0 GET (str "https://x")
    {| timeout := Some 30000; retry := None; _retryCount := None;
       signal := None; method := None; body := None |} None
  = (ThrowsFetchFailed 1,
     [CallFetch (str "https://x")
        {| timeout := Some 30000; retry := Some 1; _retryCount := Some 0;
           signal := Some 30000; method := Some GET; body := None |}]).
Proof. by simp fetchWrapper. Qed.

Example fetchWrapper_exhausted :
  steps (fetchWrapper (fun _ => Rejects) 0 GET (str "https://x") three_tries None).2
  = [Attempt; Wait 500; Attempt; Wait 1000; Attempt]
  /\ (fetchWrapper (fun _ => Rejects) 0 GET (str "https://x") three_tries None).1
     = ThrowsFetchFailed 3.
Proof. by simp fetchWrapper. Qed.

(** ** Normalization *)

Lemma obj_get_set {V} (k k' : jsstring) (v : V) (o : list (jsstring * V)) :
  obj_get k (obj_set k' v o) = if decide (k = k') then Some v else obj_get k o.
Proof.
  induction o as [|[k0 v0] o IH]; simpl.
  - by destruct (decide (k = k')).
  - destruct (decide (k' = k0)) as [->|Hne]; simpl.
    + by destruct (decide (k = k0)).
    + destruct (decide (k = k0)) as [->|Hk].
      * by rewrite decide_False by congruence.
      * exact IH.
Qed.

Lemma Object_values_elem {V} (o : gmap Z V) (v : V) :
  v ∈ Object_values o <-> exists k, o !! k = Some v.
Proof.
  unfold Object_values. rewrite list_elem_of_fmap. split.
  - intros [[k v'] [-> Hin]]. exists k.
    rewrite merge_sort_Permutation in Hin. by apply elem_of_map_to_list.
  - intros [k Hk]. exists (k, v). split; [done|].
    rewrite merge_sort_Permutation. by apply elem_of_map_to_list.
Qed.

Lemma structuredClone_spec (h : heap) (src pw : option loc) (h1 : heap) :
  structuredClone h src = (pw, h1) ->
  h ⊆ h1
  /\ (pw = None -> h1 = h)
  /\ (forall l', pw = Some l' ->
        h !! l' = None /\ exists l0 pf, src = Some l0 /\ h !! l0 = Some pf /\ h1 = <[l' := pf]> h)
  /\ (forall l0 pf, src = Some l0 -> h !! l0 = Some pf -> is_Some pw).
Proof.
  unfold structuredClone. intros H.
  destruct src as [l0|]; [destruct (h !! l0) as [pf|] eqn:E|]; simplify_eq.
  - assert (Hf : h !! fresh (dom h) = None).
    { apply not_elem_of_dom, is_fresh. }
    split; [by apply insert_subseteq|]. split; [done|]. split.
    + intros l1 [= <-]. split; [done|]. by exists l0, pf.
    + by intros.
  - split; [done|]. split; [done|]. split; [done|].
    intros l1 pf H1 H2. simplify_eq.
  - split; [done|]. split; [done|]. split; done.
Qed.

Lemma scale_key_at (m : Q) (l : loc) (pf : Flow.t) (h : heap) (key : FlowKey) :
  h !! l = Some pf ->
  scale_key m (Some l) h key = <[l := scale_flow_key m key pf]> h.
Proof.
  intros Hl. unfold scale_key, scale_flow_key. rewrite Hl.
  destruct (flow_get key pf) as [nd|]; [destruct (Node.currentPower nd)|]; try done.
  all: by rewrite insert_id.
Qed.

Lemma scale_flow_keys (m : Q) (pf : Flow.t) :
  scale_flow_key m KLOAD (scale_flow_key m KPV (scale_flow_key m KGRID pf))
  = scale_flow m pf.
Proof.
  destruct pf as [u g p ld c].
  destruct g as [[[?|] ?]|], p as [[[?|] ?]|], ld as [[[?|] ?]|]; reflexivity.
Qed.

Lemma scale_keys_fold (m : Q) (l : loc) (keys : list FlowKey) :
  forall (pf : Flow.t) (h : heap),
    h !! l = Some pf ->
    foldl (scale_key m (Some l)) h keys
    = <[l := foldl (fun f key => scale_flow_key m key f) pf keys]> h.
Proof.
  induction keys as [|key keys IH]; intros pf h Hl; cbn [foldl].
  - by rewrite insert_id.
  - rewrite (scale_key_at m l pf h key Hl).
    rewrite (IH (scale_flow_key m key pf)) by apply lookup_insert_eq.
    by rewrite insert_insert_eq.
Qed.

Lemma scale_keys_at (m : Q) (l : loc) (pf : Flow.t) (h : heap) :
  h !! l = Some pf ->
  foldl (scale_key m (Some l)) h [KGRID; KPV; KLOAD] = <[l := scale_flow m pf]> h.
Proof.
  intros Hl. rewrite (scale_keys_fold m l _ pf h Hl). cbn [foldl].
  by rewrite scale_flow_keys.
Qed.

Lemma normalized_mono (h0 h1 h2 h3 : heap) data m pw :
  h0 ⊆ h1 -> h2 ⊆ h3 -> normalized h1 h2 data m pw -> normalized h0 h3 data m pw.
Proof.
  unfold normalized. intros H01 H23 Hn.
  destruct (Snapshot.powerflow data) as [l0|]; [|done].
  destruct (h0 !! l0) as [pf|] eqn:E; [|done].
  rewrite (lookup_weaken _ _ _ _ E H01) in Hn.
  destruct Hn as (Hm & l' & Hpw & Hnone & Hsome). split; [done|].
  exists l'. repeat split; [done| |by eapply lookup_weaken].
  destruct (h0 !! l') eqn:E'; [|done].
  by rewrite (lookup_weaken _ _ _ _ E' H01) in Hnone.
Qed.

Section NormalizerFacts.
Variable uc : UnicodeTables.
Variable config : Config.

Lemma derive_fold (f : Inverter.t -> Device.t) (inverters : list Inverter.t) :
  forall devices serial d,
    obj_get serial
      (foldl (fun ds inverter => obj_set (toUpperCase (Inverter.SN inverter)) (f inverter) ds)
             devices inverters) = Some d ->
    obj_get serial devices = Some d
    \/ exists inverter, inverter ∈ inverters
         /\ serial = toUpperCase (Inverter.SN inverter) /\ d = f inverter.
Proof.
  induction inverters as [|i inverters IH]; intros devices serial d H; [by left|].
  simpl in H. apply IH in H as [H|(i' & Hin & Hs & Hd)].
  - rewrite obj_get_set in H. destruct (decide _) as [->|]; [|by left].
    right. exists i. split; [by left|]. split; congruence.
  - right. exists i'. split; [by right | done].
Qed.

Lemma process_site_spec (h h' : heap) devices devices' (data : Snapshot.t) :
  process_site uc config (h, devices) data = (h', devices') ->
  h ⊆ h'
  /\ exists m pw,
      normalized h h' data m pw
      /\ devices' =
         match Snapshot.inventory data ≫= Inventory.inverters with
         | Some inverters =>
             foldl (fun ds inverter =>
                      obj_set (toUpperCase (Inverter.SN inverter))
                        (derive_device uc config data m pw inverter) ds)
                   devices inverters
         | None => devices
         end.
Proof.
  unfold process_site.
  destruct (structuredClone h (Snapshot.powerflow data)) as [pw h1] eqn:Ec.
  intros [= <- <-].
  destruct (structuredClone_spec _ _ _ _ Ec) as (Hsub & Hnone & Hsome & Hdef).
  destruct pw as [l'|].
  - destruct (Hsome l' eq_refl) as (Hfresh & l0 & pf & Hsrc & Hl0 & ->).
    assert (Hm : read_unit (<[l' := pf]> h) (Some l') = Flow.unit pf).
    { unfold read_unit. by rewrite lookup_insert_eq. }
    pose proof (scale_keys_at (unitMultiplier (Flow.unit pf)) l' pf
                  (<[l' := pf]> h) (lookup_insert_eq _ _ _)) as Hs.
    cbn [foldl] in Hs. rewrite Hm, Hs.
    rewrite insert_insert_eq. split; [by apply insert_subseteq|].
    exists (unitMultiplier (Flow.unit pf)), (Some l'). split; [|done].
    unfold normalized. rewrite Hsrc, Hl0. split; [done|].
    exists l'. by rewrite lookup_insert_eq.
  - rewrite (Hnone eq_refl). simpl. split; [done|].
    exists 1000%Q, None. split; [|done].
    unfold normalized. destruct (Snapshot.powerflow data) as [l0|] eqn:Es; [|done].
    destruct (h !! l0) as [pf|] eqn:El; [|done].
    by destruct (Hdef l0 pf eq_refl El).
Qed.

Lemma process_sites_spec (sites : list Snapshot.t) :
  forall (h h' : heap) devices devices',
    foldl (process_site uc config) (h, devices) sites = (h', devices') ->
    h ⊆ h'
    /\ forall serial d,
        obj_get serial devices' = Some d ->
        obj_get serial devices = Some d
        \/ exists data inverters inverter m pw,
             data ∈ sites
             /\ Snapshot.inventory data ≫= Inventory.inverters = Some inverters
             /\ inverter ∈ inverters
             /\ serial = toUpperCase (Inverter.SN inverter)
             /\ d = derive_device uc config data m pw inverter
             /\ normalized h h' data m pw.
Proof.
  induction sites as [|data sites IH]; intros h h' devices devices' H.
  { simpl in H. simplify_eq. split; [done | by left]. }
  cbn [foldl] in H.
  destruct (process_site uc config (h, devices) data) as [h1 devices1] eqn:E1.
  destruct (process_site_spec _ _ _ _ _ E1) as (Hsub1 & m & pw & Hn & Hd1).
  destruct (IH _ _ _ _ H) as (Hsub & Hrest).
  split; [by etrans|].
  intros serial d Hget. destruct (Hrest serial d Hget) as [Hin|Hin].
  - rewrite Hd1 in Hin.
    destruct (Snapshot.inventory data ≫= Inventory.inverters) as [inverters|] eqn:Ei;
      [|by left].
    apply derive_fold in Hin as [Hin|(i & Hi & Hs & Hd)]; [by left|].
    right. exists data, inverters, i, m, pw.
    repeat split; try done; [by left|].
    by apply (normalized_mono h h h1 h').
  - destruct Hin as (data' & inverters & i & m' & pw' & Hin & Hi & Hii & Hs & Hd & Hn').
    right. exists data', inverters, i, m', pw'.
    repeat split; try done; [by right|].
    by apply (normalized_mono h h1 h' h').
Qed.
End NormalizerFacts.

Lemma well_formed_lookup (st : Platform) sid data l0 :
  well_formed st ->
  rawData st !! sid = Some data ->
  Snapshot.powerflow data = Some l0 ->
  is_Some (store st !! l0).
Proof.
  intros Hwf Hsid Hl0. specialize (Hwf sid data Hsid).
  unfold reading_present in Hwf. by rewrite Hl0 in Hwf.
Qed.

Section NormalizerTheorems.
Variable uc : UnicodeTables.
Variable config : Config.

Lemma processData_spec (st : Platform) :
  well_formed st ->
  rawData (processData uc config st).2 = rawData st
  /\ store st ⊆ store (processData uc config st).2
  /\ forall serial d,
      obj_get serial (processData uc config st).1 = Some d ->
      exists sid data inverters inverter m,
        rawData st !! sid = Some data
        /\ Snapshot.inventory data ≫= Inventory.inverters = Some inverters
        /\ inverter ∈ inverters
        /\ serial = toUpperCase (Inverter.SN inverter)
        /\ m = unitMultiplier (read_unit (store st) (Snapshot.powerflow data))
        /\ d = derive_device uc config data m (Device.powerflow d) inverter
        /\ match Snapshot.powerflow data with
           | Some l0 =>
               exists pf l',
                 store st !! l0 = Some pf
                 /\ Device.powerflow d = Some l'
                 /\ store st !! l' = None
                 /\ store (processData uc config st).2 !! l' = Some (scale_flow m pf)
           | None => Device.powerflow d = None
           end.
Proof.
  intros Hwf. unfold processData.
  destruct (foldl (process_site uc config) (store st, []) (Object_values (rawData st)))
    as [h' devices] eqn:E.
  destruct (process_sites_spec uc config _ _ _ _ _ E) as (Hsub & Hdev).
  cbn [fst snd rawData store].
  split; [done|]. split; [done|].
  intros serial d Hget. destruct (Hdev serial d Hget) as [Hin|Hin]; [done|].
  destruct Hin as (data & inverters & i & m & pw & Hin & Hi & Hii & Hs & Hd & Hn).
  apply Object_values_elem in Hin as [sid Hsid].
  exists sid, data, inverters, i, m.
  assert (Hpw : Device.powerflow d = pw) by by rewrite Hd.
  rewrite Hpw. unfold normalized, read_unit in *.
  destruct (Snapshot.powerflow data) as [l0|] eqn:El0.
  - destruct (well_formed_lookup st sid data l0 Hwf Hsid El0) as [pf Hpf]. rewrite Hpf in *.
    destruct Hn as (Hm & l' & -> & Hnone & Hsome).
    repeat split; try done. by exists pf, l'.
  - by destruct Hn as [-> ->].
Qed.
(** One pass over the cached sites keeps any property of the device mapping
    that assigning a derived record keeps. *)
Lemma process_sites_preserve (P : list (jsstring * Device.t) -> Prop) :
  (forall data m pw inverter devices,
      P devices ->
      P (obj_set (toUpperCase (Inverter.SN inverter))
           (derive_device uc config data m pw inverter) devices)) ->
  forall (sites : list Snapshot.t) (h h' : heap) devices devices',
    foldl (process_site uc config) (h, devices) sites = (h', devices') ->
    P devices -> P devices'.
Proof.
  intros Hstep sites. induction sites as [|data sites IH]; intros h h' devices devices' H HP.
  { cbn in H. by simplify_eq. }
  cbn [foldl] in H.
  destruct (process_site uc config (h, devices) data) as [h1 devices1] eqn:E1.
  apply (IH _ _ _ _ H).
  destruct (process_site_spec uc config _ _ _ _ _ E1) as (_ & m & pw & _ & ->).
  destruct (Snapshot.inventory data ≫= Inventory.inverters) as [inverters|]; [|done].
  clear -Hstep HP. revert devices HP.
  induction inverters as [|i inverters IHi]; intros devices HP; [done|].
  cbn [foldl]. apply IHi, Hstep, HP.
Qed.
(** No inverter of a cached site is left without a record. *)
Lemma processData_covers (st : Platform) (sid : Z) (data : Snapshot.t)
    (inverters : list Inverter.t) (inverter : Inverter.t) :
  rawData st !! sid = Some data ->
  Snapshot.inventory data ≫= Inventory.inverters = Some inverters ->
  inverter ∈ inverters ->
  is_Some (obj_get (toUpperCase (Inverter.SN inverter)) (processData uc config st).1).
Proof.
  intros Hsid Hinv Hin. unfold processData.
  destruct (foldl (process_site uc config) (store st, []) (Object_values (rawData st)))
    as [h' devices] eqn:E. cbn [fst].
  set (key := toUpperCase (Inverter.SN inverter)).
  assert (Hdata : data ∈ Object_values (rawData st)).
  { apply Object_values_elem. by exists sid. }
  revert E Hdata. generalize (Object_values (rawData st)) (store st)
    (@nil (jsstring * Device.t)).
  intros sites. induction sites as [|d sites IH]; intros h devs E Hd.
  { by apply elem_of_nil in Hd. }
  cbn [foldl] in E.
  destruct (process_site uc config (h, devs) d) as [h1 devs1] eqn:E1.
  apply elem_of_cons in Hd as [<-|Hd]; [|by apply (IH h1 devs1)].
  assert (H1 : is_Some (obj_get key devs1)).
  { destruct (process_site_spec uc config _ _ _ _ _ E1) as (_ & m & pw & _ & ->).
    rewrite Hinv. clear -Hin. revert devs.
    induction Hin as [i l|i i' l Hin IHin]; intros devs; cbn [foldl].
    - assert (H0 : is_Some (obj_get key
                (obj_set (toUpperCase (Inverter.SN i))
                   (derive_device uc config data m pw i) devs))).
      { rewrite obj_get_set, decide_True by done. by eexists. }
      revert H0. generalize (obj_set (toUpperCase (Inverter.SN i))
                               (derive_device uc config data m pw i) devs).
      induction l as [|j l IHl]; intros ds Hds; [done|].
      cbn [foldl]. apply IHl. rewrite obj_get_set. by case_decide.
    - apply IHin. }
  apply (process_sites_preserve (fun ds => is_Some (obj_get key ds))) in E;
    [done| |done].
  intros d' m pw i ds Hds. rewrite obj_get_set. by case_decide.
Qed.
End NormalizerTheorems.

(** C1: [#processData] leaves the raw snapshot cache as it found it.  The
    cache itself and every object of the store that existed before the call
    are unchanged; the reading put into a device record is a new object (a
    clone) holding the raw reading with [currentPower] of each flow node
    multiplied exactly once; and a second run on the resulting platform reads
    the same raw readings again, so nothing is multiplied twice. *)
Theorem processData_pure (uc : UnicodeTables) (config : Config) (st : Platform) :
  well_formed st ->
  let st1 := (processData uc config st).2 in
  let st2 := (processData uc config st1).2 in
  rawData st1 = rawData st
  /\ rawData st2 = rawData st
  /\ (forall sid data l0,
        rawData st !! sid = Some data -> Snapshot.powerflow data = Some l0 ->
        store st1 !! l0 = store st !! l0 /\ store st2 !! l0 = store st !! l0)
  /\ (forall (run : Platform) serial d,
        (run = st \/ run = st1) ->
        obj_get serial (processData uc config run).1 = Some d ->
        exists sid data,
          rawData st !! sid = Some data
          /\ Device.siteid d = Site.id (Snapshot.site data)
          /\ match Snapshot.powerflow data with
             | Some l0 =>
                 exists pf l',
                   store st !! l0 = Some pf
                   /\ Device.powerflow d = Some l'
                   /\ store run !! l' = None
                   /\ store (processData uc config run).2 !! l'
                      = Some (scale_flow (unitMultiplier (Flow.unit pf)) pf)
             | None => Device.powerflow d = None
             end).
Proof.
  intros Hwf st1 st2.
  destruct (processData_spec uc config st Hwf) as (Hr1 & Hs1 & Hd1).
  fold st1 in Hr1, Hs1, Hd1.
  assert (Hwf1 : well_formed st1).
  { intros sid data Hsid. rewrite Hr1 in Hsid.
    specialize (Hwf sid data Hsid). unfold reading_present in *.
    destruct (Snapshot.powerflow data) as [l0|]; [|done].
    destruct Hwf as [pf Hpf]. exists pf. by eapply lookup_weaken. }
  destruct (processData_spec uc config st1 Hwf1) as (Hr2 & Hs2 & Hd2).
  fold st2 in Hr2, Hs2, Hd2.
  split; [done|]. split; [congruence|]. split.
  - intros sid data l0 Hsid Hl0.
    destruct (well_formed_lookup st sid data l0 Hwf Hsid Hl0) as [pf Hpf]. rewrite Hpf.
    split; [by eapply lookup_weaken|].
    eapply lookup_weaken; [|exact Hs2]. by eapply lookup_weaken.
  - intros run serial d [-> | ->] Hget.
    + destruct (Hd1 serial d Hget) as (sid & data & invs & i & m & Hsid & _ & _ & _ & Hm & Hd & Hpf).
      exists sid, data. split; [done|]. split; [by rewrite Hd|].
      destruct (Snapshot.powerflow data) as [l0|]; [|done].
      destruct Hpf as (pf & l' & Hpf & Hpw & Hnone & Hsome).
      exists pf, l'. repeat split; try done.
      fold st1. rewrite Hsome, Hm. unfold read_unit. by rewrite Hpf.
    + destruct (Hd2 serial d Hget) as (sid & data & invs & i & m & Hsid & _ & _ & _ & Hm & Hd & Hpf).
      rewrite Hr1 in Hsid.
      exists sid, data. split; [done|]. split; [by rewrite Hd|].
      destruct (Snapshot.powerflow data) as [l0|] eqn:El0; [|done].
      destruct Hpf as (pf & l' & Hpf & Hpw & Hnone & Hsome).
      destruct (well_formed_lookup st sid data l0 Hwf Hsid El0) as [pf0 Hpf0].
      assert (pf = pf0) as ->.
      { pose proof (lookup_weaken _ _ _ _ Hpf0 Hs1) as H1. congruence. }
      exists pf0, l'. repeat split; try done.
      fold st2. rewrite Hsome, Hm. unfold read_unit. by rewrite Hpf.
Qed.

Lemma processData_pure_witness :
  well_formed (sample_platform [sample_inverter; nameless_inverter])
  /\ let st := sample_platform [sample_inverter; nameless_inverter] in
     let st1 := (processData ascii_tables sample_config st).2 in
     let st2 := (processData ascii_tables sample_config st1).2 in
     rawData st1 = rawData st
     /\ rawData st2 = rawData st
     /\ (forall sid data l0,
           rawData st !! sid = Some data -> Snapshot.powerflow data = Some l0 ->
           store st1 !! l0 = store st !! l0 /\ store st2 !! l0 = store st !! l0)
     /\ (forall (run : Platform) serial d,
           (run = st \/ run = st1) ->
           obj_get serial (processData ascii_tables sample_config run).1 = Some d ->
           exists sid data,
             rawData st !! sid = Some data
             /\ Device.siteid d = Site.id (Snapshot.site data)
             /\ match Snapshot.powerflow data with
                | Some l0 =>
                    exists pf l',
                      store st !! l0 = Some pf
                      /\ Device.powerflow d = Some l'
                      /\ store run !! l' = None
                      /\ store (processData ascii_tables sample_config run).2 !! l'
                         = Some (scale_flow (unitMultiplier (Flow.unit pf)) pf)
                | None => Device.powerflow d = None
                end).
Proof.
  split; [compute_done|].
  apply (processData_pure ascii_tables sample_config
           (sample_platform [sample_inverter; nameless_inverter])).
  compute_done.
Defined.

Example processData_sample :
  let st := sample_platform [sample_inverter] in
  let res := processData ascii_tables sample_config st in
  (Device.serialNumber <$> obj_get (str "7E12ABCD-34") res.1) = Some (str "7E12ABCD-34")
  /\ (Device.softwareVersion <$> obj_get (str "7E12ABCD-34") res.1) = Some (str "4.15.123456")
  /\ (Device.description <$> obj_get (str "7E12ABCD-34") res.1) = Some (str "Roof - Perth")
  /\ (Device.peakPower <$> obj_get (str "7E12ABCD-34") res.1) = Some (5 * 1000)%Q
  /\ store res.2 !! 1%positive = Some sample_flow
  /\ (Flow.PV <$> store res.2 !! 2%positive)
     = Some (Some {| Node.currentPower := Some (3.5 * 1000)%Q; Node.status := str "Active" |}).
Proof. vm_compute. repeat split. Qed.

Lemma flow_get_scale_flow (m : Q) (key : FlowKey) (pf : Flow.t) :
  flow_get key (scale_flow m pf) = scale_node m (flow_get key pf).
Proof. by destruct key. Qed.

(** C4: the multiplier is 1 for [W], 1000 for [kW], 1000000 for [MW] (in any
    letter case) and 1000 for a missing or any other unit.  Normalization
    applies it: every inverter in the inventory of a cached site has a record
    in the result, and every record of the result carries its site's
    [peakPower] times the multiplier of that site's reading, and a reading in
    which [currentPower] of each flow node that has one is the raw value
    times that multiplier. *)
Theorem unitMultiplier_applied (uc : UnicodeTables) (config : Config) (st : Platform) :
  well_formed st ->
  (forall u, toUpperCase u = str "W" -> unitMultiplier (Some u) = 1%Q)
  /\ (forall u, toUpperCase u = str "KW" -> unitMultiplier (Some u) = 1000%Q)
  /\ (forall u, toUpperCase u = str "MW" -> unitMultiplier (Some u) = 1000000%Q)
  /\ unitMultiplier None = 1000%Q
  /\ (forall u, toUpperCase u <> str "W" -> toUpperCase u <> str "MW" ->
        unitMultiplier (Some u) = 1000%Q)
  /\ (forall sid data inverters inverter,
        rawData st !! sid = Some data ->
        Snapshot.inventory data ≫= Inventory.inverters = Some inverters ->
        inverter ∈ inverters ->
        is_Some (obj_get (toUpperCase (Inverter.SN inverter))
                   (processData uc config st).1))
  /\ forall serial d,
      obj_get serial (processData uc config st).1 = Some d ->
      exists sid data m,
        rawData st !! sid = Some data
        /\ m = unitMultiplier (read_unit (store st) (Snapshot.powerflow data))
        /\ Device.peakPower d = (Site.peakPower (Snapshot.site data) * m)%Q
        /\ forall l0 pf,
            Snapshot.powerflow data = Some l0 -> store st !! l0 = Some pf ->
            exists l' pf',
              Device.powerflow d = Some l'
              /\ store (processData uc config st).2 !! l' = Some pf'
              /\ forall key,
                  Node.currentPower <$> flow_get key pf'
                  = (fun nd => (fun p => (p * m)%Q) <$> Node.currentPower nd)
                      <$> flow_get key pf.
Proof.
  intros Hwf.
  split; [intros u Hu; unfold unitMultiplier; cbv zeta; rewrite Hu; by vm_compute|].
  split; [intros u Hu; unfold unitMultiplier; cbv zeta; rewrite Hu; by vm_compute|].
  split; [intros u Hu; unfold unitMultiplier; cbv zeta; rewrite Hu; by vm_compute|].
  split; [done|]. split.
  { intros u H1 H2. unfold unitMultiplier. cbv zeta. by rewrite !decide_False. }
  split; [apply processData_covers|].
  intros serial d Hget.
  destruct (processData_spec uc config st Hwf) as (_ & _ & Hd).
  destruct (Hd serial d Hget) as (sid & data & invs & i & m & Hsid & _ & _ & _ & Hm & Hdd & Hpf).
  exists sid, data, m. split; [done|]. split; [done|]. split; [by rewrite Hdd|].
  intros l0 pf Hl0 Hst. rewrite Hl0 in Hpf.
  destruct Hpf as (pf0 & l' & Hpf0 & Hpw & _ & Hsome).
  assert (pf0 = pf) as -> by congruence.
  exists l', (scale_flow m pf). split; [done|]. split; [done|].
  intros key. rewrite flow_get_scale_flow.
  by destruct (flow_get key pf).
Qed.

(** On the sample site, whose reading is in kW: the inverter has a record,
    its peak power is the site's 5 times 1000, and the PV power of its
    reading is the raw 3.5 times 1000. *)
Lemma unitMultiplier_applied_witness :
  well_formed (sample_platform [sample_inverter])
  /\ (unitMultiplier (Some (str "W")) = 1%Q
      /\ unitMultiplier (Some (str "kW")) = 1000%Q
      /\ unitMultiplier (Some (str "mw")) = 1000000%Q
      /\ unitMultiplier (Some (str "GW")) = 1000%Q)
  /\ exists d l' pf',
      obj_get (toUpperCase (Inverter.SN sample_inverter))
        (processData ascii_tables sample_config (sample_platform [sample_inverter])).1
      = Some d
      /\ Device.peakPower d = (5 * 1000)%Q
      /\ Device.powerflow d = Some l'
      /\ store (processData ascii_tables sample_config
                  (sample_platform [sample_inverter])).2 !! l' = Some pf'
      /\ Node.currentPower <$> flow_get KPV pf' = Some (Some (3.5 * 1000)%Q).
Proof.
  assert (Hwf : well_formed (sample_platform [sample_inverter])) by compute_done.
  split; [exact Hwf|].
  destruct (unitMultiplier_applied ascii_tables sample_config
              (sample_platform [sample_inverter]) Hwf)
    as (HW & HkW & HMW & _ & Hother & Hall & Hrec).
  split.
  { split; [by apply HW|]. split; [by apply HkW|]. split; [by apply HMW|].
    by apply Hother. }
  destruct (Hall 42 (sample_snapshot [sample_inverter]) [sample_inverter] sample_inverter)
    as [d Hd]; [by vm_compute | reflexivity | by left |].
  destruct (Hrec _ d Hd) as (sid & data & m & Hsid & Hm & Hpeak & Hflow).
  assert (sid = 42 /\ data = sample_snapshot [sample_inverter]) as [-> ->].
  { unfold sample_platform in Hsid. cbn [rawData] in Hsid.
    apply lookup_singleton_Some in Hsid. by destruct Hsid. }
  destruct (Hflow 1%positive sample_flow) as (l' & pf' & Hl' & Hpf' & Hkeys);
    [reflexivity | by vm_compute |].
  exists d, l', pf'. split; [done|]. split; [by rewrite Hpeak, Hm|].
  split; [done|]. split; [done|].
  rewrite (Hkeys KPV), Hm. reflexivity.
Defined.

Example unit_kW_sample :
  (fun p => (p * unitMultiplier (Some (str "kW")))%Q) 3.5%Q == 3500%Q.
Proof. reflexivity. Qed.

(** The description of a record, by cases on the inverter's name and the
    site's city. *)
Lemma description_cases (uc : UnicodeTables) (config : Config) (data : Snapshot.t)
    (m : Q) (pw : option loc) (inverter : Inverter.t) :
  let name := Inverter.name inverter in
  let city := default [] (Site.city (Snapshot.site data)) in
  Device.description (derive_device uc config data m pw inverter)
  = makeHomeKitName uc
      (if decide (city = []) then name
       else if decide (name = []) then city ++ str " - " ++ city
       else name ++ str " - " ++ city).
Proof.
  intros name city. unfold derive_device. cbn [Device.description].
  fold name city.
  destruct (decide (name = [])) as [Hn|Hn], (decide (city = [])) as [Hc|Hc];
    try reflexivity.
  by rewrite Hn, Hc.
Qed.

(** The earlier revision wrote into the cache: with two inverters on the
    sample site the cached PV power 3.5 (kW) becomes 3.5 * 1000 * 1000 after
    one normalization, where the current revision leaves the cell alone. *)
Example legacy_scales_in_place :
  (Flow.PV <$> (Legacy.process_inverters
                  (sample_snapshot [sample_inverter; nameless_inverter])
                  {[ 1%positive := sample_flow ]} ≫= (fun h => h !! 1%positive)))
  = Some (Some {| Node.currentPower := Some (3.5 * 1000 * 1000)%Q;
                  Node.status := str "Active" |})
  /\ store (processData ascii_tables sample_config
              (sample_platform [sample_inverter; nameless_inverter])).2 !! 1%positive
     = Some sample_flow.
Proof. by vm_compute. Qed.

(** C6: with an empty inverter name and the city "Perth" the current code
    yields the description "Perth - Perth", where the claim (and the earlier
    revision of the same code) gives "Perth". *)
Theorem description_repeats_city :
  (Device.description
     <$> obj_get (str "7F00BEEF-01")
           (processData ascii_tables sample_config (sample_platform [nameless_inverter])).1)
  = Some (str "Perth - Perth")
  /\ Legacy.description ascii_tables (sample_snapshot [nameless_inverter]) nameless_inverter
     = str "Perth".
Proof. by vm_compute. Qed.

(** ** Loops with effects *)

Lemma for_each_acc {S A E} (f : S -> A -> S * list E) (l : list A) :
  forall (s : S) (e0 : list E),
    foldl (fun acc a => let '(s', e) := f acc.1 a in (s', acc.2 ++ e)) (s, e0) l
    = ((for_each f s l).1, e0 ++ (for_each f s l).2).
Proof.
  unfold for_each. induction l as [|a l IH]; intros s e0; cbn [foldl fst snd].
  - by rewrite app_nil_r.
  - destruct (f s a) as [s1 e1]. cbn [app].
    rewrite (IH s1 (e0 ++ e1)), (IH s1 e1). cbn [fst snd]. by rewrite app_assoc.
Qed.

Lemma for_each_nil {S A E} (f : S -> A -> S * list E) (s : S) :
  for_each f s [] = (s, []).
Proof. reflexivity. Qed.

Lemma for_each_cons {S A E} (f : S -> A -> S * list E) (s : S) (a : A) (l : list A) :
  for_each f s (a :: l)
  = ((for_each f (f s a).1 l).1, (f s a).2 ++ (for_each f (f s a).1 l).2).
Proof.
  unfold for_each at 1. cbn [foldl fst snd].
  destruct (f s a) as [s1 e1]. cbn [app fst snd]. apply for_each_acc.
Qed.

Lemma for_each_app {S A E} (f : S -> A -> S * list E) (l1 l2 : list A) :
  forall s : S,
    for_each f s (l1 ++ l2)
    = ((for_each f (for_each f s l1).1 l2).1,
       (for_each f s l1).2 ++ (for_each f (for_each f s l1).1 l2).2).
Proof.
  induction l1 as [|a l1 IH]; intros s.
  - cbn [app]. rewrite for_each_nil. cbn [fst snd app].
    by destruct (for_each f s l2).
  - cbn [app]. rewrite !for_each_cons, IH. cbn [fst snd]. by rewrite app_assoc.
Qed.

Lemma for_each_concat {S A E} (f : S -> A -> S * list E) (ls : list (list A)) :
  forall s : S, for_each (for_each f) s ls = for_each f s (concat ls).
Proof.
  induction ls as [|l ls IH]; intros s; [done|].
  cbn [concat]. rewrite for_each_cons, for_each_app, IH.
  reflexivity.
Qed.

Lemma for_each_preserve {S A E} (P : S -> Prop) (f : S -> A -> S * list E) :
  (forall s a, P s -> P (f s a).1) ->
  forall (l : list A) (s : S), P s -> P (for_each f s l).1.
Proof.
  intros Hf l. induction l as [|a l IH]; intros s Hs; [done|].
  rewrite for_each_cons. cbn [fst]. by apply IH, Hf.
Qed.

Lemma for_each_events {S A E} (Q : E -> Prop) (f : S -> A -> S * list E) :
  (forall s a, Forall Q (f s a).2) ->
  forall (l : list A) (s : S), Forall Q (for_each f s l).2.
Proof.
  intros Hf l. induction l as [|a l IH]; intros s; [constructor|].
  rewrite for_each_cons. cbn [snd]. apply Forall_app. split; [apply Hf | apply IH].
Qed.

Lemma for_each_until_cons {S A E} (f : S -> A -> S * list E * bool) (s : S) (a : A)
    (l : list A) :
  for_each_until f s (a :: l)
  = if (f s a).2 then (f s a).1
    else ((for_each_until f (f s a).1.1 l).1,
          (f s a).1.2 ++ (for_each_until f (f s a).1.1 l).2).
Proof.
  cbn [for_each_until]. destruct (f s a) as [[s1 e1] []]; [done|].
  cbn [fst snd]. by destruct (for_each_until f s1 l).
Qed.

Lemma for_each_until_preserve {S A E} (P : S -> Prop) (f : S -> A -> S * list E * bool) :
  (forall s a, P s -> P (f s a).1.1) ->
  forall (l : list A) (s : S), P s -> P (for_each_until f s l).1.
Proof.
  intros Hf l. induction l as [|a l IH]; intros s Hs; [done|].
  rewrite for_each_until_cons. specialize (Hf s a Hs).
  destruct (f s a) as [[s1 e1] []]; cbn [fst snd] in *; [done|]. by apply IH.
Qed.

Lemma for_each_until_events {S A E} (Q : E -> Prop) (f : S -> A -> S * list E * bool) :
  (forall s a, Forall Q (f s a).1.2) ->
  forall (l : list A) (s : S), Forall Q (for_each_until f s l).2.
Proof.
  intros Hf l. induction l as [|a l IH]; intros s; [constructor|].
  rewrite for_each_until_cons. specialize (Hf s a).
  destruct (f s a) as [[s1 e1] []]; cbn [fst snd] in *; [done|].
  apply Forall_app. split; [done | apply IH].
Qed.

(** ** Device registry *)

Section RegistryFacts.
Variable generateUUID : jsstring -> jsstring.
Variable device_uuid : Device.t -> jsstring.

Lemma register_device_instantiates (st : Platform) (d d' : Device.t) :
  NewSolarInverter d' ∈ (register_device generateUUID device_uuid st d).2 ->
  d' = d /\ trackedDevices st !! Device.serialNumber d = None /\ Device.excluded d = false.
Proof.
  unfold register_device.
  destruct (trackedDevices st !! Device.serialNumber d) as [t|] eqn:Et;
    destruct (Device.excluded d) eqn:Ex.
  all: repeat first
         [ rewrite Et | rewrite lookup_insert_eq
         | rewrite bool_decide_true by done | rewrite bool_decide_false by done
         | progress cbn [andb negb fst snd app Tracked.uuid] ].
  all: try destruct (bool_decide (Tracked.uuid t = [])).
  all: try destruct (bool_decide (device_uuid d = [])).
  all: try destruct (bool_decide (_ ∈ cachedAccessories st)).
  all: cbn [app]; rewrite ?elem_of_cons, ?elem_of_nil.
  all: intros H; repeat match type of H with _ \/ _ => destruct H as [H|H] end.
  all: try done.
  all: by injection H as ->.
Qed.

Lemma register_device_tracked (st : Platform) (d : Device.t) (serial : jsstring) :
  trackedDevices (register_device generateUUID device_uuid st d).1 !! serial
  = if decide (serial = Device.serialNumber d)
    then match trackedDevices st !! serial with
         | Some t => Some t
         | None =>
             Some (if Device.excluded d
                   then {| Tracked.uuid := generateUUID serial; Tracked.exclude := true |}
                   else {| Tracked.uuid := device_uuid d; Tracked.exclude := false |})
         end
    else trackedDevices st !! serial.
Proof.
  unfold register_device.
  destruct (decide (serial = Device.serialNumber d)) as [->|Hne].
  - destruct (trackedDevices st !! Device.serialNumber d) as [t|] eqn:Et;
      destruct (Device.excluded d) eqn:Ex; cbn [andb negb fst snd].
    + rewrite bool_decide_false by done. cbn [andb]. rewrite Et.
      by rewrite bool_decide_false by done.
    + rewrite bool_decide_false by done. cbn [andb]. rewrite Et.
      by rewrite bool_decide_false by done.
    + rewrite bool_decide_true by done. cbn [andb].
      rewrite lookup_insert_eq. rewrite bool_decide_false by done. cbn [andb].
      cbn [with_trackedDevices trackedDevices fst]. by rewrite lookup_insert_eq.
    + rewrite bool_decide_true by done. cbn [andb]. rewrite Et.
      rewrite bool_decide_true by done. cbn [andb].
      cbn [with_trackedDevices trackedDevices fst]. by rewrite lookup_insert_eq.
  - destruct (bool_decide (trackedDevices st !! Device.serialNumber d = None)
              && Device.excluded d).
    + destruct (bool_decide _ && negb _);
        cbn [with_trackedDevices trackedDevices fst];
        by rewrite ?lookup_insert_ne by done.
    + destruct (bool_decide _ && negb _);
        cbn [with_trackedDevices trackedDevices fst];
        by rewrite ?lookup_insert_ne by done.
Qed.

(** Once a serial number is tracked, no later record instantiates it. *)
Lemma register_devices_tracked (records : list Device.t) :
  forall (st : Platform) (serial : jsstring),
    is_Some (trackedDevices st !! serial) ->
    forall d, d ∈ instantiated (register_devices generateUUID device_uuid st records).2 ->
              Device.serialNumber d <> serial.
Proof.
  unfold register_devices.
  induction records as [|r records IH]; intros st serial Htr d Hin.
  { by apply elem_of_nil in Hin. }
  rewrite for_each_cons in Hin. cbn [snd] in Hin.
  unfold instantiated in Hin. rewrite omap_app, elem_of_app in Hin.
  destruct Hin as [Hin|Hin].
  - apply list_elem_of_omap in Hin as (e & He & Hd).
    destruct e; try done. simplify_eq.
    apply register_device_instantiates in He as (-> & Hnone & _).
    intros <-. rewrite Hnone in Htr. by destruct Htr.
  - apply (IH (register_device generateUUID device_uuid st r).1 serial); [|done].
    rewrite register_device_tracked. case_decide; [|done].
    destruct Htr as [t ->]. by eexists.
Qed.

Lemma register_devices_first (records : list Device.t) :
  forall (st : Platform) (serial : jsstring) (d0 : Device.t),
    trackedDevices st !! serial = None ->
    first_observation serial records = Some d0 ->
    Device.excluded d0 = true ->
    forall d, d ∈ instantiated (register_devices generateUUID device_uuid st records).2 ->
              Device.serialNumber d <> serial.
Proof.
  induction records as [|r records IH]; intros st serial d0 Hnone Hfirst Hex d Hin.
  { done. }
  unfold register_devices in Hin. rewrite for_each_cons in Hin. cbn [snd] in Hin.
  unfold instantiated in Hin. rewrite omap_app, elem_of_app in Hin.
  unfold first_observation in Hfirst. cbn [List.find] in Hfirst.
  destruct (bool_decide (Device.serialNumber r = serial)) eqn:Er.
  - apply bool_decide_eq_true in Er. simplify_eq.
    destruct Hin as [Hin|Hin].
    + apply list_elem_of_omap in Hin as (e & He & Hd).
      destruct e; try done. simplify_eq.
      apply register_device_instantiates in He as (_ & _ & Hne). congruence.
    + apply (register_devices_tracked records
               (register_device generateUUID device_uuid st d0).1); [|done].
      rewrite register_device_tracked, decide_True by done.
      rewrite Hnone. by eexists.
  - apply bool_decide_eq_false in Er.
    destruct Hin as [Hin|Hin].
    + apply list_elem_of_omap in Hin as (e & He & Hd).
      destruct e; try done. simplify_eq.
      by apply register_device_instantiates in He as (-> & _ & _).
    + apply (IH (register_device generateUUID device_uuid st r).1 serial d0); try done.
      by rewrite register_device_tracked, decide_False by done.
Qed.
(** The body of the loop, by cases on whether the serial number is tracked
    and whether the record is excluded. *)
Lemma register_device_cases (st : Platform) (d : Device.t) :
  register_device generateUUID device_uuid st d
  = match trackedDevices st !! Device.serialNumber d with
    | Some t =>
        (with_trackedDevices st (trackedDevices st),
         if Device.excluded d then []
         else if bool_decide (Tracked.uuid t = []) then []
              else [EmitUpdate (Tracked.uuid t) d])
    | None =>
        if Device.excluded d then
          (with_trackedDevices st
             (<[Device.serialNumber d :=
                  {| Tracked.uuid := generateUUID (Device.serialNumber d);
                     Tracked.exclude := true |}]> (trackedDevices st)),
           LogWarn (Device.description d)
           :: (if bool_decide (generateUUID (Device.serialNumber d) ∈ cachedAccessories st)
               then [UnregisterPlatformAccessories (generateUUID (Device.serialNumber d))]
               else []))
        else
          (with_trackedDevices st
             (<[Device.serialNumber d :=
                  {| Tracked.uuid := device_uuid d; Tracked.exclude := false |}]>
                (trackedDevices st)),
           NewSolarInverter d
           :: (if bool_decide (device_uuid d = []) then []
               else [EmitUpdate (device_uuid d) d]))
    end.
Proof.
  unfold register_device.
  destruct (trackedDevices st !! Device.serialNumber d) as [t|] eqn:Et;
    destruct (Device.excluded d) eqn:Ex.
  all: repeat first
         [ rewrite Et | rewrite lookup_insert_eq
         | rewrite bool_decide_true by done | rewrite bool_decide_false by done
         | progress cbn [andb negb fst snd app Tracked.uuid] ].
  all: by rewrite ?app_nil_r.
Qed.

(** The actions of the body, by the same cases. *)
Lemma register_actions_cases (st : Platform) (d : Device.t) :
  register_actions generateUUID device_uuid st d
  = match trackedDevices st !! Device.serialNumber d with
    | Some t =>
        if Device.excluded d then []
        else if bool_decide (Tracked.uuid t = []) then []
             else [Call (EmitUpdate (Tracked.uuid t) d)]
    | None =>
        if Device.excluded d then
          Call (LogWarn (Device.description d))
          :: Track (Device.serialNumber d)
               {| Tracked.uuid := generateUUID (Device.serialNumber d);
                  Tracked.exclude := true |}
          :: (if bool_decide (generateUUID (Device.serialNumber d) ∈ cachedAccessories st)
              then [Call (UnregisterPlatformAccessories
                            (generateUUID (Device.serialNumber d)))]
              else [])
        else
          Call (NewSolarInverter d)
          :: Track (Device.serialNumber d)
               {| Tracked.uuid := device_uuid d; Tracked.exclude := false |}
          :: (if bool_decide (device_uuid d = []) then []
              else [Call (EmitUpdate (device_uuid d) d)])
    end.
Proof.
  unfold register_actions.
  destruct (trackedDevices st !! Device.serialNumber d) as [t|] eqn:Et;
    destruct (Device.excluded d) eqn:Ex.
  all: repeat first
         [ rewrite Et | rewrite lookup_insert_eq
         | rewrite bool_decide_true by done | rewrite bool_decide_false by done
         | progress cbn [andb negb fst snd app Tracked.uuid] ].
  all: by rewrite ?app_nil_r.
Qed.

(** Performing all the actions of the body is running the body. *)
Lemma perform_register_actions (st : Platform) (d : Device.t) :
  for_each perform st (register_actions generateUUID device_uuid st d)
  = register_device generateUUID device_uuid st d.
Proof.
  rewrite register_actions_cases, register_device_cases. destruct st as [h c r t a].
  cbn [trackedDevices cachedAccessories].
  destruct (t !! Device.serialNumber d) as [t0|]; destruct (Device.excluded d).
  - reflexivity.
  - by destruct (bool_decide (Tracked.uuid t0 = [])).
  - by destruct (bool_decide (_ ∈ a)).
  - by destruct (bool_decide (device_uuid d = [])).
Qed.

Lemma register_actions_length (st : Platform) (d : Device.t) :
  (length (register_actions generateUUID device_uuid st d) <= 3)%nat.
Proof.
  rewrite register_actions_cases.
  destruct (trackedDevices st !! Device.serialNumber d) as [t0|];
    destruct (Device.excluded d);
    repeat match goal with
      | |- context [bool_decide ?P] => destruct (bool_decide P)
      end; cbn; lia.
Qed.

(** A body that is cut short has left the state alone or left it as the
    whole body does, and has made the first few of its calls. *)
Lemma register_prefix (st : Platform) (d : Device.t) (n : nat) :
  ((for_each perform st (take n (register_actions generateUUID device_uuid st d))).1 = st
   \/ (for_each perform st (take n (register_actions generateUUID device_uuid st d))).1
      = (register_device generateUUID device_uuid st d).1)
  /\ (for_each perform st (take n (register_actions generateUUID device_uuid st d))).2
     `prefix_of` (register_device generateUUID device_uuid st d).2.
Proof.
  rewrite register_actions_cases, register_device_cases. destruct st as [h c r t a].
  cbn [trackedDevices cachedAccessories].
  destruct (t !! Device.serialNumber d) as [t0|]; destruct (Device.excluded d);
    repeat match goal with
      | |- context [bool_decide ?P] => destruct (bool_decide P)
      end;
    destruct n as [|[|[|n]]]; cbn; rewrite ?take_nil; cbn;
    (split; [first [by left | by right] | by eexists]).
Qed.

Lemma register_devices_cut_preserve (P : Platform -> Prop) :
  (forall s d, P s -> P (register_device generateUUID device_uuid s d).1) ->
  forall (records : list Device.t) (n : nat) (st : Platform),
    P st -> P (register_devices_cut generateUUID device_uuid n st records).1.
Proof.
  intros Hstep records. induction records as [|d records IH]; intros n st HP; [done|].
  cbn [register_devices_cut]. case_decide.
  - rewrite perform_register_actions.
    specialize (Hstep st d HP).
    destruct (register_device generateUUID device_uuid st d) as [st1 ev1].
    specialize (IH (n - length (register_actions generateUUID device_uuid st d))%nat
                  st1 Hstep).
    by destruct (register_devices_cut generateUUID device_uuid _ st1 records).
  - destruct (register_prefix st d n) as [[-> | ->] _]; [done | by apply Hstep].
Qed.

Lemma register_devices_cut_events (Q : Event -> Prop) (records : list Device.t) :
  Forall (fun d => forall s, Forall Q (register_device generateUUID device_uuid s d).2)
         records ->
  forall (n : nat) (st : Platform),
    Forall Q (register_devices_cut generateUUID device_uuid n st records).2.
Proof.
  induction 1 as [|d records Hd Hrest IH]; intros n st; [constructor|].
  cbn [register_devices_cut]. case_decide.
  - rewrite perform_register_actions. specialize (Hd st).
    destruct (register_device generateUUID device_uuid st d) as [st1 ev1].
    specialize (IH (n - length (register_actions generateUUID device_uuid st d))%nat st1).
    destruct (register_devices_cut generateUUID device_uuid _ st1 records).
    cbn [snd] in *. apply Forall_app. by split.
  - destruct (register_prefix st d n) as [_ [k Hk]]. specialize (Hd st).
    rewrite Hk in Hd. by apply Forall_app in Hd as [? _].
Qed.

(** A cut beyond the last action is no cut. *)
Lemma register_devices_cut_all (records : list Device.t) :
  forall (n : nat) (st : Platform),
    (3 * length records <= n)%nat ->
    register_devices_cut generateUUID device_uuid n st records
    = register_devices generateUUID device_uuid st records.
Proof.
  unfold register_devices.
  induction records as [|d records IH]; intros n st Hn; [done|].
  cbn [register_devices_cut]. pose proof (register_actions_length st d) as Hlen.
  cbn [length] in Hn. rewrite decide_True by lia.
  rewrite perform_register_actions, for_each_cons.
  destruct (register_device generateUUID device_uuid st d) as [st1 ev1]. cbn [fst snd].
  rewrite IH by lia.
  by destruct (for_each (register_device generateUUID device_uuid) st1 records).
Qed.
End RegistryFacts.

(** C7: a device whose first observation is excluded is never instantiated:
    whatever records follow, in the same cycle or in later ones, and whatever
    their [excluded] flag says, no [new SolarInverter] is made for its serial
    number. *)
Theorem excluded_never_instantiated (generateUUID : jsstring -> jsstring)
    (device_uuid : Device.t -> jsstring) (st : Platform)
    (cycles : list (list Device.t)) (serial : jsstring) (d0 : Device.t) :
  trackedDevices st !! serial = None ->
  first_observation serial (concat cycles) = Some d0 ->
  Device.excluded d0 = true ->
  forall d,
    d ∈ instantiated (register_cycles generateUUID device_uuid st cycles).2 ->
    Device.serialNumber d <> serial.
Proof.
  intros Hnone Hfirst Hex d Hin.
  unfold register_cycles, register_devices in Hin. rewrite for_each_concat in Hin.
  by apply (register_devices_first generateUUID device_uuid (concat cycles) st serial d0).
Qed.

Lemma excluded_never_instantiated_witness :
  let st := sample_platform [] in
  let cycles := [[sample_record true]; [sample_record false]; [sample_record false]] in
  (trackedDevices st !! str "7E12ABCD-34" = None
   /\ first_observation (str "7E12ABCD-34") (concat cycles) = Some (sample_record true)
   /\ Device.excluded (sample_record true) = true)
  /\ forall d,
      d ∈ instantiated
            (register_cycles sample_generateUUID sample_device_uuid st cycles).2 ->
      Device.serialNumber d <> str "7E12ABCD-34".
Proof.
  split; [by vm_compute|].
  apply (excluded_never_instantiated sample_generateUUID sample_device_uuid
           (sample_platform [])
           [[sample_record true]; [sample_record false]; [sample_record false]]
           (str "7E12ABCD-34") (sample_record true)); by vm_compute.
Defined.

Example registry_sample :
  (register_cycles sample_generateUUID sample_device_uuid (sample_platform [])
     [[sample_record true]; [sample_record false]]).2
  = [LogWarn (str "Roof - Perth");
     EmitUpdate (str "uuid-7E12ABCD-34") (sample_record false)]
  /\ (register_cycles sample_generateUUID sample_device_uuid (sample_platform [])
        [[sample_record false]; [sample_record false]]).2
     = [NewSolarInverter (sample_record false);
        EmitUpdate (str "uuid-7E12ABCD-34") (sample_record false);
        EmitUpdate (str "uuid-7E12ABCD-34") (sample_record false)].
Proof. by vm_compute. Qed.

(** ** Aggregation cycle *)

Section SubscribeFacts.
Variable uc : UnicodeTables.
Variable config : Config.
Variable generateUUID : jsstring -> jsstring.
Variable device_uuid : Device.t -> jsstring.

Lemma processData_frame (st : Platform) :
  rawData (processData uc config st).2 = rawData st
  /\ store st ⊆ store (processData uc config st).2
  /\ connections (processData uc config st).2 = connections st.
Proof.
  unfold processData.
  destruct (foldl (process_site uc config) (store st, []) (Object_values (rawData st)))
    as [h' devices] eqn:E.
  by destruct (process_sites_spec uc config _ _ _ _ _ E) as (Hsub & _).
Qed.

Lemma register_device_frame (st : Platform) (d : Device.t) :
  rawData (register_device generateUUID device_uuid st d).1 = rawData st
  /\ store (register_device generateUUID device_uuid st d).1 = store st
  /\ connections (register_device generateUUID device_uuid st d).1 = connections st
  /\ forall sid, WriteRawData sid ∉ (register_device generateUUID device_uuid st d).2.
Proof.
  unfold register_device.
  destruct (bool_decide (trackedDevices st !! Device.serialNumber d = None)
            && Device.excluded d).
  all: match goal with
       | |- context [bool_decide (?m !! ?k = None) && negb ?b] =>
           destruct (bool_decide (m !! k = None) && negb b)
       end.
  all: cbn [fst snd]; split; [done|]; split; [done|]; split; [done|].
  all: intros sid.
  all: repeat match goal with
         | |- context [if bool_decide ?P then _ else _] => destruct (bool_decide P)
         | |- context [match ?m !! ?k with _ => _ end] => destruct (m !! k)
         | |- context [negb (Device.excluded ?x)] => destruct (Device.excluded x)
         | _ => progress cbn [andb negb fst snd app]
         end.
  all: rewrite ?elem_of_cons, ?elem_of_nil.
  all: intros H; repeat match type of H with _ \/ _ => destruct H as [H|H] end.
  all: done.
Qed.

Lemma register_devices_frame (records : list Device.t) :
  forall st : Platform,
    rawData (register_devices generateUUID device_uuid st records).1 = rawData st
    /\ store (register_devices generateUUID device_uuid st records).1 = store st
    /\ connections (register_devices generateUUID device_uuid st records).1
       = connections st
    /\ forall sid, WriteRawData sid ∉ (register_devices generateUUID device_uuid st records).2.
Proof.
  unfold register_devices.
  induction records as [|d records IH]; intros st.
  { repeat split. by intros sid ?%elem_of_nil. }
  rewrite for_each_cons. cbn [fst snd].
  destruct (IH (register_device generateUUID device_uuid st d).1) as (Hr & Hs & Hc & Hw).
  destruct (register_device_frame st d) as (Hr1 & Hs1 & Hc1 & Hw1).
  rewrite Hr, Hs, Hc. split; [done|]. split; [done|]. split; [done|].
  intros sid [Hin|Hin]%elem_of_app; [by apply (Hw1 sid) | by apply (Hw sid)].
Qed.

Lemma processPostSubscribe_frame (st : Platform) :
  rawData (processPostSubscribe uc config generateUUID device_uuid st).1 = rawData st
  /\ store st ⊆ store (processPostSubscribe uc config generateUUID device_uuid st).1
  /\ connections (processPostSubscribe uc config generateUUID device_uuid st).1
     = connections st
  /\ forall sid,
      WriteRawData sid ∉ (processPostSubscribe uc config generateUUID device_uuid st).2.
Proof.
  unfold processPostSubscribe.
  destruct (processData_frame st) as (Hr & Hs & Hc).
  destruct (processData uc config st) as [devices st1]. cbn [fst snd] in *.
  destruct (register_devices_frame (obj_values devices) st1) as (Hr' & Hs' & Hc' & Hw).
  cbn zeta. rewrite Hr', Hs', Hc'. done.
Qed.

Lemma holds_reading_mono (h h' : heap) pw payload :
  h ⊆ h' -> holds_reading h pw payload -> holds_reading h' pw payload.
Proof.
  unfold holds_reading. intros Hsub. destruct payload as [v|]; [|done].
  intros (l & -> & Hl). exists l. split; [done|]. by eapply lookup_weaken.
Qed.

Lemma no_write_Forall (evs : list Event) :
  (forall sid, WriteRawData sid ∉ evs)
  <-> Forall (fun e => forall sid, e <> WriteRawData sid) evs.
Proof.
  rewrite Forall_forall. split.
  - intros H e He sid ->. by apply (H sid).
  - intros H sid Hin. by apply (H _ Hin sid).
Qed.

(** A run of [#processPostSubscribe], cut short or not, leaves the cache and
    the connections alone and only adds to the store. *)
Lemma processPostSubscribe_cut_frame (interrupt : option nat) (st : Platform) :
  rawData (processPostSubscribe_cut uc config generateUUID device_uuid interrupt st).1.1
  = rawData st
  /\ store st
     ⊆ store (processPostSubscribe_cut uc config generateUUID device_uuid interrupt st).1.1
  /\ connections
       (processPostSubscribe_cut uc config generateUUID device_uuid interrupt st).1.1
     = connections st
  /\ (forall sid,
        WriteRawData sid
          ∉ (processPostSubscribe_cut uc config generateUUID device_uuid interrupt st).1.2)
  /\ (processPostSubscribe_cut uc config generateUUID device_uuid interrupt st).2
     = bool_decide (is_Some interrupt).
Proof.
  destruct interrupt as [n|]; cbn [processPostSubscribe_cut].
  - destruct (processData_frame st) as (Hr & Hs & Hc).
    destruct (processData uc config st) as [devices st1]. cbn [fst snd] in *.
    destruct (register_devices_cut_preserve generateUUID device_uuid
                (fun s => rawData s = rawData st1 /\ store s = store st1
                          /\ connections s = connections st1))
      with (records := obj_values devices) (n := n) (st := st1) as (Hr' & Hs' & Hc');
      [|done|].
    { intros s d (H1 & H2 & H3).
      destruct (register_device_frame s d) as (Hr1 & Hs1 & Hc1 & _).
      split; [congruence|]. split; congruence. }
    rewrite Hr', Hs', Hc'. split; [done|]. split; [done|]. split; [done|].
    split; [|done]. apply no_write_Forall.
    apply register_devices_cut_events, Forall_forall.
    intros d _ s. apply no_write_Forall. apply register_device_frame.
  - destruct (processPostSubscribe_frame st) as (Hr & Hs & Hc & Hw). done.
Qed.

Lemma decodes_both_succeeded (t : TempObject) :
  decodes t = true -> both_succeeded t.
Proof.
  unfold decodes, both_succeeded.
  destruct (inventory_json t) as [[|i]|], (currentPowerFlow_json t) as [[|f]|];
    first [done | intros _; by split; eexists].
Qed.

Lemma fetch_site_spec (uuid : jsstring) (st : Platform) (x : Turn) :
  let r := fetch_site uc config generateUUID device_uuid uuid st x in
  connections r.1.1 = connections st
  /\ store st ⊆ store r.1.1
  /\ r.2 = throws x
  /\ if decodes (turn_temp x) then
       exists inventory flow pw,
         turn_temp x
         = {| inventory_json := Some (JsonValue inventory);
              currentPowerFlow_json := Some (JsonValue flow) |}
         /\ rawData r.1.1
            = <[Site.id (turn_site x) :=
                  {| Snapshot.connection := uuid;
                     Snapshot.site := turn_site x;
                     Snapshot.inventory := payload_Inventory inventory;
                     Snapshot.powerflow := pw |}]> (rawData st)
         /\ holds_reading (store r.1.1) pw (payload_siteCurrentPowerFlow flow)
         /\ forall sid, WriteRawData sid ∈ r.1.2 <-> sid = Site.id (turn_site x)
     else r.1 = (st, []).
Proof.
  destruct x as [site [i f] interrupt].
  unfold fetch_site, throws, decodes, keys_length, FETCHURLS_length.
  cbn [turn_site turn_temp turn_interrupt inventory_json currentPowerFlow_json].
  destruct i as [[|inventory]|], f as [[|flow]|];
    cbn [Nat.add]; rewrite ?decide_True by done; rewrite ?decide_False by done.
  all: try (split; [done|]; split; [done|]; split; [|done];
            first [ by rewrite bool_decide_true by (by split; eexists)
                  | by rewrite bool_decide_false by (by intros [[? ?] [? ?]]) ]).
  destruct (alloc_reading (store st) (payload_siteCurrentPowerFlow flow))
    as [pw h] eqn:Ea.
  set (st1 := {| store := h; connections := connections st; rawData := _;
                 trackedDevices := _; cachedAccessories := _ |}).
  destruct (processPostSubscribe_cut_frame interrupt st1) as (Hr & Hs & Hc & Hw & Ht).
  destruct (processPostSubscribe_cut uc config generateUUID device_uuid interrupt st1)
    as [[st2 evs] thrown].
  cbn [fst snd] in *.
  assert (Hh : store st ⊆ h /\ holds_reading h pw (payload_siteCurrentPowerFlow flow)).
  { unfold alloc_reading, holds_reading in *.
    destruct (payload_siteCurrentPowerFlow flow) as [v|]; simplify_eq; [|done].
    split.
    - apply insert_subseteq, not_elem_of_dom, is_fresh.
    - eexists. split; [done|]. apply lookup_insert_eq. }
  destruct Hh as [Hsub Hhold].
  split; [done|]. split; [by etrans|]. split.
  { rewrite Ht, (bool_decide_true (both_succeeded _)) by (by split; eexists). done. }
  exists inventory, flow, pw. split; [done|]. split; [done|]. split.
  - by apply (holds_reading_mono h).
  - intros sid. rewrite elem_of_cons. split.
    + intros [[= ->]|Hin]; [done|]. by destruct (Hw sid).
    + intros ->. by left.
Qed.

Lemma fetch_site_skip (uuid : jsstring) (st : Platform) (x : Turn) :
  ~ both_succeeded (turn_temp x) ->
  fetch_site uc config generateUUID device_uuid uuid st x = (st, [], false).
Proof.
  intros Hn. destruct (fetch_site_spec uuid st x) as (_ & _ & Ht & H).
  destruct (decodes (turn_temp x)) eqn:Ed.
  { by apply decodes_both_succeeded in Ed. }
  unfold throws in Ht. rewrite bool_decide_false in Ht by done.
  destruct (fetch_site uc config generateUUID device_uuid uuid st x) as [r b].
  cbn [fst snd andb] in *. by subst.
Qed.

Lemma fetch_site_idle (uuid : jsstring) (st : Platform) (x : Turn) :
  decodes (turn_temp x) = false ->
  (fetch_site uc config generateUUID device_uuid uuid st x).1 = (st, []).
Proof.
  intros Ed. destruct (fetch_site_spec uuid st x) as (_ & _ & _ & H).
  by rewrite Ed in H.
Qed.

Lemma fetch_site_commit (uuid : jsstring) (st : Platform) (x : Turn) :
  decodes (turn_temp x) = true ->
  exists inventory flow pw,
    turn_temp x
    = {| inventory_json := Some (JsonValue inventory);
         currentPowerFlow_json := Some (JsonValue flow) |}
    /\ rawData (fetch_site uc config generateUUID device_uuid uuid st x).1.1
       = <[Site.id (turn_site x) :=
             {| Snapshot.connection := uuid;
                Snapshot.site := turn_site x;
                Snapshot.inventory := payload_Inventory inventory;
                Snapshot.powerflow := pw |}]> (rawData st)
    /\ holds_reading
         (store (fetch_site uc config generateUUID device_uuid uuid st x).1.1)
         pw (payload_siteCurrentPowerFlow flow)
    /\ forall sid,
        WriteRawData sid ∈ (fetch_site uc config generateUUID device_uuid uuid st x).1.2
        <-> sid = Site.id (turn_site x).
Proof.
  intros Ed. destruct (fetch_site_spec uuid st x) as (_ & _ & _ & H).
  by rewrite Ed in H.
Qed.







Lemma well_formed_mono (st st' : Platform) :
  rawData st' = rawData st -> store st ⊆ store st' ->
  well_formed st -> well_formed st'.
Proof.
  unfold well_formed. intros -> Hsub Hwf sid data Hsid.
  specialize (Hwf sid data Hsid). unfold reading_present in *.
  destruct (Snapshot.powerflow data) as [l0|]; [|done].
  destruct Hwf as [pf Hpf]. exists pf. by eapply lookup_weaken.
Qed.

Lemma fetch_site_well_formed (uuid : jsstring) (st : Platform) (x : Turn) :
  well_formed st ->
  well_formed (fetch_site uc config generateUUID device_uuid uuid st x).1.1.
Proof.
  intros Hwf. destruct (decodes (turn_temp x)) eqn:Ed.
  - destruct (fetch_site_commit uuid st x Ed)
      as (inventory & flow & pw & _ & Hraw & Hhold & _).
    destruct (fetch_site_spec uuid st x) as (_ & Hsub & _).
    unfold well_formed. rewrite Hraw. apply map_Forall_insert_2.
    + unfold reading_present, holds_reading in *. cbn [Snapshot.powerflow].
      destruct (payload_siteCurrentPowerFlow flow) as [v|].
      * destruct Hhold as (l0 & -> & Hl0). by eexists.
      * by rewrite Hhold.
    + intros sid data Hsid. specialize (Hwf sid data Hsid).
      unfold reading_present in *.
      destruct (Snapshot.powerflow data) as [l0|]; [|done].
      destruct Hwf as [pf Hpf]. exists pf. by eapply lookup_weaken.
  - by rewrite fetch_site_idle.
Qed.

(** The cache is well formed at start-up and stays so through every
    aggregation cycle. *)
Lemma subscribeREST_well_formed (uuid : jsstring)
    (sites : option (option (list Turn))) (st : Platform) :
  well_formed st ->
  well_formed (subscribeREST uc config generateUUID device_uuid uuid sites st).1.1.
Proof.
  intros Hwf. unfold subscribeREST.
  destruct (connections st !! uuid) as [c|]; [|done].
  destruct (authorised c); [|done].
  destruct sites as [[l|]|]; try done. cbn [fst].
  apply (for_each_until_preserve well_formed); [|done].
  intros s x. apply fetch_site_well_formed.
Qed.
End SubscribeFacts.

Lemma empty_cache_well_formed (st : Platform) : rawData st = ∅ -> well_formed st.
Proof. unfold well_formed. intros ->. apply map_Forall_empty. Qed.




Example subscribeREST_sample :
  let st := sample_platform [sample_inverter] in
  let r := (subscribeREST ascii_tables sample_config sample_generateUUID
              sample_device_uuid (str "c0ffee") (Some (Some sample_fetches)) st).1 in
  (Snapshot.powerflow <$> rawData r.1 !! 42) = Some (Some 2%positive)
  /\ rawData r.1 !! 43 = None
  /\ store r.1 !! 1%positive = Some sample_flow
  /\ omap (fun e => match e with WriteRawData sid => Some sid | _ => None end) r.2 = [42].
Proof. by vm_compute. Qed.

(** A listener that throws ends the cycle: the first site is written and its
    inverter built and tracked, the update did not go through, and the
    second site is not written although both of its requests succeeded. *)
Example subscribeREST_interrupted_sample :
  let r := (subscribeREST ascii_tables sample_config sample_generateUUID
              sample_device_uuid (str "c0ffee") (Some (Some interrupted_fetches))
              fresh_platform).1 in
  map (fun e => match e with
                | WriteRawData sid => Some sid
                | _ => None
                end) r.2 = [Some 42; None]
  /\ map Device.serialNumber (instantiated r.2) = [str "7E12ABCD-34"]
  /\ (Tracked.uuid <$> trackedDevices r.1 !! str "7E12ABCD-34")
     = Some (str "uuid-7E12ABCD-34")
  /\ rawData r.1 !! 43 = None.
Proof. by vm_compute. Qed.

(** ** Accessory update *)

Lemma exporting_not_importing (flow : Edge.t) :
  exporting flow = true -> importing flow = false.
Proof.
  unfold exporting, importing. intros [H1 _]%andb_true_iff.
  apply bool_decide_eq_true in H1. rewrite H1. by vm_compute.
Qed.

Lemma flow_updates_elem (edges : list Edge.t) (e : Update) :
  e ∈ flat_map flow_updates edges <-> exists flow, flow ∈ edges /\ e ∈ flow_updates flow.
Proof.
  rewrite list_elem_of_In, in_flat_map. split.
  - intros (flow & Hin & He). exists flow. by rewrite !list_elem_of_In.
  - intros (flow & Hin & He). exists flow. by rewrite <- !list_elem_of_In.
Qed.

Lemma flow_updates_charging (flow : Edge.t) :
  charging_writes (flow_updates flow)
  = if exporting flow then [CHARGING] else if importing flow then [NOT_CHARGING] else [].
Proof.
  unfold flow_updates. destruct (exporting flow) eqn:E.
  - by rewrite (exporting_not_importing flow E).
  - by destruct (importing flow).
Qed.

Lemma flow_updates_low_battery (flow : Edge.t) :
  low_battery_writes (flow_updates flow)
  = if exporting flow then [BATTERY_LEVEL_NORMAL]
    else if importing flow then [BATTERY_LEVEL_LOW] else [].
Proof.
  unfold flow_updates. destruct (exporting flow) eqn:E.
  - by rewrite (exporting_not_importing flow E).
  - by destruct (importing flow).
Qed.

Lemma last_all_equal {A} (x : A) (l : list A) :
  l <> [] -> Forall (fun y => y = x) l -> last l = Some x.
Proof.
  induction l as [|y l IH]; [done|]. intros _ Hall.
  apply Forall_cons in Hall as [-> Hall].
  destruct l as [|z l]; [done|]. cbn [last]. by apply IH.
Qed.

Lemma flows_none (edges : list Edge.t) :
  ~ Exists (fun flow => exporting flow = true) edges ->
  ~ Exists (fun flow => importing flow = true) edges ->
  flat_map flow_updates edges = [].
Proof.
  induction edges as [|flow edges IH]; [done|].
  rewrite !Exists_cons. intros He Hi. cbn [flat_map].
  rewrite IH by tauto. unfold flow_updates.
  destruct (exporting flow); [tauto|]. destruct (importing flow); [tauto|]. done.
Qed.

Lemma flows_only (edges : list Edge.t) (dir other : Edge.t -> bool)
    (c : ChargingState) (s : StatusLowBattery) :
  (forall flow, other flow = false ->
     charging_writes (flow_updates flow) = (if dir flow then [c] else [])
     /\ low_battery_writes (flow_updates flow) = (if dir flow then [s] else [])) ->
  Exists (fun flow => dir flow = true) edges ->
  ~ Exists (fun flow => other flow = true) edges ->
  (charging_writes (flat_map flow_updates edges) <> []
   /\ Forall (fun y => y = c) (charging_writes (flat_map flow_updates edges)))
  /\ (low_battery_writes (flat_map flow_updates edges) <> []
      /\ Forall (fun y => y = s) (low_battery_writes (flat_map flow_updates edges))).
Proof.
  intros Hspec. unfold charging_writes, low_battery_writes.
  induction edges as [|flow edges IH]; [by intros ?%Exists_nil|].
  rewrite !Exists_cons. intros Hd Ho. cbn [flat_map]. rewrite !omap_app.
  assert (Hoth : other flow = false) by (destruct (other flow); tauto).
  destruct (Hspec flow Hoth) as [Hc Hs].
  unfold charging_writes, low_battery_writes in Hc, Hs. rewrite Hc, Hs.
  assert (Hrest : ~ Exists (fun flow => other flow = true) edges) by tauto.
  destruct (dir flow) eqn:Ed.
  - cbn [app]. split; (split; [done|]); apply Forall_cons; (split; [done|]).
    all: clear -Hspec Hrest.
    all: induction edges as [|f edges IH]; [constructor|].
    all: rewrite Exists_cons in Hrest; cbn [flat_map]; rewrite omap_app.
    all: assert (Hf : other f = false) by (destruct (other f); tauto).
    all: destruct (Hspec f Hf) as [Hc Hs];
         unfold charging_writes, low_battery_writes in Hc, Hs.
    all: rewrite ?Hc, ?Hs; apply Forall_app; split; [|apply IH; tauto].
    all: destruct (dir f); by repeat constructor.
  - cbn [app]. apply IH; [|done]. destruct Hd as [Hd|Hd]; [congruence|done].
Qed.

(** C8: what [updateDevice] writes to the battery service.  An edge from
    LOAD to GRID makes it write [CHARGING] and [BATTERY_LEVEL_NORMAL]; an
    edge from GRID to LOAD makes it write [NOT_CHARGING] and
    [BATTERY_LEVEL_LOW]; with neither edge [ChargingState] ends as
    [NOT_CHARGING] and [StatusLowBattery] is not written.  When only one of
    the two directions is present, the values written for it are also the
    ones the characteristics end with. *)
Theorem updateDevice_charging (h : heap) (self : SolarInverter) (deviceData : Device.t)
    (l : loc) (powerflow : Flow.t) (pv : Node.t) :
  outletService self = true ->
  batteryService self = true ->
  Device.powerflow deviceData = Some l ->
  h !! l = Some powerflow ->
  Flow.PV powerflow = Some pv ->
  let evs := (updateDevice h self deviceData).1 in
  let edges := default [] (Flow.connections powerflow) in
  let exports := Exists (fun flow => exporting flow = true) edges in
  let imports := Exists (fun flow => importing flow = true) edges in
  (exports ->
     UpdateChargingState CHARGING ∈ evs
     /\ UpdateStatusLowBattery BATTERY_LEVEL_NORMAL ∈ evs)
  /\ (imports ->
        UpdateChargingState NOT_CHARGING ∈ evs
        /\ UpdateStatusLowBattery BATTERY_LEVEL_LOW ∈ evs)
  /\ (~ exports -> ~ imports ->
        last (charging_writes evs) = Some NOT_CHARGING
        /\ low_battery_writes evs = [])
  /\ (exports -> ~ imports ->
        last (charging_writes evs) = Some CHARGING
        /\ last (low_battery_writes evs) = Some BATTERY_LEVEL_NORMAL)
  /\ (imports -> ~ exports ->
        last (charging_writes evs) = Some NOT_CHARGING
        /\ last (low_battery_writes evs) = Some BATTERY_LEVEL_LOW).
Proof.
  intros Ho Hb Hpw Hl Hpv evs edges exports imports.
  assert (Hevs : exists pre post,
    evs = pre ++ UpdateChargingState NOT_CHARGING :: flat_map flow_updates edges ++ post
    /\ charging_writes pre = [] /\ low_battery_writes pre = []
    /\ charging_writes post = [] /\ low_battery_writes post = []).
  { subst evs. unfold updateDevice. rewrite Ho, Hb, Hpw. cbn [negb orb deref].
    rewrite Hl, Hpv. fold edges.
    set (cp := Node.currentPower pv).
    set (generating := _ || _).
    set (level := match cp with Some p => _ | None => _ end).
    exists [UpdateOn generating; UpdateOutletInUse generating; UpdateBatteryLevel level].
    destruct (lightService self); cbn [negb fst].
    - eexists. split.
      + cbn [app]. rewrite <- ?app_assoc. cbn [app]. reflexivity.
      + split; [done|]. split; [done|].
        by destruct (historyService_addHistory self),
             (deviceData_eveHistory self && historyService_updateEveHome self).
    - exists []. by rewrite app_nil_r. }
  destruct Hevs as (pre & post & -> & Hc1 & Hs1 & Hc2 & Hs2).
  assert (Hcw : charging_writes
                  (pre ++ UpdateChargingState NOT_CHARGING
                       :: flat_map flow_updates edges ++ post)
                = NOT_CHARGING :: charging_writes (flat_map flow_updates edges)).
  { unfold charging_writes in *.
    change (UpdateChargingState NOT_CHARGING :: flat_map flow_updates edges ++ post)
      with ([UpdateChargingState NOT_CHARGING] ++ flat_map flow_updates edges ++ post).
    by rewrite !omap_app, Hc1, Hc2, app_nil_r. }
  assert (Hsw : low_battery_writes
                  (pre ++ UpdateChargingState NOT_CHARGING
                       :: flat_map flow_updates edges ++ post)
                = low_battery_writes (flat_map flow_updates edges)).
  { unfold low_battery_writes in *.
    change (UpdateChargingState NOT_CHARGING :: flat_map flow_updates edges ++ post)
      with ([UpdateChargingState NOT_CHARGING] ++ flat_map flow_updates edges ++ post).
    by rewrite !omap_app, Hs1, Hs2, app_nil_r. }
  rewrite Hcw, Hsw.
  split; [|split; [|split; [|split]]].
  - intros (flow & Hin & He)%Exists_exists.
    split; apply elem_of_app; right; apply elem_of_cons; right;
      apply elem_of_app; left; apply flow_updates_elem; exists flow;
      (split; [done|]); unfold flow_updates; rewrite He; set_solver.
  - intros (flow & Hin & Hi)%Exists_exists.
    split; [apply elem_of_app; right; by left|].
    apply elem_of_app; right; apply elem_of_cons; right;
      apply elem_of_app; left; apply flow_updates_elem; exists flow;
      (split; [done|]); unfold flow_updates; rewrite Hi; set_solver.
  - intros He Hi. by rewrite (flows_none edges He Hi).
  - intros He Hi.
    destruct (flows_only edges exporting importing CHARGING BATTERY_LEVEL_NORMAL)
      as [[Hne Hall] [Hne' Hall']]; try done.
    { intros flow Hf. rewrite flow_updates_charging, flow_updates_low_battery, Hf.
      by destruct (exporting flow). }
    split; [|by apply last_all_equal].
    destruct (charging_writes (flat_map flow_updates edges)) as [|y w] eqn:E; [done|].
    cbn [last]. fold (last (y :: w)). by apply last_all_equal.
  - intros Hi He.
    destruct (flows_only edges importing exporting NOT_CHARGING BATTERY_LEVEL_LOW)
      as [[Hne Hall] [Hne' Hall']]; try done.
    { intros flow Hf. by rewrite flow_updates_charging, flow_updates_low_battery, Hf. }
    split; [|by apply last_all_equal].
    destruct (charging_writes (flat_map flow_updates edges)) as [|y w] eqn:E; [done|].
    cbn [last]. fold (last (y :: w)). by apply last_all_equal.
Qed.

Lemma updateDevice_charging_witness :
  let h : heap := {[ 1%positive := sample_flow ]} in
  let evs := (updateDevice h sample_accessory sample_update).1 in
  (outletService sample_accessory = true
   /\ batteryService sample_accessory = true
   /\ Device.powerflow sample_update = Some 1%positive
   /\ h !! 1%positive = Some sample_flow
   /\ Flow.PV sample_flow
      = Some {| Node.currentPower := Some 3.5%Q; Node.status := str "Active" |})
  /\ UpdateChargingState CHARGING ∈ evs
  /\ UpdateStatusLowBattery BATTERY_LEVEL_NORMAL ∈ evs
  /\ last (charging_writes evs) = Some CHARGING
  /\ last (low_battery_writes evs) = Some BATTERY_LEVEL_NORMAL.
Proof.
  intros h evs. split; [by vm_compute|].
  destruct (updateDevice_charging h sample_accessory sample_update 1%positive sample_flow
              {| Node.currentPower := Some 3.5%Q; Node.status := str "Active" |})
    as (Hexp & _ & _ & Hlast & _); try reflexivity.
  assert (He : Exists (fun flow => exporting flow = true)
                 (default [] (Flow.connections sample_flow))) by compute_done.
  assert (Hi : ~ Exists (fun flow => importing flow = true)
                 (default [] (Flow.connections sample_flow))) by compute_done.
  destruct (Hexp He) as [H1 H2]. destruct (Hlast He Hi) as [H3 H4].
  done.
Defined.

Example updateDevice_sample :
  updateDevice {[ 1%positive := sample_flow ]} sample_accessory sample_update
  = ([UpdateOn true; UpdateOutletInUse true;
      UpdateBatteryLevel (Some (scaleValue 3.5 0 5000 0 100));
      UpdateChargingState NOT_CHARGING;
      UpdateChargingState CHARGING; UpdateStatusLowBattery BATTERY_LEVEL_NORMAL;
      UpdateCurrentAmbientLightLevel (Some 3.5%Q);
      AddHistory 1 (Some 3.5%Q); UpdateEveHome (Some 3.5%Q)], Normal).
Proof. by vm_compute. Qed.

(** * Further properties of the code *)

(** ** Name sanitization *)

Section SanitizeMore.
Variable uc : UnicodeTables.

Lemma strip_invalid_sublist s : strip_invalid uc s `sublist_of` s.
Proof.
  unfold strip_invalid. induction s as [|c r IH]; simpl; [constructor|].
  destruct (name_char uc c); by constructor.
Qed.

Lemma trim_start_sublist s : trim_start uc s `sublist_of` s.
Proof.
  induction s as [|c r IH]; simpl; [constructor|].
  destruct (letter_or_number uc c); [done | by constructor].
Qed.

Lemma trim_end_sublist s : trim_end uc s `sublist_of` s.
Proof.
  induction s as [|c r IH]; simpl; [constructor|].
  destruct (trim_end uc r) as [|c' r'].
  - destruct (letter_or_number uc c).
    + constructor. apply sublist_nil_l.
    + apply sublist_nil_l.
  - by constructor.
Qed.

Lemma trim_end_ends_clean s : ends_clean uc (trim_end uc s).
Proof.
  unfold ends_clean. induction s as [|c r IH]; simpl; [done|].
  destruct (trim_end uc r) as [|c' r'] eqn:E.
  - destruct (letter_or_number uc c) eqn:Ec; [by simpl | done].
  - exact IH.
Qed.

Lemma trim_end_id s : ends_clean uc s -> trim_end uc s = s.
Proof.
  unfold ends_clean. induction s as [|c r IH]; [done|].
  destruct r as [|c' r].
  - simpl. by intros ->.
  - intros H. change (last (c :: c' :: r)) with (last (c' :: r)) in H.
    change (trim_end uc (c :: c' :: r)) with
      (match trim_end uc (c' :: r) with
       | [] => if letter_or_number uc c then [c] else []
       | x => c :: x end).
    by rewrite (IH H).
Qed.

Lemma makeHomeKitName_facts s :
  Forall (fun c => name_char uc c = true) (makeHomeKitName uc s)
  /\ starts_clean uc (makeHomeKitName uc s)
  /\ ends_clean uc (makeHomeKitName uc s).
Proof.
  unfold makeHomeKitName. split; [|split].
  - apply trim_end_Forall, trim_start_Forall, strip_invalid_all.
  - apply trim_end_clean, trim_start_clean.
  - apply trim_end_ends_clean.
Qed.
End SanitizeMore.

(** X1: a sanitized name holds only letters, numbers, separators and the
    characters [’ . , -], and it is empty or both begins and ends with a
    letter or a number. *)
Theorem makeHomeKitName_clean (uc : UnicodeTables) (s : jsstring) :
  Forall (fun c => name_char uc c = true) (makeHomeKitName uc s)
  /\ starts_clean uc (makeHomeKitName uc s)
  /\ ends_clean uc (makeHomeKitName uc s).
Proof. apply makeHomeKitName_facts. Qed.

(** X2: sanitizing only removes characters: the result is the input with
    some characters deleted, never longer, with nothing added, replaced or
    reordered. *)
Theorem makeHomeKitName_sublist (uc : UnicodeTables) (s : jsstring) :
  makeHomeKitName uc s `sublist_of` s
  /\ (length (makeHomeKitName uc s) <= length s)%nat.
Proof.
  assert (H : makeHomeKitName uc s `sublist_of` s).
  { unfold makeHomeKitName.
    etrans; [apply trim_end_sublist|]. etrans; [apply trim_start_sublist|].
    apply strip_invalid_sublist. }
  split; [done|]. by apply sublist_length.
Qed.

(** X3: the names that sanitizing leaves unchanged are exactly those made of
    allowed characters that are empty or begin and end with a letter or a
    number. *)
Theorem makeHomeKitName_fixpoint (uc : UnicodeTables) (s : jsstring) :
  makeHomeKitName uc s = s
  <-> Forall (fun c => name_char uc c = true) s
      /\ starts_clean uc s /\ ends_clean uc s.
Proof.
  split.
  - intros <-. apply makeHomeKitName_facts.
  - intros (Hall & Hs & He). unfold makeHomeKitName.
    by rewrite strip_invalid_id, trim_start_id, trim_end_id.
Qed.

(** ** Range scaling *)




(** ** HTTP wrapper *)

Lemma fetchWrapper_step (net : nat -> FetchOutcome) (k : nat) (m : Method)
    (url : jsstring) (o : Options) (data : option jsstring) :
  invalid_call m url = false ->
  fetchWrapper net k m url o data
  = if failed (net k) && bool_decide (1 < budget o) then
      ((fetchWrapper net (S k) m url (consume_retry (prepare m data o)) data).1,
       CallFetch url (prepare m data o)
       :: Sleep (backoff_delay (consume_retry (prepare m data o)))
       :: (fetchWrapper net (S k) m url (consume_retry (prepare m data o)) data).2)
    else
      (match net k with
       | Rejects => ThrowsFetchFailed (default 0 (_retryCount (prepare m data o)) + 1)
       | Resolves r => if ok r then Returns r else ThrowsHttpStatus (status r)
       end,
       [CallFetch url (prepare m data o)]).
Proof.
  intros Hv.
  remember (fetchWrapper net (S k) m url (consume_retry (prepare m data o)) data)
    as rec eqn:Hrec.
  rewrite (fetchWrapper_equation_1 net k). rewrite Hv. simpl.
  destruct (net k) as [|r]; simpl.
  - destruct (Z_lt_dec 1 (budget o)); simpl.
    + rewrite bool_decide_true by done. rewrite <- Hrec. by destruct rec.
    + by rewrite bool_decide_false by done.
  - destruct (ok r); simpl; [done|].
    destruct (Z_lt_dec 1 (budget o)); simpl.
    + rewrite bool_decide_true by done. rewrite <- Hrec. by destruct rec.
    + by rewrite bool_decide_false by done.
Qed.

Lemma budget_at_least_one (o : Options) : 1 <= budget o.
Proof.
  unfold budget. destruct (retry o) as [r|]; [|lia].
  destruct (Z.ltb_spec r 1); lia.
Qed.

Lemma budget_consume (m : Method) (data : option jsstring) (o : Options) :
  1 < budget o -> budget (consume_retry (prepare m data o)) = budget o - 1.
Proof.
  intros H. pose proof (budget_at_least_one o).
  unfold consume_retry, prepare. unfold budget at 1. cbn [retry default id].
  destruct (Z.ltb_spec (budget o - 1) 1); lia.
Qed.

Lemma steps_attempts (tr : list FetchEvent) :
  attempts tr
  = length (List.filter (fun s => match s with Attempt => true | _ => false end) (steps tr)).
Proof.
  unfold attempts, steps. induction tr as [|[] tr IH]; simpl; [done| |done].
  by rewrite IH.
Qed.

Lemma steps_delays (tr : list FetchEvent) : delays tr = waits (steps tr).
Proof.
  unfold delays, waits, steps. induction tr as [|[] tr IH]; [done| |].
  - exact IH.
  - cbn. f_equal. exact IH.
Qed.

Lemma schedule_attempts (a : nat) :
  forall c : Z,
    length (List.filter (fun s => match s with Attempt => true | _ => false end)
              (backoff_schedule c (S a))) = S a.
Proof.
  induction a as [|a IH]; intros c; [done|].
  rewrite <- backoff_schedule_step by lia. simpl. f_equal. apply IH.
Qed.

Lemma schedule_sleep (a : nat) :
  forall c : Z,
    0 <= c ->
    foldr Z.add 0 (waits (backoff_schedule c (S a)))
    = 500 * 2 ^ c * (2 ^ Z.of_nat a - 1).
Proof.
  induction a as [|a IH]; intros c Hc; [simpl; lia|].
  rewrite <- backoff_schedule_step by lia.
  unfold waits in *. cbn [omap list_omap foldr]. unfold omap in IH. rewrite IH by lia.
  rewrite Nat2Z.inj_succ, !Z.pow_succ_r, Z.pow_add_r by lia. lia.
Qed.

Lemma guard_typed (m : Method) (url : jsstring) (o : Options) :
  guard m (UrlString url) (OptionsObject o) = invalid_call m url.
Proof. by destruct m, url. Qed.

(** X7: a call of [fetchWrapper] returns [undefined] exactly when the guard
    holds: the method is neither 'get' nor 'post', or the url is not a
    string or is empty, or [options] is not of type object; it then never
    calls [fetch].  With [null] for [options] a call that the guard lets
    through fails with a [TypeError] before any [fetch]; every other call
    makes at least one attempt and ends with a response or an error. *)
Theorem fetchWrapper_undefined_iff (net : nat -> FetchOutcome) (k : nat)
    (m : Method) (url : UrlArg) (options : OptionsArg) (data : option jsstring) :
  ((fetchWrapper_call net k m url options data).1 = Settles ReturnsUndefined
   <-> guard m url options = true)
  /\ (guard m url options = true ->
      (fetchWrapper_call net k m url options data).2 = [])
  /\ (guard m url options = false -> options = OptionsNull ->
      fetchWrapper_call net k m url options data = (RejectsTypeError, []))
  /\ (guard m url options = false -> options <> OptionsNull ->
      exists r, (fetchWrapper_call net k m url options data).1 = Settles r
                /\ r <> ReturnsUndefined
                /\ (1 <= attempts (fetchWrapper_call net k m url options data).2)%nat).
Proof.
  unfold fetchWrapper_call. destruct (guard m url options) eqn:Hg.
  { split; [done|]. split; [done|]. split; done. }
  assert (Hrun : forall u o,
            url = UrlString u -> options = OptionsObject o ->
            (fetchWrapper net k m u o data).1 <> ReturnsUndefined
            /\ (1 <= attempts (fetchWrapper net k m u o data).2)%nat).
  { intros u o -> ->. rewrite guard_typed in Hg.
    destruct (fetchWrapper_schedule (Z.to_nat (budget o)) net k m u o data Hg eq_refl)
      as (a & Ha & Hst & _ & _ & Hres).
    split.
    - intros E. by rewrite E in Hres.
    - rewrite steps_attempts, Hst. destruct a as [|a]; [lia|].
      rewrite schedule_attempts. lia. }
  destruct url as [u|], options as [o| |];
    try (by destruct m); try (by destruct m, u).
  destruct (Hrun u o eq_refl eq_refl) as [Hne Hat].
  destruct (fetchWrapper net k m u o data) as [r tr]. cbn [fst snd] in *.
  split; [split; [by intros [= ->] | done]|]. split; [done|]. split; [done|].
  intros _ _. by exists r.
Qed.

(** X8: without a usable [retry] option (missing, or below 1) the wrapper
    makes exactly one attempt and never sleeps: the outcome of that attempt
    is the outcome of the call. *)
Theorem fetchWrapper_default_budget (net : nat -> FetchOutcome) (k : nat)
    (m : Method) (url : jsstring) (o : Options) (data : option jsstring) :
  invalid_call m url = false ->
  (retry o = None \/ exists r, retry o = Some r /\ r < 1) ->
  fetchWrapper net k m url o data
  = (match net k with
     | Rejects => ThrowsFetchFailed (default 0 (_retryCount o) + 1)
     | Resolves r => if ok r then Returns r else ThrowsHttpStatus (status r)
     end,
     [CallFetch url (prepare m data o)]).
Proof.
  intros Hv Hr. rewrite fetchWrapper_step by done.
  assert (Hb : budget o = 1).
  { unfold budget. destruct Hr as [->|(r & -> & Hr)]; [done|].
    by destruct (Z.ltb_spec r 1); [|lia]. }
  rewrite Hb, bool_decide_false by lia. by rewrite andb_false_r.
Qed.

Lemma fetchWrapper_default_budget_witness :
  (invalid_call GET (str "https://x") = false
   /\ (retry {| timeout := Some 30000; retry := Some 0; _retryCount := None;
                signal := None; method := None; body := None |} = None
       \/ exists r,
            retry {| timeout := Some 30000; retry := Some 0; _retryCount := None;
                     signal := None; method := None; body := None |} = Some r
            /\ r < 1))
  /\ (fetchWrapper flaky_net 1 GET (str "https://x")
        {| timeout := Some 30000; retry := Some 0; _retryCount := None;
           signal := None; method := None; body := None |} None).1
     = ThrowsHttpStatus 503.
Proof.
  assert (H : retry {| timeout := Some 30000; retry := Some 0; _retryCount := None;
                       signal := None; method := None; body := None |} = None
              \/ exists r,
                   retry {| timeout := Some 30000; retry := Some 0; _retryCount := None;
                            signal := None; method := None; body := None |} = Some r
                   /\ r < 1).
  { right. exists 0. split; [reflexivity | lia]. }
  split; [split; [reflexivity | exact H]|].
  by rewrite (fetchWrapper_default_budget flaky_net 1 GET (str "https://x") _ None
                eq_refl H).
Defined.

(** X9: the time a call with a fresh options object spends sleeping is
    [500 * (2^(a-1) - 1)] ms for [a] attempts, hence at most
    [500 * (2^(retry-1) - 1)] ms whatever the network does. *)
Theorem fetchWrapper_total_sleep (net : nat -> FetchOutcome) (k : nat)
    (m : Method) (url : jsstring) (o : Options) (data : option jsstring) :
  invalid_call m url = false ->
  _retryCount o = None ->
  total_sleep (fetchWrapper net k m url o data).2
  = 500 * (2 ^ (Z.of_nat (attempts (fetchWrapper net k m url o data).2) - 1) - 1)
  /\ total_sleep (fetchWrapper net k m url o data).2 <= 500 * (2 ^ (budget o - 1) - 1).
Proof.
  intros Hv Hc. pose proof (budget_at_least_one o) as Hb.
  destruct (fetchWrapper_schedule (Z.to_nat (budget o)) net k m url o data Hv eq_refl)
    as (a & Ha & Hst & _ & _ & _).
  rewrite Hc in Hst. cbn [default] in Hst.
  unfold total_sleep. rewrite steps_delays, steps_attempts, Hst.
  destruct a as [|a]; [lia|].
  rewrite schedule_attempts, schedule_sleep by lia.
  replace (Z.of_nat (S a) - 1) with (Z.of_nat a) by lia.
  split; [lia|].
  assert (2 ^ Z.of_nat a <= 2 ^ (budget o - 1)) by (apply Z.pow_le_mono_r; lia).
  lia.
Qed.

Lemma fetchWrapper_total_sleep_witness :
  (invalid_call GET (str "https://x") = false /\ _retryCount three_tries = None)
  /\ total_sleep (fetchWrapper (fun _ => Rejects) 0 GET (str "https://x") three_tries None).2
     <= 500 * (2 ^ (budget three_tries - 1) - 1).
Proof.
  split; [by split|].
  by destruct (fetchWrapper_total_sleep (fun _ => Rejects) 0 GET (str "https://x")
                 three_tries None eq_refl eq_refl).
Defined.

(** X10: the retry count lives in the options object and is never reset: a
    call given an object whose [_retryCount] is already [c] sleeps
    [500 * 2^c] ms after its first failed attempt, not 500 ms, and
    [500 * 2^(c+i-1)] ms after its i-th. *)
Theorem fetchWrapper_carry_over (net : nat -> FetchOutcome) (k : nat)
    (m : Method) (url : jsstring) (o : Options) (data : option jsstring) (c : Z) :
  invalid_call m url = false ->
  _retryCount o = Some c ->
  0 <= c ->
  (exists a : nat,
     (1 <= a)%nat /\ Z.of_nat a <= budget o
     /\ steps (fetchWrapper net k m url o data).2 = backoff_schedule c a)
  /\ (failed (net k) = true -> 1 < budget o ->
      steps (fetchWrapper net k m url o data).2 !! 1%nat = Some (Wait (500 * 2 ^ c))).
Proof.
  intros Hv Hc Hc0. pose proof (budget_at_least_one o) as Hb. split.
  - destruct (fetchWrapper_schedule (Z.to_nat (budget o)) net k m url o data Hv eq_refl)
      as (a & Ha & Hst & _ & _ & _).
    rewrite Hc in Hst. exists a. split; [lia|]. split; [lia | done].
  - intros Hf Hbud. rewrite fetchWrapper_step by done.
    rewrite Hf, bool_decide_true by done. cbn [andb snd steps map lookup list_lookup].
    unfold backoff_delay, consume_retry, prepare. cbn [_retryCount default].
    rewrite Hc. cbn [default id]. do 4 f_equal. lia.
Qed.

Lemma fetchWrapper_carry_over_witness :
  (invalid_call GET (str "https://x") = false
   /\ _retryCount reused_options = Some 2 /\ 0 <= 2)
  /\ steps (fetchWrapper flaky_net 0 GET (str "https://x") reused_options None).2 !! 1%nat
     = Some (Wait 2000).
Proof.
  split; [repeat split; lia|].
  destruct (fetchWrapper_carry_over flaky_net 0 GET (str "https://x") reused_options
              None 2 eq_refl eq_refl) as [_ H]; [lia|].
  apply H; [reflexivity | by vm_compute].
Defined.

(** X11: every call of [fetch] made for one call of [fetchWrapper] gets the
    same url and method and an options object in which [retry] is at least 1
    and [retry + _retryCount] has the value it had at the first attempt: each
    retry moves one unit from the budget to the count. *)
Theorem fetchWrapper_conserves_budget (net : nat -> FetchOutcome) (k : nat)
    (m : Method) (url : jsstring) (o : Options) (data : option jsstring) :
  Forall (call_invariant url m (budget o + default 0 (_retryCount o)))
         (fetchWrapper net k m url o data).2.
Proof.
  destruct (invalid_call m url) eqn:Hv.
  { simp fetchWrapper. rewrite Hv. constructor. }
  remember (Z.to_nat (budget o)) as n eqn:Hn.
  revert k o Hn. induction n as [|n IH]; intros k o Hn.
  { pose proof (budget_at_least_one o). lia. }
  assert (Hcall : call_invariant url m (budget o + default 0 (_retryCount o))
                    (CallFetch url (prepare m data o))).
  { pose proof (budget_at_least_one o).
    cbn. split; [done|]. split; [done|]. by eexists _, _. }
  rewrite fetchWrapper_step by done.
  destruct (failed (net k) && bool_decide (1 < budget o)) eqn:E.
  - apply andb_true_iff in E as [_ Hb%bool_decide_eq_true].
    cbn [snd]. constructor; [done|]. constructor; [done|].
    pose proof (budget_consume m data o Hb) as Hb'.
    specialize (IH (S k) (consume_retry (prepare m data o))).
    rewrite Hb' in IH.
    replace (budget o - 1 + default 0 (_retryCount (consume_retry (prepare m data o))))
      with (budget o + default 0 (_retryCount o)) in IH by (cbn; lia).
    apply IH. lia.
  - cbn [snd]. constructor; [done | constructor].
Qed.

(** ** Authorisation retry loop *)

Lemma reconnect_attempts_app (l1 l2 : list bool) (s : ReconnectState) :
  reconnect_attempts (l1 ++ l2) s
  = reconnect_attempts l1 s ++ reconnect_attempts l2 (reconnect_state l1 s).
Proof.
  revert s. induction l1 as [|o l1 IH]; intros s; [done|].
  cbn [app reconnect_attempts]. unfold reconnect_state. cbn [foldl].
  destruct (reconnectLoop o s) as [[s' d] b] eqn:E.
  rewrite IH. done.
Qed.

Lemma reconnect_authorised_idle (l : list bool) :
  forall s : ReconnectState,
    authorised (conn s) = true ->
    reconnect_run l s = repeat 15000 (length l)
    /\ reconnect_attempts l s = repeat false (length l)
    /\ authorised (conn (reconnect_state l s)) = true.
Proof.
  induction l as [|o l IH]; intros s Ha; [done|].
  unfold reconnect_state. cbn [reconnect_run reconnect_attempts foldl length repeat].
  unfold reconnectLoop. rewrite Ha. cbn [negb fst snd].
  destruct (IH {| conn := conn s; reconnectDelay := 15000 |} Ha) as (H1 & H2 & H3).
  by rewrite H1, H2.
Qed.

Lemma reconnect_after_success (s : ReconnectState) :
  authorised (conn (reconnectLoop true s).1.1) = true
  /\ (reconnectLoop true s).1.2 = 15000.
Proof. unfold reconnectLoop. by destruct (authorised (conn s)) eqn:E. Qed.

Lemma reconnect_failures_attempt (n : nat) :
  forall s : ReconnectState,
    authorised (conn s) = false ->
    reconnect_attempts (repeat false n) s = repeat true n
    /\ authorised (conn (reconnect_state (repeat false n) s)) = false.
Proof.
  induction n as [|n IH]; intros s Ha; [done|].
  unfold reconnect_state. cbn [repeat reconnect_attempts foldl].
  destruct (reconnectLoop false s) as [[s' d] b] eqn:E. cbn [fst].
  unfold reconnectLoop in E. rewrite Ha in E. cbn in E.
  injection E as <- <- <-.
  match goal with |- context [reconnect_attempts _ ?s1] =>
    destruct (IH s1 eq_refl) as (H1 & H2) end.
  unfold reconnect_state in H2. by rewrite H1.
Qed.

Lemma reconnect_delay_invariant (outcomes : list bool) :
  forall s : ReconnectState,
    (reconnectDelay s = 15000 \/ reconnectDelay s = 30000 \/ reconnectDelay s = 60000) ->
    Forall (fun d => d = 15000 \/ d = 30000 \/ d = 60000) (reconnect_run outcomes s).
Proof.
  induction outcomes as [|o outcomes IH]; intros s Hs; [constructor|].
  cbn [reconnect_run]. unfold reconnectLoop.
  destruct (authorised (conn s)); cbn [negb].
  - constructor; [by left|]. apply IH. by left.
  - destruct o; cbn [connect authorised].
    + constructor; [by left|]. apply IH. by left.
    + assert (H : Z.min (reconnectDelay s * 2) 60000 = 30000
                  \/ Z.min (reconnectDelay s * 2) 60000 = 60000) by lia.
      constructor; [tauto|]. apply IH. cbn [reconnectDelay]. tauto.
Qed.

(** X12: whatever the authorisation calls do, every delay the reconnect loop
    schedules is 15000, 30000 or 60000 ms: it never polls faster than every
    15 s and never waits longer than 60 s. *)
Theorem reconnect_delay_bounds (key : jsstring) (outcomes : list bool) :
  Forall (fun d => d = 15000 \/ d = 30000 \/ d = 60000)
         (reconnect_run outcomes (reconnect_init key)).
Proof. apply reconnect_delay_invariant. by left. Qed.

(** X13: the loop attempts authorisation on every run until the first
    success and never again afterwards: after [n] failures and a success,
    all later runs find the connection authorised, make no call and re-arm
    the timer with 15000 ms. *)
Theorem reconnect_stops_after_success (key : jsstring) (n : nat) (later : list bool) :
  reconnect_attempts (repeat false n ++ true :: later) (reconnect_init key)
  = repeat true (S n) ++ repeat false (length later)
  /\ reconnect_run (repeat false n ++ true :: later) (reconnect_init key)
     = reconnect_run (repeat false n) (reconnect_init key)
       ++ repeat 15000 (S (length later)).
Proof.
  destruct (reconnect_failures_attempt n (reconnect_init key) eq_refl) as (Hf & Hu).
  set (s := reconnect_state (repeat false n) (reconnect_init key)) in *.
  destruct (reconnect_after_success s) as (Ha & Hd).
  destruct (reconnect_authorised_idle later (reconnectLoop true s).1.1 Ha)
    as (Hrun & Hatt & _).
  split.
  - rewrite reconnect_attempts_app, Hf. fold s. cbn [reconnect_attempts].
    destruct (reconnectLoop true s) as [[s' d] b] eqn:E. cbn [fst] in *.
    rewrite Hatt.
    assert (b = true) as ->.
    { unfold reconnectLoop in E. rewrite Hu in E. cbn in E. congruence. }
    replace (repeat true (S n)) with (repeat true n ++ [true]).
    + by rewrite <- app_assoc.
    + clear. induction n as [|n IH]; [done|]. cbn [repeat app]. by rewrite IH.
  - rewrite reconnect_run_app. fold s. cbn [reconnect_run].
    destruct (reconnectLoop true s) as [[s' d] b] eqn:E. cbn [fst snd] in *.
    by rewrite Hrun, Hd.
Qed.

(** ** Normalization: the records *)

Lemma upper_code_idem (c : N) : upper_code (upper_code c) = upper_code c.
Proof.
  unfold upper_code.
  destruct ((97 <=? c)%N && (c <=? 122)%N) eqn:E; [|by rewrite E].
  apply andb_true_iff in E as [H1%N.leb_le H2%N.leb_le].
  destruct ((97 <=? c - 32)%N && (c - 32 <=? 122)%N) eqn:E'; [|done].
  apply andb_true_iff in E' as [H3%N.leb_le H4%N.leb_le]. lia.
Qed.

Lemma toUpperCase_idem (s : jsstring) : toUpperCase (toUpperCase s) = toUpperCase s.
Proof.
  unfold toUpperCase. rewrite List.map_map. apply List.map_ext, upper_code_idem.
Qed.

Lemma replace_dash_dot_no_dash (s : jsstring) : 45%N ∉ replace_dash_dot s.
Proof.
  unfold replace_dash_dot. rewrite list_elem_of_In, in_map_iff.
  intros (c & Hc & _). destruct (N.eqb_spec c 45); [done | congruence].
Qed.

Lemma obj_set_Forall {V} (P : jsstring * V -> Prop) (k : jsstring) (v : V)
    (o : list (jsstring * V)) :
  P (k, v) -> Forall P o -> Forall P (obj_set k v o).
Proof.
  intros Hk. induction 1 as [|[k' v'] o Hx Ho IH]; cbn [obj_set].
  - by repeat constructor.
  - destruct (decide (k = k')); by constructor.
Qed.

Lemma obj_set_keys {V} (k : jsstring) (v : V) (o : list (jsstring * V)) :
  map fst (obj_set k v o)
  = if decide (k ∈ map fst o) then map fst o else map fst o ++ [k].
Proof.
  induction o as [|[k' v'] o IH]; cbn [obj_set map fst].
  - rewrite decide_False; [done | by intros ?%elem_of_nil].
  - destruct (decide (k = k')) as [->|Hne]; cbn [map fst].
    + rewrite decide_True; [done | by left].
    + rewrite IH. destruct (decide (k ∈ map fst o)) as [Hin|Hin].
      * rewrite decide_True; [done | by right].
      * rewrite decide_False; [done|]. by intros [?|?]%elem_of_cons.
Qed.

Lemma obj_set_NoDup {V} (k : jsstring) (v : V) (o : list (jsstring * V)) :
  NoDup (map fst o) -> NoDup (map fst (obj_set k v o)).
Proof.
  intros Hnd. rewrite obj_set_keys. destruct (decide (k ∈ map fst o)); [done|].
  apply NoDup_app. split; [done|]. split; [|apply NoDup_singleton].
  intros x Hx ->%list_elem_of_singleton. done.
Qed.

Lemma obj_get_is_Some {V} (k : jsstring) (o : list (jsstring * V)) :
  is_Some (obj_get k o) <-> k ∈ map fst o.
Proof.
  induction o as [|[k' v'] o IH]; cbn [obj_get map fst].
  - split; [by intros [? ?] | by intros ?%elem_of_nil].
  - destruct (decide (k = k')) as [->|Hne].
    + split; [by left | by eexists].
    + rewrite IH, elem_of_cons. split; [by right | by intros [?|?]].
Qed.

Section RecordFacts.
Variable uc : UnicodeTables.
Variable config : Config.

Lemma derive_device_invariant (data : Snapshot.t) (m : Q) (pw : option loc)
    (inverter : Inverter.t) :
  record_invariant (toUpperCase (Inverter.SN inverter),
                    derive_device uc config data m pw inverter).
Proof.
  unfold record_invariant, derive_device. cbn.
  split; [done|]. split; [apply toUpperCase_idem|]. split; [done|]. split; [done|].
  apply replace_dash_dot_no_dash.
Qed.

End RecordFacts.

(** X14: every entry of the mapping that [#processData] returns is keyed by
    the record's own serial number, which is in upper case; the record is not
    excluded, is online, and its software version holds no ['-']. *)
Theorem processData_records (uc : UnicodeTables) (config : Config) (st : Platform) :
  Forall record_invariant (processData uc config st).1.
Proof.
  unfold processData.
  destruct (foldl (process_site uc config) (store st, []) (Object_values (rawData st)))
    as [h' devices] eqn:E. cbn [fst].
  apply (process_sites_preserve uc config (Forall record_invariant)) in E; [done| |done].
  intros data m pw inverter ds Hds.
  apply obj_set_Forall; [apply derive_device_invariant | done].
Qed.

(** X15: the mapping returned by [#processData] has one entry per serial
    number: no key occurs twice, however many sites and inverters share a
    serial number. *)
Theorem processData_keys_distinct (uc : UnicodeTables) (config : Config) (st : Platform) :
  NoDup (map fst (processData uc config st).1).
Proof.
  unfold processData.
  destruct (foldl (process_site uc config) (store st, []) (Object_values (rawData st)))
    as [h' devices] eqn:E. cbn [fst].
  apply (process_sites_preserve uc config (fun ds => NoDup (map fst ds))) in E;
    [done| |apply NoDup_nil_2].
  intros data m pw inverter ds Hds. by apply obj_set_NoDup.
Qed.

(** X16: no inverter is dropped: for every inverter listed in the inventory
    of a cached site the mapping has a record under the inverter's serial
    number in upper case. *)
Theorem processData_complete (uc : UnicodeTables) (config : Config) (st : Platform)
    (sid : Z) (data : Snapshot.t) (inverters : list Inverter.t) (inverter : Inverter.t) :
  rawData st !! sid = Some data ->
  Snapshot.inventory data ≫= Inventory.inverters = Some inverters ->
  inverter ∈ inverters ->
  is_Some (obj_get (toUpperCase (Inverter.SN inverter)) (processData uc config st).1).
Proof. apply processData_covers. Qed.

Lemma processData_complete_witness :
  (rawData (sample_platform [sample_inverter; nameless_inverter]) !! 42
   = Some (sample_snapshot [sample_inverter; nameless_inverter])
   /\ Snapshot.inventory (sample_snapshot [sample_inverter; nameless_inverter])
        ≫= Inventory.inverters
      = Some [sample_inverter; nameless_inverter]
   /\ nameless_inverter ∈ [sample_inverter; nameless_inverter])
  /\ is_Some (obj_get (toUpperCase (Inverter.SN nameless_inverter))
                (processData ascii_tables sample_config
                   (sample_platform [sample_inverter; nameless_inverter])).1).
Proof.
  assert (Hin : nameless_inverter ∈ [sample_inverter; nameless_inverter])
    by (right; left).
  split; [split; [by vm_compute | split; [reflexivity | exact Hin]]|].
  apply (processData_complete ascii_tables sample_config
           (sample_platform [sample_inverter; nameless_inverter]) 42
           (sample_snapshot [sample_inverter; nameless_inverter])
           [sample_inverter; nameless_inverter] nameless_inverter);
    [by vm_compute | reflexivity | exact Hin].
Defined.

(** ** Device registry: what a run keeps *)

Section RegistryMore.
Variable generateUUID : jsstring -> jsstring.
Variable device_uuid : Device.t -> jsstring.

Lemma register_device_keeps (st : Platform) (d : Device.t) (serial : jsstring)
    (t : Tracked.t) :
  trackedDevices st !! serial = Some t ->
  trackedDevices (register_device generateUUID device_uuid st d).1 !! serial = Some t.
Proof.
  intros Ht. rewrite register_device_tracked. case_decide; [|done]. by rewrite Ht.
Qed.

Lemma register_devices_keeps (records : list Device.t) (st : Platform)
    (serial : jsstring) (t : Tracked.t) :
  trackedDevices st !! serial = Some t ->
  trackedDevices (register_devices generateUUID device_uuid st records).1 !! serial
  = Some t.
Proof.
  unfold register_devices.
  apply (for_each_preserve (fun s => trackedDevices s !! serial = Some t)).
  intros s a. apply register_device_keeps.
Qed.


Lemma register_device_addressed (st : Platform) (d : Device.t) :
  Forall (update_addressed
            (trackedDevices (register_device generateUUID device_uuid st d).1))
         (register_device generateUUID device_uuid st d).2.
Proof.
  rewrite register_device_cases.
  destruct (trackedDevices st !! Device.serialNumber d) as [t|] eqn:Et;
    destruct (Device.excluded d) eqn:Ex; cbn [fst snd with_trackedDevices trackedDevices].
  - constructor.
  - destruct (bool_decide (Tracked.uuid t = [])) eqn:Eu; [constructor|].
    apply bool_decide_eq_false in Eu.
    constructor; [|constructor]. cbn. split; [done|]. split; [done|]. by exists t.
  - constructor; [done|]. destruct (bool_decide (_ ∈ _)); by repeat constructor.
  - constructor; [done|].
    destruct (bool_decide (device_uuid d = [])) eqn:Eu; [constructor|].
    apply bool_decide_eq_false in Eu.
    constructor; [|constructor]. cbn. split; [done|]. split; [done|].
    eexists. by rewrite lookup_insert_eq.
Qed.

End RegistryMore.

(** X17: the registry never removes or rewrites an entry: a serial number
    that is tracked keeps the same identity token and the same [exclude] flag
    through any number of cycles, whatever records arrive. *)
Theorem tracked_entry_is_permanent (generateUUID : jsstring -> jsstring)
    (device_uuid : Device.t -> jsstring) (st : Platform)
    (cycles : list (list Device.t)) (serial : jsstring) (t : Tracked.t) :
  trackedDevices st !! serial = Some t ->
  trackedDevices (register_cycles generateUUID device_uuid st cycles).1 !! serial
  = Some t.
Proof.
  intros Ht. unfold register_cycles.
  apply (for_each_preserve (fun s => trackedDevices s !! serial = Some t)); [|done].
  intros s records. apply register_devices_keeps.
Qed.

Lemma tracked_entry_is_permanent_witness :
  trackedDevices tracking_platform !! str "7E12ABCD-34"
  = Some {| Tracked.uuid := str "uuid-7E12ABCD-34"; Tracked.exclude := true |}
  /\ trackedDevices
       (register_cycles sample_generateUUID sample_device_uuid tracking_platform
          [[sample_record false]; [sample_record false]]).1 !! str "7E12ABCD-34"
     = Some {| Tracked.uuid := str "uuid-7E12ABCD-34"; Tracked.exclude := true |}.
Proof.
  split; [by vm_compute|].
  apply (tracked_entry_is_permanent sample_generateUUID sample_device_uuid
           tracking_platform [[sample_record false]; [sample_record false]]
           (str "7E12ABCD-34")).
  by vm_compute.
Defined.


(** X19: an update is only ever emitted for a record that is not excluded,
    and it is addressed to the non-empty identity token that the registry
    holds, at the end of the run, for the record's serial number. *)
Theorem updates_addressed_to_tracked (generateUUID : jsstring -> jsstring)
    (device_uuid : Device.t -> jsstring) (st : Platform)
    (cycles : list (list Device.t)) :
  Forall (update_addressed
            (trackedDevices (register_cycles generateUUID device_uuid st cycles).1))
         (register_cycles generateUUID device_uuid st cycles).2.
Proof.
  unfold register_cycles, register_devices. rewrite for_each_concat.
  generalize (concat cycles). intros records. revert st.
  induction records as [|d records IH]; intros st; [constructor|].
  rewrite for_each_cons. cbn [fst snd]. apply Forall_app. split; [|apply IH].
  eapply Forall_impl; [apply register_device_addressed|].
  intros [] He; try done. cbn in *.
  destruct He as (Hx & Hu & t & Ht & Htu). split; [done|]. split; [done|].
  exists t. split; [|done].
  by apply (register_devices_keeps generateUUID device_uuid records).
Qed.


(** ** The registry behind the normalizer *)

Section PipelineFacts.
Variable uc : UnicodeTables.
Variable config : Config.
Variable generateUUID : jsstring -> jsstring.
Variable device_uuid : Device.t -> jsstring.

Lemma processData_invariant (st : Platform) :
  Forall record_invariant (processData uc config st).1.
Proof.
  unfold processData.
  destruct (foldl (process_site uc config) (store st, []) (Object_values (rawData st)))
    as [h' devices] eqn:E. cbn [fst].
  apply (process_sites_preserve uc config (Forall record_invariant)) in E; [done| |done].
  intros data m pw inverter ds Hds.
  apply obj_set_Forall; [apply derive_device_invariant | done].
Qed.

Lemma processData_not_excluded (st : Platform) :
  Forall (fun d => Device.excluded d = false) (obj_values (processData uc config st).1).
Proof.
  unfold obj_values. apply Forall_fmap.
  eapply Forall_impl; [apply processData_invariant|].
  by intros [serial d] (_ & _ & Hx & _).
Qed.

Lemma processData_registry (st : Platform) :
  trackedDevices (processData uc config st).2 = trackedDevices st
  /\ cachedAccessories (processData uc config st).2 = cachedAccessories st.
Proof.
  unfold processData.
  by destruct (foldl (process_site uc config) (store st, []) (Object_values (rawData st))).
Qed.

Lemma register_device_quiet (st : Platform) (d : Device.t) :
  Device.excluded d = false ->
  Forall (fun e => announces_exclusion e = false)
         (register_device generateUUID device_uuid st d).2.
Proof.
  intros Hx. rewrite register_device_cases, Hx.
  destruct (trackedDevices st !! Device.serialNumber d) as [t|]; cbn [snd].
  - destruct (bool_decide (Tracked.uuid t = [])); by repeat constructor.
  - destruct (bool_decide (device_uuid d = [])); by repeat constructor.
Qed.

Lemma register_devices_quiet (records : list Device.t) :
  Forall (fun d => Device.excluded d = false) records ->
  forall st : Platform,
    Forall (fun e => announces_exclusion e = false)
           (register_devices generateUUID device_uuid st records).2.
Proof.
  unfold register_devices.
  induction 1 as [|d records Hd Hrest IH]; intros st; [constructor|].
  rewrite for_each_cons. cbn [snd]. apply Forall_app. split; [|apply IH].
  by apply register_device_quiet.
Qed.

Lemma processPostSubscribe_quiet (st : Platform) :
  Forall (fun e => announces_exclusion e = false)
         (processPostSubscribe uc config generateUUID device_uuid st).2.
Proof.
  unfold processPostSubscribe.
  pose proof (processData_not_excluded st) as H.
  destruct (processData uc config st) as [devices st1]. cbn [fst] in H.
  by apply register_devices_quiet.
Qed.

Lemma processPostSubscribe_cut_quiet (interrupt : option nat) (st : Platform) :
  Forall (fun e => announces_exclusion e = false)
         (processPostSubscribe_cut uc config generateUUID device_uuid interrupt st).1.2.
Proof.
  destruct interrupt as [n|]; cbn [processPostSubscribe_cut fst snd];
    [|apply processPostSubscribe_quiet].
  pose proof (processData_not_excluded st) as H.
  destruct (processData uc config st) as [devices st1]. cbn [fst snd] in *.
  apply register_devices_cut_events.
  eapply Forall_impl; [exact H|]. intros d Hd s. by apply register_device_quiet.
Qed.

(** A turn that gets both bodies writes the cache and then runs the
    registry, cut short or not, on a state that tracks and caches what the
    one before did. *)
Lemma fetch_site_unfold (uuid : jsstring) (st : Platform) (x : Turn) :
  decodes (turn_temp x) = true ->
  exists st1,
    trackedDevices st1 = trackedDevices st
    /\ cachedAccessories st1 = cachedAccessories st
    /\ fetch_site uc config generateUUID device_uuid uuid st x
       = ((processPostSubscribe_cut uc config generateUUID device_uuid
             (turn_interrupt x) st1).1.1,
          WriteRawData (Site.id (turn_site x))
          :: (processPostSubscribe_cut uc config generateUUID device_uuid
                (turn_interrupt x) st1).1.2,
          (processPostSubscribe_cut uc config generateUUID device_uuid
             (turn_interrupt x) st1).2).
Proof.
  destruct x as [site [i f] interrupt].
  unfold decodes, fetch_site, keys_length, FETCHURLS_length.
  cbn [turn_site turn_temp turn_interrupt inventory_json currentPowerFlow_json].
  destruct i as [[|inventory]|], f as [[|flow]|]; try done. intros _.
  cbn [Nat.add]. rewrite decide_True by done.
  destruct (alloc_reading (store st) (payload_siteCurrentPowerFlow flow)) as [pw h].
  match goal with
  | |- context [processPostSubscribe_cut _ _ _ _ _ ?s] => exists s
  end.
  split; [done|]. split; [done|].
  match goal with
  | |- context [processPostSubscribe_cut ?a ?b ?c ?d ?i ?s] =>
      by destruct (processPostSubscribe_cut a b c d i s) as [[? ?] ?]
  end.
Qed.

Lemma fetch_site_quiet (uuid : jsstring) (st : Platform) (x : Turn) :
  Forall (fun e => announces_exclusion e = false)
         (fetch_site uc config generateUUID device_uuid uuid st x).1.2.
Proof.
  destruct (decodes (turn_temp x)) eqn:Ed.
  - destruct (fetch_site_unfold uuid st x Ed) as (st1 & _ & _ & ->).
    cbn [fst snd]. constructor; [done|]. apply processPostSubscribe_cut_quiet.
  - rewrite fetch_site_idle by done. constructor.
Qed.

Lemma written_none (evs : list Event) :
  (forall sid, WriteRawData sid ∉ evs) -> written evs = [].
Proof.
  induction evs as [|e evs IH]; intros H; [done|].
  unfold written in *. cbn [omap].
  destruct e; try (apply IH; intros sid Hin; apply (H sid); by right).
  exfalso. eapply H. by left.
Qed.

Lemma fetch_site_written (uuid : jsstring) (st : Platform) (x : Turn) :
  written (fetch_site uc config generateUUID device_uuid uuid st x).1.2
  = if decodes (turn_temp x) then [Site.id (turn_site x)] else [].
Proof.
  destruct (decodes (turn_temp x)) eqn:Ed.
  - destruct (fetch_site_unfold uuid st x Ed) as (st1 & _ & _ & ->).
    cbn [fst snd].
    change (written (WriteRawData (Site.id (turn_site x)) :: ?evs))
      with (Site.id (turn_site x) :: written evs).
    f_equal. apply written_none. apply processPostSubscribe_cut_frame.
  - by rewrite fetch_site_idle.
Qed.



Lemma never_forgets_refl (st : Platform) : never_forgets st st.
Proof. by repeat split. Qed.

Lemma never_forgets_trans (st1 st2 st3 : Platform) :
  never_forgets st1 st2 -> never_forgets st2 st3 -> never_forgets st1 st3.
Proof.
  intros (Hr & Ht & Hc & Ha) (Hr' & Ht' & Hc' & Ha').
  split; [by etrans|]. split; [by etrans|]. split; congruence.
Qed.

Lemma register_device_never_forgets (st : Platform) (d : Device.t) :
  never_forgets st (register_device generateUUID device_uuid st d).1.
Proof.
  destruct (register_device_frame generateUUID device_uuid st d) as (Hr & _ & Hc & _).
  split; [by rewrite Hr|]. split.
  - apply map_subseteq_spec. intros serial t.
    apply register_device_keeps.
  - split; [done|]. rewrite register_device_cases.
    by destruct (trackedDevices st !! Device.serialNumber d), (Device.excluded d).
Qed.

Lemma register_devices_never_forgets (records : list Device.t) (st : Platform) :
  never_forgets st (register_devices generateUUID device_uuid st records).1.
Proof.
  unfold register_devices.
  apply (for_each_preserve (never_forgets st)); [|apply never_forgets_refl].
  intros s d Hs. apply (never_forgets_trans _ s); [done|].
  apply register_device_never_forgets.
Qed.

Lemma processPostSubscribe_never_forgets (st : Platform) :
  never_forgets st (processPostSubscribe uc config generateUUID device_uuid st).1.
Proof.
  unfold processPostSubscribe.
  destruct (processData_frame uc config st) as (Hr & _ & Hc).
  destruct (processData_registry st) as (Ht & Ha).
  destruct (processData uc config st) as [devices st1]. cbn [fst snd] in *.
  apply (never_forgets_trans _ st1); [|apply register_devices_never_forgets].
  split; [by rewrite Hr|]. split; [by rewrite Ht|]. done.
Qed.

Lemma processPostSubscribe_cut_never_forgets (interrupt : option nat) (st : Platform) :
  never_forgets st
    (processPostSubscribe_cut uc config generateUUID device_uuid interrupt st).1.1.
Proof.
  destruct interrupt as [n|]; cbn [processPostSubscribe_cut fst];
    [|apply processPostSubscribe_never_forgets].
  destruct (processData_frame uc config st) as (Hr & _ & Hc).
  destruct (processData_registry st) as (Ht & Ha).
  destruct (processData uc config st) as [devices st1]. cbn [fst snd] in *.
  apply (never_forgets_trans _ st1).
  { split; [by rewrite Hr|]. split; [by rewrite Ht|]. done. }
  apply (register_devices_cut_preserve generateUUID device_uuid (never_forgets st1));
    [|apply never_forgets_refl].
  intros s d Hs. apply (never_forgets_trans _ s); [done|].
  apply register_device_never_forgets.
Qed.

Lemma fetch_site_never_forgets (uuid : jsstring) (st : Platform) (x : Turn) :
  never_forgets st (fetch_site uc config generateUUID device_uuid uuid st x).1.1.
Proof.
  destruct (decodes (turn_temp x)) eqn:Ed.
  - destruct (fetch_site_commit uc config generateUUID device_uuid uuid st x Ed)
      as (inventory & flow & pw & _ & Hraw & _).
    destruct (fetch_site_spec uc config generateUUID device_uuid uuid st x)
      as (Hc & _).
    destruct (fetch_site_unfold uuid st x Ed) as (st1 & Ht & Ha & E).
    destruct (processPostSubscribe_cut_never_forgets (turn_interrupt x) st1)
      as (_ & Ht1 & _ & Ha1).
    split.
    { rewrite Hraw, dom_insert. set_solver. }
    rewrite E in *. cbn [fst] in *.
    split; [by rewrite <- Ht|]. split; [done|]. by rewrite Ha1.
  - rewrite fetch_site_idle by done. apply never_forgets_refl.
Qed.

Lemma fetch_site_keyed (uuid : jsstring) (st : Platform) (x : Turn) :
  keyed_by_site_id st ->
  keyed_by_site_id (fetch_site uc config generateUUID device_uuid uuid st x).1.1.
Proof.
  intros Hk. destruct (decodes (turn_temp x)) eqn:Ed.
  - destruct (fetch_site_commit uc config generateUUID device_uuid uuid st x Ed)
      as (inventory & flow & pw & _ & Hraw & _).
    unfold keyed_by_site_id. rewrite Hraw. by apply map_Forall_insert_2.
  - by rewrite fetch_site_idle.
Qed.

Lemma subscribeREST_cases (uuid : jsstring)
    (sites : option (option (list Turn))) (st : Platform) :
  (subscribeREST uc config generateUUID device_uuid uuid sites st).1 = (st, [])
  \/ exists l,
      (subscribeREST uc config generateUUID device_uuid uuid sites st).1
      = for_each_until (fetch_site uc config generateUUID device_uuid uuid) st l.
Proof.
  unfold subscribeREST.
  destruct (connections st !! uuid) as [c|]; [|by left].
  destruct (authorised c); [|by left].
  destruct sites as [[l|]|]; [|by left..]. right. by exists l.
Qed.

Lemma subscribeREST_preserve (P : Platform -> Prop) :
  (forall uuid st x,
      P st -> P (fetch_site uc config generateUUID device_uuid uuid st x).1.1) ->
  forall uuid sites st,
    P st -> P (subscribeREST uc config generateUUID device_uuid uuid sites st).1.1.
Proof.
  intros Hstep uuid sites st HP.
  destruct (subscribeREST_cases uuid sites st) as [->|[l ->]]; [done|].
  apply (for_each_until_preserve P); [|done]. intros s x. apply Hstep.
Qed.

Lemma subscribe_cycles_preserve (P : Platform -> Prop) :
  (forall uuid st x,
      P st -> P (fetch_site uc config generateUUID device_uuid uuid st x).1.1) ->
  forall cycles st,
    P st -> P (subscribe_cycles uc config generateUUID device_uuid st cycles).1.
Proof.
  intros Hstep cycles st HP. unfold subscribe_cycles.
  apply (for_each_preserve P); [|done].
  intros s c. by apply subscribeREST_preserve.
Qed.
End PipelineFacts.

(** X21: the aggregation pipeline never excludes a device: whatever the
    requests return and wherever a run is cut short by an exception, over
    any number of cycles and from any state, no exclusion warning is logged
    and no accessory is unregistered, because every record that
    [#processData] hands to [#processPostSubscribe] has [excluded] set to
    [false]. *)
Theorem pipeline_never_excludes (uc : UnicodeTables) (config : Config)
    (generateUUID : jsstring -> jsstring) (device_uuid : Device.t -> jsstring)
    (st : Platform)
    (cycles : list (jsstring * option (option (list Turn)))) :
  Forall (fun e => announces_exclusion e = false)
         (subscribe_cycles uc config generateUUID device_uuid st cycles).2.
Proof.
  unfold subscribe_cycles. apply for_each_events. intros s [uuid sites]. cbn [fst snd].
  destruct (subscribeREST_cases uc config generateUUID device_uuid uuid sites s)
    as [->|[l ->]]; [constructor|].
  apply for_each_until_events. intros s' x. apply fetch_site_quiet.
Qed.


(** X23: in a cycle of an authorised connection the cache is written once
    for every turn that the site loop gets to and in which both fetches
    succeeded with a body other than [null], in the order of the list, and
    never otherwise.  The loop gets to every turn up to and including the
    first one that throws: an exception in a turn is swallowed by the [try]
    around the loop and ends it, so the sites after it are not written in
    that cycle even if both of their fetches succeeded. *)
Theorem subscribeREST_write_order (uc : UnicodeTables) (config : Config)
    (generateUUID : jsstring -> jsstring) (device_uuid : Device.t -> jsstring)
    (uuid : jsstring) (c : Connection) (l : list Turn) (st : Platform) :
  connections st !! uuid = Some c -> authorised c = true ->
  written (subscribeREST uc config generateUUID device_uuid uuid (Some (Some l)) st).1.2
  = map (fun x => Site.id (turn_site x))
        (filter (fun x => decodes (turn_temp x) = true) (reached l)).
Proof.
  intros Hc Ha. unfold subscribeREST. rewrite Hc, Ha. cbn [fst].
  clear Hc. revert st. induction l as [|x l IH]; intros st; [done|].
  rewrite for_each_until_cons. cbn [reached].
  pose proof (fetch_site_written uc config generateUUID device_uuid uuid st x) as Hw.
  destruct (fetch_site_spec uc config generateUUID device_uuid uuid st x)
    as (_ & _ & Ht & _).
  rewrite Ht. rewrite filter_cons. destruct (throws x).
  - rewrite Hw, filter_nil. by destruct (decodes (turn_temp x)).
  - cbn [snd]. unfold written in *. rewrite omap_app, Hw.
    fold (written (for_each_until (fetch_site uc config generateUUID device_uuid uuid)
                     (fetch_site uc config generateUUID device_uuid uuid st x).1.1 l).2).
    rewrite IH. by destruct (decodes (turn_temp x)).
Qed.

Lemma subscribeREST_write_order_witness :
  (connections (sample_platform []) !! str "c0ffee"
   = Some {| authorised := true; apiKey := str "key" |}
   /\ authorised {| authorised := true; apiKey := str "key" |} = true)
  /\ written
       (subscribeREST ascii_tables sample_config sample_generateUUID sample_device_uuid
          (str "c0ffee") (Some (Some (sample_fetches ++ null_body_fetches)))
          (sample_platform [])).1.2
     = map (fun x => Site.id (turn_site x))
           (filter (fun x => decodes (turn_temp x) = true)
                   (reached (sample_fetches ++ null_body_fetches))).
Proof.
  split; [by vm_compute|].
  apply (subscribeREST_write_order ascii_tables sample_config sample_generateUUID
           sample_device_uuid (str "c0ffee") {| authorised := true; apiKey := str "key" |}
           (sample_fetches ++ null_body_fetches) (sample_platform [])); by vm_compute.
Defined.

(** X24: the platform never forgets: over any number of aggregation cycles,
    whatever the requests return and wherever a run is cut short, every
    cached site stays in the cache and every tracked serial number keeps its
    entry, so the entry of a site that is no longer in the site list is
    never dropped; the connections and the accessory cache are not
    touched. *)
Theorem platform_never_forgets (uc : UnicodeTables) (config : Config)
    (generateUUID : jsstring -> jsstring) (device_uuid : Device.t -> jsstring)
    (st : Platform)
    (cycles : list (jsstring * option (option (list Turn)))) :
  never_forgets st (subscribe_cycles uc config generateUUID device_uuid st cycles).1.
Proof.
  apply (subscribe_cycles_preserve uc config generateUUID device_uuid (never_forgets st));
    [|apply never_forgets_refl].
  intros uuid s x Hs. apply (never_forgets_trans _ s); [done|].
  apply fetch_site_never_forgets.
Qed.

(** X25: every cache entry is stored under the id of its own site, and the
    aggregation cycles keep it so. *)
Theorem cache_keyed_by_site_id (uc : UnicodeTables) (config : Config)
    (generateUUID : jsstring -> jsstring) (device_uuid : Device.t -> jsstring)
    (st : Platform)
    (cycles : list (jsstring * option (option (list Turn)))) :
  keyed_by_site_id st ->
  keyed_by_site_id (subscribe_cycles uc config generateUUID device_uuid st cycles).1.
Proof.
  apply (subscribe_cycles_preserve uc config generateUUID device_uuid keyed_by_site_id).
  intros uuid s x. apply fetch_site_keyed.
Qed.

Lemma cache_keyed_by_site_id_witness :
  keyed_by_site_id (sample_platform [sample_inverter])
  /\ keyed_by_site_id
       (subscribe_cycles ascii_tables sample_config sample_generateUUID sample_device_uuid
          (sample_platform [sample_inverter])
          [(str "c0ffee", Some (Some sample_fetches))]).1.
Proof.
  split; [compute_done|].
  apply (cache_keyed_by_site_id ascii_tables sample_config sample_generateUUID
           sample_device_uuid (sample_platform [sample_inverter])
           [(str "c0ffee", Some (Some sample_fetches))]).
  compute_done.
Defined.

(** X26: every reading that a cache entry refers to exists: starting from
    the empty cache of a new platform, after any number of aggregation
    cycles, whatever the requests return, the normalizer never meets a
    dangling reading. *)
Theorem cache_readings_resolve (uc : UnicodeTables) (config : Config)
    (generateUUID : jsstring -> jsstring) (device_uuid : Device.t -> jsstring)
    (st : Platform)
    (cycles : list (jsstring * option (option (list Turn)))) :
  rawData st = ∅ ->
  well_formed (subscribe_cycles uc config generateUUID device_uuid st cycles).1.
Proof.
  intros H.
  apply (subscribe_cycles_preserve uc config generateUUID device_uuid well_formed).
  - intros uuid s x. apply fetch_site_well_formed.
  - by apply empty_cache_well_formed.
Qed.

Lemma cache_readings_resolve_witness :
  rawData fresh_platform = ∅
  /\ well_formed
       (subscribe_cycles ascii_tables sample_config sample_generateUUID sample_device_uuid
          fresh_platform
          [(str "c0ffee", Some (Some sample_fetches));
           (str "c0ffee", Some (Some failed_fetches))]).1.
Proof.
  split; [reflexivity|].
  apply (cache_readings_resolve ascii_tables sample_config sample_generateUUID
           sample_device_uuid fresh_platform
           [(str "c0ffee", Some (Some sample_fetches));
            (str "c0ffee", Some (Some failed_fetches))]).
  reflexivity.
Defined.

(** X27: a cycle in which no site has both of its fetches succeed changes
    nothing and reaches no accessory: the state is the one before, no event
    happens, and so no device is refreshed from the sites cached earlier. *)
Theorem idle_cycle_changes_nothing (uc : UnicodeTables) (config : Config)
    (generateUUID : jsstring -> jsstring) (device_uuid : Device.t -> jsstring)
    (uuid : jsstring) (l : list Turn) (st : Platform) :
  Forall (fun x => ~ both_succeeded (turn_temp x)) l ->
  (subscribeREST uc config generateUUID device_uuid uuid (Some (Some l)) st).1
  = (st, []).
Proof.
  intros Hl. unfold subscribeREST.
  destruct (connections st !! uuid) as [c|]; [|done].
  destruct (authorised c); [|done]. cbn [fst].
  induction Hl as [|x l Hx Hl IH]; [done|].
  rewrite for_each_until_cons, fetch_site_skip by done. cbn [fst snd]. by rewrite IH.
Qed.

Lemma idle_cycle_changes_nothing_witness :
  Forall (fun x : Turn => ~ both_succeeded (turn_temp x)) failed_fetches
  /\ (subscribeREST ascii_tables sample_config sample_generateUUID sample_device_uuid
        (str "c0ffee") (Some (Some failed_fetches)) (sample_platform [sample_inverter])).1
     = (sample_platform [sample_inverter], []).
Proof.
  assert (H : Forall (fun x : Turn => ~ both_succeeded (turn_temp x)) failed_fetches).
  { constructor; [|constructor]. cbn. intros [_ [? ?]]. discriminate. }
  split; [exact H|].
  apply (idle_cycle_changes_nothing ascii_tables sample_config sample_generateUUID
           sample_device_uuid (str "c0ffee") failed_fetches
           (sample_platform [sample_inverter]) H).
Defined.

(** X29: an exception ends the cycle: the turns after the first one that
    throws have no effect at all, on the cache, on the registry or on any
    accessory.  The cycle over a site list is the cycle over the turns up to
    and including the first one with both fetches succeeded and then a
    [null] body or a run of [#processPostSubscribe] that throws. *)
Theorem cycle_ends_at_first_exception (uc : UnicodeTables) (config : Config)
    (generateUUID : jsstring -> jsstring) (device_uuid : Device.t -> jsstring)
    (uuid : jsstring) (l : list Turn) (st : Platform) :
  subscribeREST uc config generateUUID device_uuid uuid (Some (Some l)) st
  = subscribeREST uc config generateUUID device_uuid uuid (Some (Some (reached l))) st.
Proof.
  unfold subscribeREST.
  destruct (connections st !! uuid) as [c|]; [|done].
  destruct (authorised c); [|done]. f_equal.
  revert st. induction l as [|x l IH]; intros st; [done|].
  cbn [reached]. rewrite !for_each_until_cons.
  destruct (fetch_site_spec uc config generateUUID device_uuid uuid st x)
    as (_ & _ & Ht & _).
  rewrite Ht. destruct (throws x); [done|]. by rewrite IH.
Qed.
